(** * Log-ratio change detection with an accumulator

    A shallow embedding of the numeric cells of the notebook
    [Capella-Log-Ratio-Change-Detection-Example-Using-API-and-TileDB.ipynb]:
    the Lee speckle filter ([lee_filter]), the nodata masking of
    [clipped_read], and the pair loop that computes the log ratio, the
    mean + k*sigma threshold, the two masked assignments, the grey opening and
    the accumulator [cd].

    Samples are IEEE-754 binary64 numbers, as numpy's [float64]: Rocq's
    primitive floats.  [np.seterr(divide='ignore', invalid='ignore')] makes
    every division return its IEEE result silently, which is what the
    primitive division does. *)

From Stdlib Require Import List ZArith Lia Bool Permutation Sorted.
From Stdlib Require Import Floats.
From Stdlib Require Uint63.
Import ListNotations.

(** ** Python outcomes *)

Inductive exn : Type :=
| ValueError   (* numpy: operands could not be broadcast together *)
| NameError    (* a name read before any assignment *)
| IndexError.  (* list index out of range *)

Inductive outcome (A : Type) : Type :=
| Returns (a : A)
| Raises (e : exn).

Arguments Returns {A} a.
Arguments Raises {A} e.

Definition bind {A B : Type} (m : outcome A) (k : A -> outcome B) : outcome B :=
  match m with
  | Returns a => k a
  | Raises e => Raises e
  end.

Notation "x <- m ;; k" := (bind m (fun x => k))
  (at level 61, m at next level, right associativity).

(** ** Two-dimensional float64 arrays

    An array is the list of its rows.  [rect h w a] says that [a] is a
    well-formed [h] by [w] array.  An array with no row does not record its
    width; statements about shapes below are about arrays with at least one
    row. *)

Definition ndarray : Type := list (list float).

Definition shape (a : ndarray) : nat * nat := (length a, length (hd [] a)).

Definition rect (h w : nat) (a : ndarray) : Prop :=
  length a = h /\ Forall (fun r => length r = w) a.

(** [a[i, j]]; the default is never read on a well-formed array within its
    bounds. *)
Definition getitem (a : ndarray) (i j : nat) : float :=
  nth j (nth i a []) 0%float.

Fixpoint map2 {A B C : Type} (f : A -> B -> C) (l : list A) (l' : list B) : list C :=
  match l, l' with
  | x :: t, y :: t' => f x y :: map2 f t t'
  | _, _ => []
  end.

(** A unary ufunc, and a binary ufunc on operands of one shape. *)
Definition ufunc1 {A B : Type} (f : A -> B) (a : list (list A)) : list (list B) :=
  map (map f) a.

Definition ufunc2 {A B C : Type} (f : A -> B -> C)
  (a : list (list A)) (b : list (list B)) : list (list C) :=
  map2 (map2 f) a b.

(** numpy broadcasting of two 2-D operands: along each axis the extents must
    be equal or one of them must be 1, and an extent of 1 is repeated. *)
Definition broadcast_dim (m n : nat) : option nat :=
  if Nat.eqb m n then Some m
  else if Nat.eqb m 1 then Some n
  else if Nat.eqb n 1 then Some m
  else None.

Definition stretch {A : Type} (n : nat) (l : list A) : list A :=
  match l with
  | [x] => repeat x n
  | _ => l
  end.

Definition broadcast_to (h w : nat) (a : ndarray) : ndarray :=
  map (stretch w) (stretch h a).

Definition broadcast2 (f : float -> float -> float) (a b : ndarray) : outcome ndarray :=
  match broadcast_dim (fst (shape a)) (fst (shape b)),
        broadcast_dim (snd (shape a)) (snd (shape b)) with
  | Some h, Some w => Returns (ufunc2 f (broadcast_to h w a) (broadcast_to h w b))
  | _, _ => Raises ValueError
  end.

Definition shape_eqb (s t : nat * nat) : bool :=
  Nat.eqb (fst s) (fst t) && Nat.eqb (snd s) (snd t).

(** [a += b]: the broadcast result must have the shape of [a]. *)
Definition np_iadd (a b : ndarray) : outcome ndarray :=
  r <- broadcast2 PrimFloat.add a b ;;
  if shape_eqb (shape r) (shape a) then Returns r else Raises ValueError.

(** ** Scalars *)

(** An integer count used as a divisor is converted to float64. *)
Definition of_count (n : nat) : float :=
  of_uint63 (Uint63.of_Z (Z.of_nat n)).

Definition np_isnan (x : float) : bool := negb (x =? x)%float.

Definition np_isfinite (x : float) : bool :=
  match Prim2SF x with
  | S754_zero _ | S754_finite _ _ _ => true
  | _ => false
  end.

(** [np.add.reduce] over a contiguous float64 array: the result starts as
    the identity 0 and the inner loop adds numpy's pairwise sum of the [n]
    samples to it.  Fewer than 8 samples are added in index order; up to
    [PW_BLOCKSIZE] = 128 samples go into eight interleaved partial sums that
    are then added as a tree, the samples after the last full block of 8 in
    index order; a longer array is split in two (the first half cut down to a
    multiple of 8) and the two sums are added. *)
Definition sum_in_order (a : list float) (res : float) : float :=
  fold_left PrimFloat.add a res.

(** [r[0] += a[i + 0]; ...; r[7] += a[i + 7]] for [k] blocks of 8 samples;
    returns [r] and the samples not yet read. *)
Fixpoint add_blocks (k : nat) (r a : list float) : list float * list float :=
  match k with
  | O => (r, a)
  | S k' => add_blocks k' (map2 PrimFloat.add r (firstn 8 a)) (skipn 8 a)
  end.

(** [((r[0] + r[1]) + (r[2] + r[3])) + ((r[4] + r[5]) + (r[6] + r[7]))] *)
Definition tree8 (r : list float) : float :=
  match r with
  | [r0; r1; r2; r3; r4; r5; r6; r7] =>
      (((r0 + r1) + (r2 + r3)) + ((r4 + r5) + (r6 + r7)))%float
  | _ => 0%float
  end.

(** The branch for [8 <= n <= PW_BLOCKSIZE]. *)
Definition unrolled_sum (a : list float) : float :=
  let (r, rest) := add_blocks (length a / 8 - 1) (firstn 8 a) (skipn 8 a) in
  sum_in_order rest (tree8 r).

Definition PW_BLOCKSIZE : nat := 128.

(** The recursion halves the array, so [length a] calls deep are never
    needed: [Sums.pairwise_sum_fuel] shows that the result does not depend on
    [fuel] from [length a] on, and [Sums.pairwise_sum_split] is the recursive
    branch of the C function. *)
Fixpoint pairwise_sum (fuel : nat) (a : list float) : float :=
  let n := length a in
  if Nat.ltb n 8 then sum_in_order a 0%float
  else if Nat.leb n PW_BLOCKSIZE then unrolled_sum a
  else match fuel with
       | O => unrolled_sum a
       | S fuel' =>
           let n2 := n / 2 in
           let n2 := n2 - n2 mod 8 in
           (pairwise_sum fuel' (firstn n2 a) + pairwise_sum fuel' (skipn n2 a))%float
       end.

Definition np_sum (l : list float) : float :=
  (0 + pairwise_sum (length l) l)%float.

Definition ravel (a : ndarray) : list float := concat a.

Definition np_mean (a : ndarray) : float :=
  (np_sum (ravel a) / of_count (length (ravel a)))%float.

(** [scipy.ndimage.variance]: the population variance of all samples. *)
Definition variance (a : ndarray) : float :=
  let m := np_mean a in
  let vals_c := map (fun x => (x - m)%float) (ravel a) in
  (np_sum (map (fun c => (c * c)%float) vals_c) / of_count (length (ravel a)))%float.

(** [np.nanmean]: NaN samples are replaced by 0 and left out of the count. *)
Definition nan_to_zero (x : float) : float := if np_isnan x then 0%float else x.

Definition count_valid (l : list float) : nat :=
  length (filter (fun x => negb (np_isnan x)) l).

Definition nanmean (a : ndarray) : float :=
  let l := ravel a in
  (np_sum (map nan_to_zero l) / of_count (count_valid l))%float.

(** [np.nanvar] and [np.nanstd] with [ddof = 0]. *)
Definition nanvar (a : ndarray) : float :=
  let l := ravel a in
  let cnt := count_valid l in
  let avg := (np_sum (map nan_to_zero l) / of_count cnt)%float in
  let dev := map (fun x => if np_isnan x then 0%float else (nan_to_zero x - avg)%float) l in
  let sqr := map (fun c => (c * c)%float) dev in
  if Nat.eqb cnt 0 then nan else (np_sum sqr / of_count cnt)%float.

Definition nanstd (a : ndarray) : float := PrimFloat.sqrt (nanvar a).

(** ** scipy.ndimage filters

    All three filters used by the notebook are separable: they run a
    one-dimensional filter along axis 0 and then along axis 1, over the lines
    of the array, and an axis is filtered only when its window is larger
    than 1 (otherwise the input is copied).  Each line is first copied into a
    buffer with its borders, filled by the default mode ['reflect']
    ([d c b a | a b c d | d c b a]). *)

Definition reflect (n : nat) (i : Z) : nat :=
  let m := (i mod (2 * Z.of_nat n))%Z in
  Z.to_nat (if (m <? Z.of_nat n)%Z then m else (2 * Z.of_nat n - 1 - m)%Z).

(** The offsets a window of [size] samples covers around its output sample;
    a negative [origin] moves the window to the right. *)
Definition offsets (size : nat) (origin : Z) : list Z :=
  map (fun t => (Z.of_nat t - Z.of_nat (size / 2) - origin)%Z) (seq 0 size).

(** The line buffer: [size / 2 + origin] samples before the line and
    [size - size / 2 - 1 - origin] after it, so that the window of output
    sample [ll] is [iline[ll], ..., iline[ll + size - 1]]. *)
Definition extend_line (size : nat) (origin : Z) (line : list float) : list float :=
  let n := length line in
  map (fun t => nth (reflect n (Z.of_nat t - Z.of_nat (size / 2) - origin)) line 0%float)
      (seq 0 (n + size - 1)).

Definition lines_axis1 (f : list float -> list float) (a : ndarray) : ndarray :=
  map f a.

Definition column (a : ndarray) (j : nat) : list float :=
  map (fun i => getitem a i j) (seq 0 (fst (shape a))).

Definition lines_axis0 (f : list float -> list float) (a : ndarray) : ndarray :=
  let cols := map (fun j => f (column a j)) (seq 0 (snd (shape a))) in
  map (fun i => map (fun c => nth i c 0%float) cols) (seq 0 (fst (shape a))).

Definition separable (f : nat -> list float -> list float) (size : nat * nat)
  (a : ndarray) : ndarray :=
  let a0 := if Nat.ltb 1 (fst size) then lines_axis0 (f (fst size)) a else a in
  if Nat.ltb 1 (snd size) then lines_axis1 (f (snd size)) a0 else a0.

(** [uniform_filter1d] on one line: the first window is summed and divided
    by the window size, then the running value is updated with the sample
    that enters ([l2]) and the one that leaves ([l1]), their difference
    divided by the window size and added to [tmp]. *)
Fixpoint running_mean (fs tmp : float) (l1 l2 : list float) : list float :=
  match l1, l2 with
  | x1 :: l1', x2 :: l2' =>
      let tmp' := (tmp + (x2 - x1) / fs)%float in
      tmp' :: running_mean fs tmp' l1' l2'
  | _, _ => []
  end.

Definition uniform_filter1d (filter_size : nat) (line : list float) : list float :=
  match line with
  | [] => []
  | _ :: _ =>
      let iline := extend_line filter_size 0 line in
      let fs := of_count filter_size in
      let tmp := (sum_in_order (firstn filter_size iline) 0 / fs)%float in
      tmp :: running_mean fs tmp iline (skipn filter_size iline)
  end.

Definition uniform_filter (a : ndarray) (size : nat * nat) : ndarray :=
  separable uniform_filter1d size a.

(** [minimum_filter1d] and [maximum_filter1d] on one line: the sliding
    window keeps a ring of candidates (the C [struct pairs]: a value and its
    death) from [minpair] to [last]; [death] is the index at which a
    candidate leaves the window.  The ring is the list of its live entries,
    [minpair] first. *)
Record candidate : Type := { value : float; death : nat }.

(** [val <= v] for the minimum, [val >= v] for the maximum: the test against
    [minpair->value], and against [last->value] in the [while] loop. *)
Definition beats (minimum : bool) (val v : float) : bool :=
  if minimum then (val <=? v)%float else (v <=? val)%float.

(** [while (p(last)) last--]: the ring without its longest run of entries at
    the [last] end that satisfy [p]. *)
Fixpoint drop_last_while (p : candidate -> bool) (ring : list candidate) : list candidate :=
  match ring with
  | [] => []
  | e :: rest =>
      match drop_last_while p rest with
      | [] => if p e then [] else [e]
      | r => e :: r
      end
  end.

(** One turn of the loop, for the sample [val] at index [ll] of the buffer.
    An entry that dies at [ll] is never the only one ([Lines.ring_inv_step]),
    so the ring is not empty when [minpair] is read. *)
Definition ring_step (minimum : bool) (filter_size : nat) (ring : list candidate)
  (ll : nat) (val : float) : list candidate :=
  let new := {| value := val; death := ll + filter_size |} in
  let ring := match ring with
              | minpair :: rest => if Nat.eqb (death minpair) ll then rest else ring
              | [] => []
              end in
  match ring with
  | minpair :: _ =>
      if beats minimum val (value minpair) then [new]
      else drop_last_while (fun e => beats minimum val (value e)) ring ++ [new]
  | [] => [new]
  end.

(** [for (ll = ...; ll < filter_size + length - 1; ll++)]: an output sample
    is written from [ll = filter_size - 1] on. *)
Fixpoint ring_loop (minimum : bool) (filter_size : nat) (ring : list candidate)
  (ll : nat) (iline : list float) : list float :=
  match iline with
  | [] => []
  | val :: rest =>
      let ring' := ring_step minimum filter_size ring ll val in
      let tail := ring_loop minimum filter_size ring' (S ll) rest in
      if Nat.leb (filter_size - 1) ll
      then match ring' with
           | minpair :: _ => value minpair :: tail
           | [] => tail
           end
      else tail
  end.

Definition min_or_max_filter1d (minimum : bool) (filter_size : nat) (origin : Z)
  (line : list float) : list float :=
  match extend_line filter_size origin line with
  | [] => []
  | v0 :: rest =>
      ring_loop minimum filter_size [{| value := v0; death := filter_size |}] 1 rest
  end.

Definition grey_erosion (a : ndarray) (size : nat * nat) : ndarray :=
  separable (fun s => min_or_max_filter1d true s 0) size a.

(** [grey_dilation] mirrors the window: for an even size the origin is moved
    by one. *)
Definition dilation_origin (size : nat) : Z :=
  if Nat.even size then (-1)%Z else 0%Z.

Definition grey_dilation (a : ndarray) (size : nat * nat) : ndarray :=
  separable (fun s => min_or_max_filter1d false s (dilation_origin s)) size a.

Definition grey_opening (a : ndarray) (size : nat * nat) : ndarray :=
  let tmp := grey_erosion a size in
  grey_dilation tmp size.

(** ** The speckle filter (cell [lee_filter])

    [lee_variance] and [lee_weights] are the local arrays [img_variance] and
    [img_weights] of the function, named so that statements can speak of
    them.  Every operand has the shape of [img], so each operator is a plain
    elementwise [ufunc2]. *)

Definition np_square (a : ndarray) : ndarray := ufunc1 (fun x => (x * x)%float) a.

Definition lee_variance (img : ndarray) (size : nat) : ndarray :=
  let img_mean := uniform_filter img (size, size) in
  let img_sqr_mean := uniform_filter (np_square img) (size, size) in
  ufunc2 PrimFloat.sub img_sqr_mean (np_square img_mean).

Definition lee_weights (img : ndarray) (size : nat) : ndarray :=
  let img_variance := lee_variance img size in
  let overall_variance := variance img in
  ufunc1 (fun v => (v / (v + overall_variance))%float) img_variance.

Definition lee_filter (img : ndarray) (size : nat) : ndarray :=
  let img_mean := uniform_filter img (size, size) in
  let img_weights := lee_weights img size in
  let img_output :=
    ufunc2 PrimFloat.add img_mean
      (ufunc2 PrimFloat.mul img_weights (ufunc2 PrimFloat.sub img img_mean)) in
  img_output.

(** ** Reading a clipped band

    What the raster source returns for a feature: the band clipped to the
    bounding box and the dataset's nodata value, if it declares one. *)

Record feature : Type := {
  band : ndarray;
  nodata : option float
}.

(** [img[img == meta['nodata']] = 0] *)
Definition mask_nodata (nd : option float) (img : ndarray) : ndarray :=
  match nd with
  | Some v => ufunc1 (fun x => if (x =? v)%float then 0%float else x) img
  | None => img
  end.

(** [dIx[mask] = v] with the mask computed from the current contents. *)
Definition masked_assign (mask : float -> bool) (v : float) (a : ndarray) : ndarray :=
  ufunc1 (fun x => if mask x then v else x) a.

Section Notebook.

(** The project variables of the notebook (cell 4 sets 2, 3 and 3). *)
Variable THRSET : float.
Variable MORPHWINSIZE : nat.
Variable FILTSIZE : nat.

(** [np.log], the platform's natural logarithm. *)
Variable np_log : float -> float.

Definition clipped_read (fid : feature) : ndarray :=
  let img := mask_nodata (nodata fid) (band fid) in
  let lee_filt_img := lee_filter img FILTSIZE in
  lee_filt_img.

(** [dIx = np.log(img2/img1)] *)
Definition log_ratio (img1 img2 : ndarray) : outcome ndarray :=
  q <- broadcast2 PrimFloat.div img2 img1 ;;
  Returns (ufunc1 np_log q).

(** [thr = np.nanmean(dIx) + THRSET*np.nanstd(dIx)] *)
Definition threshold (dIx : ndarray) : float :=
  (nanmean dIx + THRSET * nanstd dIx)%float.

(** [dIx[dIx < thr] = 0.0] then [dIx[dIx > thr] = 1.0]: two assignments in
    place, the second reading what the first wrote. *)
Definition binarize (dIx : ndarray) : ndarray :=
  let thr := threshold dIx in
  let dIx := masked_assign (fun x => (x <? thr)%float) 0%float dIx in
  let dIx := masked_assign (fun x => (thr <? x)%float) 1%float dIx in
  dIx.

Definition clean (dIx : ndarray) : ndarray :=
  let w := (MORPHWINSIZE, MORPHWINSIZE) in
  grey_opening dIx w.

(** From the log ratio to the opened map: one pair's change map. *)
Definition change_map (img1 img2 : ndarray) : outcome ndarray :=
  dIx <- log_ratio img1 img2 ;;
  Returns (clean (binarize dIx)).

(** [if i == 0: cd = dIx else: cd += dIx]; [cd] is [None] while the name is
    unbound. *)
Definition accumulate (i : nat) (cd : option ndarray) (dIx : ndarray)
  : outcome (option ndarray) :=
  if Nat.eqb i 0 then Returns (Some dIx)
  else match cd with
       | None => Raises NameError
       | Some c => c' <- np_iadd c dIx ;; Returns (Some c')
       end.

(** The body of the pair loop for index [i]. *)
Definition pair_step (i : nat) (cd : option ndarray) (ft1 ft2 : feature)
  : outcome (option ndarray) :=
  let img1 := clipped_read ft1 in
  let img2 := clipped_read ft2 in
  dIx <- change_map img1 img2 ;;
  accumulate i cd dIx.

(** One iteration of [for i in range(0, len(features) - 1)]: it reads
    [features[i]] and [features[i+1]]. *)
Definition loop_body (features : list feature) (cd : option ndarray) (i : nat)
  : outcome (option ndarray) :=
  match nth_error features i, nth_error features (i + 1) with
  | Some ft1, Some ft2 => pair_step i cd ft1 ft2
  | _, _ => Raises IndexError
  end.

(** The heat map cell run in a fresh kernel, seen from its end: the value of
    [cd] when the loop ends normally ([None] when it is still unbound), or
    the exception that ended it.  [run_cell] below also keeps what [cd]
    holds when an exception ends the cell. *)
Definition heatmap (features : list feature) : outcome (option ndarray) :=
  fold_left (fun acc i => cd <- acc ;; loop_body features cd i)
            (seq 0 (length features - 1)) (Returns None).

(** The kernel when the cell has ended: what [cd] holds ([None] while the
    name is unbound) and the exception that ended the cell, if one did.  The
    assignment to [cd] is the last statement of the loop body, so an
    iteration that raises leaves [cd] as it found it. *)
Record kernel : Type := { cd_bound : option ndarray; raised : option exn }.

(** The run seen from its end, as [heatmap] gives it. *)
Definition outcome_of (k : kernel) : outcome (option ndarray) :=
  match raised k with
  | None => Returns (cd_bound k)
  | Some e => Raises e
  end.

Definition run_body (features : list feature) (k : kernel) (i : nat) : kernel :=
  match raised k with
  | Some _ => k
  | None =>
      match loop_body features (cd_bound k) i with
      | Returns cd' => {| cd_bound := cd'; raised := None |}
      | Raises e => {| cd_bound := cd_bound k; raised := Some e |}
      end
  end.

(** The cell run in a kernel where [cd] holds [cd0]: [None] in a fresh
    kernel, the heat map of the earlier run in a kernel that ran the cell
    before. *)
Definition run_cell (cd0 : option ndarray) (features : list feature) : kernel :=
  fold_left (run_body features) (seq 0 (length features - 1))
            {| cd_bound := cd0; raised := None |}.

(** The same loop by recursion on [features[i:]]; [Loop.heatmap_pair_loop]
    shows that it is the loop of the cell. *)
Fixpoint pair_loop (i : nat) (fts : list feature) (cd : option ndarray)
  : outcome (option ndarray) :=
  match fts with
  | ft1 :: ((ft2 :: _) as rest) =>
      cd' <- pair_step i cd ft1 ft2 ;; pair_loop (S i) rest cd'
  | _ => Returns cd
  end.

End Notebook.

(** Evaluating the name [cd], as the display cell does in [imshow(cd)]. *)
Definition read_cd (cd : option ndarray) : outcome ndarray :=
  match cd with
  | Some c => Returns c
  | None => Raises NameError
  end.

(** The values cell 4 assigns. *)
Definition notebook_THRSET : float := 2%float.
Definition notebook_MORPHWINSIZE : nat := 3.
Definition notebook_FILTSIZE : nat := 3.

(** ** A reference logarithm

    numpy hands [np.log] to the platform's libm, so the statements below hold
    for every [np_log] with the IEEE special values they name.  [ln_ref] is a
    plain series implementation with those special values; it can differ
    from the platform's logarithm in the last place (at 3 and at 10, for
    instance) and is used only to run the cells on concrete rasters. *)

Definition ln2 : float := 0x1.62e42fefa39efp-1%float.

Fixpoint atanh_poly (n : nat) (k z2 : float) : float :=
  match n with
  | O => (1 / k)%float
  | S n' => (1 / k + z2 * atanh_poly n' (k + 2) z2)%float
  end.

Definition float_of_Z (z : Z) : float :=
  match z with
  | Z0 => 0%float
  | Zpos _ => of_uint63 (Uint63.of_Z z)
  | Zneg p => (- of_uint63 (Uint63.of_Z (Zpos p)))%float
  end.

Definition ln_ref (x : float) : float :=
  if np_isnan x then nan
  else if (x <? 0)%float then nan
  else if (x =? 0)%float then neg_infinity
  else if (x =? infinity)%float then infinity
  else
    let (m, e) := Z.frexp x in
    let (m, e) := if (m <? 0x1.6a09e667f3bcdp-1)%float
                  then ((m * 2)%float, (e - 1)%Z) else (m, e) in
    let z := ((m - 1) / (m + 1))%float in
    (float_of_Z e * ln2 + 2 * z * atanh_poly 24 1 (z * z))%float.

(** ** Arrays used in statements *)

(** [np.full((h, w), v)] *)
Definition full (h w : nat) (v : float) : ndarray := repeat (repeat v w) h.

Definition zeros (h w : nat) : ndarray := full h w 0%float.

Definition all_pixels (p : float -> bool) (a : ndarray) : bool :=
  forallb (forallb p) a.

(** A finite sample strictly above zero. *)
Definition positive_sample (x : float) : bool :=
  np_isfinite x && (0 <? x)%float.

(** A sample whose square does not overflow. *)
Definition square_finite (x : float) : bool :=
  np_isfinite x && np_isfinite (x * x)%float.

(** The consecutive, overlapping pairs of a sequence. *)
Fixpoint pairs {A : Type} (l : list A) : list (A * A) :=
  match l with
  | x :: ((y :: _) as t) => (x, y) :: pairs t
  | _ => []
  end.

(** The binarization in the specification's words, for comparison with
    [binarize]: one pass over an untouched snapshot of the log ratio,
    [output[p] = 1.0 if d[p] > threshold else 0.0], NaN pixels becoming 0.0. *)
Definition binarize_snapshot (THRSET : float) (dIx : ndarray) : ndarray :=
  let thr := threshold THRSET dIx in
  ufunc1 (fun x => if (thr <? x)%float then 1%float else 0%float) dIx.

(** Filter, change detection and cleaning run on one pair alone. *)
Definition pair_map (THRSET : float) (MORPHWINSIZE FILTSIZE : nat)
  (np_log : float -> float) (p : feature * feature) : outcome ndarray :=
  change_map THRSET MORPHWINSIZE np_log
    (clipped_read FILTSIZE (fst p)) (clipped_read FILTSIZE (snd p)).

(** The elementwise sum of a list of maps, added from the left; [None] for
    the empty list. *)
Definition sum_maps {A : Type} (add : A -> A -> A) (ms : list (list (list A)))
  : option (list (list A)) :=
  match ms with
  | [] => None
  | m :: t => Some (fold_left (ufunc2 add) t m)
  end.

(** A reduction order over a non-empty collection of operands: the
    operands at the leaves, read from left to right, and one addition at
    every inner node.  [left_comb] is the order of the loop, which adds each
    new map to the sum of the maps before it. *)
Inductive reduction (A : Type) : Type :=
| Leaf (m : A)
| Node (l r : reduction A).

Arguments Leaf {A} m.
Arguments Node {A} l r.

Fixpoint reduce {A : Type} (add : A -> A -> A) (t : reduction A) : A :=
  match t with
  | Leaf m => m
  | Node l r => add (reduce add l) (reduce add r)
  end.

Fixpoint leaves {A : Type} (t : reduction A) : list A :=
  match t with
  | Leaf m => [m]
  | Node l r => leaves l ++ leaves r
  end.

Fixpoint left_comb {A : Type} (acc : reduction A) (l : list A) : reduction A :=
  match l with
  | [] => acc
  | m :: l' => left_comb (Node acc (Leaf m)) l'
  end.

(** The value of a binary64 number in units of 2^-1074, the smallest
    positive double: an integer, since no exponent is below -1074.  NaN and
    the infinities, which have no value, are given 0. *)
Definition SFscaled (x : spec_float) : Z :=
  match x with
  | S754_finite s m e => cond_Zopp s (Z.pos m * 2 ^ (e + 1074))%Z
  | _ => 0%Z
  end.

Definition scaled (x : float) : Z := SFscaled (Prim2SF x).

(** The exact sum of the samples, and the sum of their magnitudes, in the
    same units. *)
Definition sum_scaled (l : list float) : Z := fold_right Z.add 0%Z (map scaled l).

Definition sum_magnitudes (l : list float) : Z :=
  fold_right Z.add 0%Z (map (fun x => Z.abs (scaled x)) l).

(** The bound on the rounding error of [k] float additions: [err] is at
    most [((1 + 2^-50)^k - 1) * mag], written without fractions. *)
Definition within (k : nat) (err mag : Z) : Prop :=
  ((2 ^ 50) ^ Z.of_nat k * err
   <= ((2 ^ 50 + 1) ^ Z.of_nat k - (2 ^ 50) ^ Z.of_nat k) * mag)%Z.

(** How many of the samples are 1.0. *)
Definition count_ones (l : list float) : nat :=
  length (filter (fun x => (x =? 1)%float) l).

(** The counts 0.0, 1.0, ..., [n] as floats, and the check that they add
    as the integers do: for every [x] at index [a] of the suffix [s] of [l]
    and every [y] at index [b] of [l], [x + y] equals the sample [b] places
    after [x]. *)
Definition counts_upto (n : nat) : list float := map of_count (seq 0 (S n)).

Fixpoint all2 {A B : Type} (p : A -> B -> bool) (l : list A) (l' : list B) : bool :=
  match l, l' with
  | x :: t, y :: t' => p x y && all2 p t t'
  | _, _ => true
  end.

Fixpoint sums_in (l s : list float) : bool :=
  match s with
  | [] => true
  | x :: rest => all2 (fun y z => (x + y =? z)%float) l s && sums_in l rest
  end.

(** The longest series the exact statement about 0.0/1.0 maps covers. *)
Definition most_maps : nat := 4096.

(** Along one axis two extents broadcast when they are equal or one is 1. *)
Definition compatible (m n : nat) : Prop := m = n \/ m = 1 \/ n = 1.

(** The extent of the broadcast result along an axis of compatible extents. *)
Definition broadcast_extent (m n : nat) : nat := if Nat.eqb m 1 then n else m.

(** An array whose samples within [h] by [w] are all numbers. *)
Definition nonnan (h w : nat) (a : ndarray) : Prop :=
  forall i j, i < h -> j < w -> np_isnan (getitem a i j) = false.

(** Classes of binary64 values, read off the specification form. *)
Inductive zero_float (x : float) : Prop :=
| ZeroFloat (s : bool) (E : Prim2SF x = S754_zero s).

Inductive number_float (x : float) : Prop :=
| NumberZero (s : bool) (E : Prim2SF x = S754_zero s)
| NumberFinite (s : bool) (m : positive) (e : Z) (E : Prim2SF x = S754_finite s m e).

Inductive positive_float (x : float) : Prop :=
| PositiveFinite (m : positive) (e : Z) (E : Prim2SF x = S754_finite false m e)
| PositiveInfinity (E : Prim2SF x = S754_infinity false).

Inductive nan_or_inf : spec_float -> Prop :=
| NoiNan : nan_or_inf S754_nan
| NoiInf (s : bool) : nan_or_inf (S754_infinity s).

(** NaN or the infinity of sign [s]: what a sum holding that infinity can
    be. *)
Inductive nan_or_signed_inf (s : bool) : spec_float -> Prop :=
| NsiNan : nan_or_signed_inf s S754_nan
| NsiInf : nan_or_signed_inf s (S754_infinity s).

(** What the ring of a sliding window holds after the sample at index [ll]
    of the buffer [ext]: every candidate is a sample still inside the window
    of [filter_size] samples that ends at [ll], the deaths grow from
    [minpair] to [last], and [last] is the sample at [ll]. *)
Definition ring_valid (ext : list float) (filter_size ll : nat) (e : candidate) : Prop :=
  exists s, death e = s + filter_size /\ s <= ll /\ ll < s + filter_size /\
            value e = nth s ext 0%float.

Definition ring_inv (ext : list float) (filter_size ll : nat) (ring : list candidate)
  : Prop :=
  Forall (ring_valid ext filter_size ll) ring /\
  StronglySorted (fun e e' => death e < death e') ring /\
  exists front e, ring = front ++ [e] /\ death e = ll + filter_size.

(** For the minimum over a buffer free of NaN: the values grow from
    [minpair] to [last], and every sample of the window is at least some
    candidate that outlives it. *)
Definition ring_min_inv (ext : list float) (filter_size ll : nat)
  (ring : list candidate) : Prop :=
  StronglySorted (fun e e' => (value e <=? value e')%float = true) ring /\
  forall s, s <= ll -> ll < s + filter_size ->
    exists e, In e ring /\ s + filter_size <= death e /\
              (value e <=? nth s ext 0%float)%float = true.

(** ** Concrete inputs *)

Definition raster (b : ndarray) : feature := {| band := b; nodata := None |}.

(** The two flat rasters of the concrete scenario. *)
Definition before_flat : ndarray := [[1; 1]; [1; 1]]%float.
Definition after_flat : ndarray := [[2; 2]; [2; 2]]%float.

Definition nans22 : ndarray := [[nan; nan]; [nan; nan]].

(** A log ratio whose mean + 2 sigma is negative: the scene got darker. *)
Definition darker : ndarray := [[-1; -1]; [-1; -1.5]]%float.

(** A pair of rasters whose second acquisition is darker throughout. *)
Definition dim_before : ndarray := [[4; 4]; [4; 8]]%float.
Definition dim_after : ndarray := [[2; 2]; [2; 3]]%float.

(** A uniform log ratio: every pixel equals the threshold. *)
Definition uniform_half : ndarray := full 2 2 0.5%float.

(** A pair with a zero at the same place in both rasters, as nodata leaves
    it: the ratio there is 0/0. *)
Definition zero_before : ndarray := [[0; 1]; [1; 1]]%float.
Definition zero_after : ndarray := [[0; 1]; [1; 4]]%float.

(** A raster that is not flat. *)
Definition ramp : ndarray := [[1; 2]; [3; 4]]%float.

(** A single row, and a raster of three rows. *)
Definition one_row : ndarray := [[1; 2]]%float.
Definition three_rows : ndarray := [[1; 2]; [3; 4]; [5; 6]]%float.

(** A sequence of three rasters of one shape. *)
Definition ramp_reversed : ndarray := [[4; 3]; [2; 1]]%float.
Definition three_rasters : list feature := [raster ramp; raster ramp_reversed; raster ramp].

(** Three maps of one pixel holding the doubles nearest to 0.1, 0.2 and
    0.3, whose sum depends on the order of the additions, and a reduction
    that adds the last two first. *)
Definition fraction_maps : list ndarray :=
  [[[0x1.999999999999ap-4]]; [[0x1.999999999999ap-3]]; [[0x1.3333333333333p-2]]]%float.
Definition fraction_right_first : reduction ndarray :=
  Node (Leaf [[0x1.999999999999ap-4]]%float)
       (Node (Leaf [[0x1.999999999999ap-3]]%float) (Leaf [[0x1.3333333333333p-2]]%float)).

(** Three binary maps, and a reduction that takes them in another order. *)
Definition binary_maps : list ndarray :=
  [[[1; 0]; [0; 1]]; [[0; 0]; [1; 1]]; [[1; 1]; [0; 1]]]%float.
Definition binary_last_first : reduction ndarray :=
  Node (Leaf [[1; 1]; [0; 1]]%float)
       (Node (Leaf [[1; 0]; [0; 1]]%float) (Leaf [[0; 0]; [1; 1]]%float)).

(** A binary map with one isolated detection and a 2 x 2 block. *)
Definition speckled : ndarray :=
  [[1; 0; 0; 0]; [0; 0; 1; 1]; [0; 0; 1; 1]; [0; 0; 1; 1]]%float.

(** A raster with one NaN sample, and a dataset that marks nodata with NaN. *)
Definition one_nan : ndarray := [[1; nan]; [3; 4]]%float.
Definition nan_marked : feature := {| band := one_nan; nodata := Some nan |}.

(** A clipped band that holds nothing but the nodata value. *)
Definition all_nodata : feature :=
  {| band := full 2 2 (-9999)%float; nodata := Some (-9999)%float |}.

(** A log ratio with an infinite sample: a zero in the later raster only. *)
Definition with_infinity : ndarray := [[0; 0.5]; [neg_infinity; 3]]%float.

(** A sequence whose middle raster is a single row, and one whose last
    raster has another height. *)
Definition mixed_rasters : list feature :=
  [raster three_rows; raster one_row; raster three_rows].
Definition mismatched_rasters : list feature :=
  [raster ramp; raster ramp_reversed; raster three_rows].

(** A log ratio with a single strong change. *)
Definition spike : ndarray := [[0; 0; 0]; [0; 9; 0]; [0; 0; 0]]%float.

(** The double nearest to 0.1, and two constant rasters of it. *)
Definition tenth : float := 0x1.999999999999ap-4%float.
Definition tenth_row : ndarray := [[tenth; tenth; tenth]].
Definition tenth_square : ndarray := full 3 3 tenth.

(** A thresholded map with NaN pixels, as a pair with zeros at the same
    places in both rasters leaves them. *)
Definition nan_holed : ndarray :=
  [[0; 1; nan; nan]; [1; nan; 1; 1]; [1; 1; 1; 0]; [1; 1; 1; 0]]%float.
(** * IEEE-754 facts about the primitive operations *)

Module IEEE.

Ltac by_spec :=
  apply Prim2SF_inj;
  repeat first [ rewrite add_spec | rewrite sub_spec | rewrite mul_spec
               | rewrite div_spec | rewrite sqrt_spec ].

Ltac cmp_cases :=
  repeat match goal with
    | |- context [Z.compare ?a ?b] => destruct (Z.compare_spec a b)
    | H : context [Z.compare ?a ?b] |- _ => destruct (Z.compare_spec a b)
    | |- context [Pos.compare_cont Eq ?a ?b] =>
        change (Pos.compare_cont Eq a b) with (Pos.compare a b);
        destruct (Pos.compare_spec a b)
    | H : context [Pos.compare_cont Eq ?a ?b] |- _ =>
        change (Pos.compare_cont Eq a b) with (Pos.compare a b) in H;
        destruct (Pos.compare_spec a b)
    end;
  subst; simpl in *; try reflexivity; try discriminate; try lia.

(** *** NaN *)

Lemma Prim2SF_nan : Prim2SF nan = S754_nan.
Proof. reflexivity. Qed.

Lemma Prim2SF_zero : Prim2SF 0%float = S754_zero false.
Proof. reflexivity. Qed.

Lemma eq_nan (x : float) : Prim2SF x = S754_nan -> x = nan.
Proof. intros E. apply Prim2SF_inj. now rewrite E. Qed.

Lemma SFeqb_refl (a : spec_float) : a <> S754_nan -> SFeqb a a = true.
Proof.
  unfold SFeqb.
  destruct a as [[]|[]| |[] m e]; simpl; try reflexivity; try congruence;
    intros _; cmp_cases.
Qed.

Lemma isnan_true (x : float) : np_isnan x = true -> x = nan.
Proof.
  unfold np_isnan. rewrite eqb_spec. intros H. apply eq_nan.
  destruct (Prim2SF x) as [s|s| |s m e] eqn:E; trivial;
    rewrite SFeqb_refl in H by discriminate; discriminate.
Qed.

Lemma isnan_false (x : float) : np_isnan x = false -> Prim2SF x <> S754_nan.
Proof.
  unfold np_isnan. rewrite eqb_spec. intros H E. rewrite E in H. discriminate.
Qed.

Lemma ltb_nan_l (x : float) : (nan <? x)%float = false.
Proof. rewrite ltb_spec, Prim2SF_nan. reflexivity. Qed.

Lemma ltb_nan_r (x : float) : (x <? nan)%float = false.
Proof. rewrite ltb_spec, Prim2SF_nan. unfold SFltb. now destruct (Prim2SF x). Qed.

(** *** Zeros and finite numbers *)

Lemma eqb_zero_inv (x : float) : (x =? 0)%float = true -> zero_float x.
Proof.
  rewrite eqb_spec, Prim2SF_zero. unfold SFeqb.
  destruct (Prim2SF x) as [s|s| |s m e] eqn:E; simpl; try discriminate.
  - intros _. now exists s.
  - destruct s; discriminate.
  - destruct s; discriminate.
Qed.

Lemma eqb_zero_false (x : float) :
  (x =? 0)%float = false -> forall s, Prim2SF x <> S754_zero s.
Proof.
  rewrite eqb_spec, Prim2SF_zero. intros H s E. rewrite E in H. discriminate.
Qed.

Lemma isfinite_inv (x : float) : np_isfinite x = true -> number_float x.
Proof.
  unfold np_isfinite.
  destruct (Prim2SF x) as [s|s| |s m e] eqn:E; try discriminate; intros _.
  - now apply (NumberZero _ s).
  - now apply (NumberFinite _ s m e).
Qed.

Lemma positive_sample_inv (x : float) :
  positive_sample x = true -> exists m e, Prim2SF x = S754_finite false m e.
Proof.
  unfold positive_sample, np_isfinite. rewrite ltb_spec, Prim2SF_zero.
  destruct (Prim2SF x) as [s|s| |s m e] eqn:E; simpl; try discriminate.
  destruct s; simpl; try discriminate. intros _. now exists m, e.
Qed.

Lemma sub_self (x : float) : number_float x -> (x - x)%float = 0%float.
Proof.
  intros [s E|s m e E]; by_spec; rewrite E.
  - now destruct s.
  - unfold SF64sub, SFsub. now rewrite Z.sub_diag.
Qed.

Lemma div_eucl_exact (a b : Z) : (0 < b)%Z -> Z.div_eucl (a * b) b = (a, 0%Z).
Proof.
  intros Hb.
  pose proof (Z.div_mul a b ltac:(lia)) as Hq.
  pose proof (Z.mod_mul a b ltac:(lia)) as Hr.
  unfold Z.div, Z.modulo in Hq, Hr.
  destruct (Z.div_eucl (a * b) b) as [q r]. now subst.
Qed.

(** A finite non-zero number divided by itself is exactly 1. *)
Lemma div_self (x : float) (s : bool) (m : positive) (e : Z) :
  Prim2SF x = S754_finite s m e -> (x / x)%float = 1%float.
Proof.
  intros E. by_spec. rewrite E.
  unfold SF64div, SFdiv, SFdiv_core_binary.
  rewrite Z.sub_diag.
  replace (Zdigits2 (Z.pos m) + e - (Zdigits2 (Z.pos m) + e))%Z with 0%Z by lia.
  change (Z.min (fexp prec emax 0) 0) with (-53)%Z.
  change (0 - -53)%Z with 53%Z.
  rewrite Z.shiftl_mul_pow2 by lia.
  rewrite (Z.mul_comm (Z.pos m)).
  rewrite div_eucl_exact by lia.
  unfold new_location, new_location_even, new_location_odd.
  rewrite xorb_nilpotent.
  destruct (Z.even (Z.pos m)); reflexivity.
Qed.

Lemma zero_div_positive (c : float) : positive_float c -> (0 / c)%float = 0%float.
Proof.
  intros [m e E|E]; apply Prim2SF_inj; rewrite div_spec, E; reflexivity.
Qed.

Lemma div_zero_zero (x y : float) : zero_float x -> zero_float y -> (x / y)%float = nan.
Proof. intros [s E] [t F]. by_spec. now rewrite E, F. Qed.

(** *** Arithmetic on special values *)

Lemma add_nan_l (x : float) : (nan + x)%float = nan.
Proof. by_spec. reflexivity. Qed.

Lemma add_nan_r (x : float) : (x + nan)%float = nan.
Proof. by_spec. rewrite Prim2SF_nan. now destruct (Prim2SF x). Qed.

Lemma mul_nan_l (x : float) : (nan * x)%float = nan.
Proof. by_spec. reflexivity. Qed.

(** A quotient by a zero is NaN or infinite, whatever the dividend. *)
Lemma SFdiv_by_zero (a : spec_float) (s : bool) :
  nan_or_inf (SF64div a (S754_zero s)).
Proof. destruct a as [t|t| |t m e]; simpl; constructor. Qed.

Lemma SFmul_nan_or_inf (a b : spec_float) : nan_or_inf a -> nan_or_inf (SF64mul a b).
Proof.
  intros [|s]; [constructor|]. destruct b as [t|t| |t m e]; simpl; constructor.
Qed.

Lemma SFadd_nan_or_inf (a b : spec_float) : nan_or_inf b -> nan_or_inf (SF64add a b).
Proof.
  intros [|s].
  - destruct a; simpl; constructor.
  - destruct a as [t|t| |t m e]; simpl; try constructor.
    destruct t, s; constructor.
Qed.

Lemma nan_or_inf_not_finite (x : float) : nan_or_inf (Prim2SF x) -> np_isfinite x = false.
Proof. unfold np_isfinite. now intros []. Qed.

(** The last line of [lee_filter] at one pixel, when the denominator of the
    weight is a zero. *)
Lemma lee_pixel_zero_denominator (m v ov x : float) :
  (v + ov =? 0)%float = true ->
  np_isfinite (m + v / (v + ov) * (x - m))%float = false.
Proof.
  intros H. apply eqb_zero_inv in H. destruct H as [s E].
  apply nan_or_inf_not_finite.
  rewrite add_spec, mul_spec, div_spec, E.
  apply SFadd_nan_or_inf, SFmul_nan_or_inf, SFdiv_by_zero.
Qed.

Lemma lee_pixel_zero_over_zero (m v ov x : float) :
  (v + ov =? 0)%float = true -> (v =? 0)%float = true ->
  (v / (v + ov))%float = nan /\ (m + v / (v + ov) * (x - m))%float = nan.
Proof.
  intros H Hv. apply eqb_zero_inv in H. apply eqb_zero_inv in Hv.
  assert (Hw : (v / (v + ov))%float = nan) by now apply div_zero_zero.
  split; [assumption|]. now rewrite Hw, mul_nan_l, add_nan_r.
Qed.

(** The same line for a window of one sample: the local mean is the sample
    and the local variance is [x*x - x*x]. *)
Lemma lee_pixel_identity (x ov : float) :
  np_isfinite x = true -> np_isfinite (x * x)%float = true ->
  np_isnan ov = false -> (ov =? 0)%float = false ->
  (x + (x * x - x * x) / ((x * x - x * x) + ov) * (x - x) =? x)%float = true.
Proof.
  intros Hx Hxx Hnan Hov.
  rewrite (sub_self (x * x)%float) by now apply isfinite_inv.
  rewrite (sub_self x) by now apply isfinite_inv.
  apply isnan_false in Hnan. pose proof (eqb_zero_false ov Hov) as Hnz.
  rewrite eqb_spec, add_spec, mul_spec, div_spec, add_spec, Prim2SF_zero.
  destruct (isfinite_inv x Hx) as [s E|s m e E]; rewrite E;
    destruct (Prim2SF ov) as [t|t| |t m' e']; try congruence;
    try (exfalso; now apply (Hnz t));
    try (destruct s, t; reflexivity).
  - destruct t; simpl; apply SFeqb_refl; discriminate.
  - destruct t; simpl; apply SFeqb_refl; discriminate.
Qed.

(** A finite multiplier times zero, added to zero, is zero. *)
Lemma zero_plus_finite_times_zero (t : float) :
  np_isfinite t = true -> (0 + t * 0)%float = 0%float.
Proof.
  intros Ht. by_spec. rewrite Prim2SF_zero.
  destruct (isfinite_inv t Ht) as [s E|s m e E]; rewrite E; now destruct s.
Qed.

(** *** Integer counts as floats *)

Lemma digits2_pos_bounds (p : positive) :
  (2 ^ (Z.pos (digits2_pos p) - 1) <= Z.pos p < 2 ^ Z.pos (digits2_pos p))%Z.
Proof.
  induction p as [p IH|p IH|]; simpl digits2_pos.
  - rewrite Pos2Z.inj_succ.
    replace (Z.succ (Z.pos (digits2_pos p)) - 1)%Z
      with (Z.succ (Z.pos (digits2_pos p) - 1))%Z by lia.
    rewrite !Z.pow_succ_r by lia. lia.
  - rewrite Pos2Z.inj_succ.
    replace (Z.succ (Z.pos (digits2_pos p)) - 1)%Z
      with (Z.succ (Z.pos (digits2_pos p) - 1))%Z by lia.
    rewrite !Z.pow_succ_r by lia. lia.
  - simpl. lia.
Qed.

Lemma shr_1_m (mrs : shr_record) :
  (0 <= shr_m mrs)%Z -> shr_m (shr_1 mrs) = (shr_m mrs / 2)%Z.
Proof.
  destruct mrs as [m r s]. simpl. intros Hm.
  destruct m as [|[p|p|]|p]; simpl shr_m; try lia.
  - reflexivity.
  - apply Z.div_unique with 1%Z; lia.
  - apply Z.div_unique with 0%Z; lia.
  - reflexivity.
Qed.

Lemma shr_1_nonneg (mrs : shr_record) :
  (0 <= shr_m mrs)%Z -> (0 <= shr_m (shr_1 mrs))%Z.
Proof.
  intros H. rewrite shr_1_m by assumption. apply Z.div_pos; lia.
Qed.

Lemma pow2_xI (n : positive) : (2 ^ Z.pos n~1 = 2 * (2 ^ Z.pos n * 2 ^ Z.pos n))%Z.
Proof.
  replace (Z.pos n~1) with (Z.succ (Z.pos n + Z.pos n)) by lia.
  rewrite Z.pow_succ_r by lia. rewrite Z.pow_add_r by lia. reflexivity.
Qed.

Lemma pow2_xO (n : positive) : (2 ^ Z.pos n~0 = 2 ^ Z.pos n * 2 ^ Z.pos n)%Z.
Proof.
  replace (Z.pos n~0) with (Z.pos n + Z.pos n)%Z by lia.
  rewrite Z.pow_add_r by lia. reflexivity.
Qed.

Lemma iter_shr_m (n : positive) : forall mrs : shr_record,
  (0 <= shr_m mrs)%Z ->
  shr_m (iter_pos shr_1 n mrs) = (shr_m mrs / 2 ^ Z.pos n)%Z.
Proof.
  induction n as [n IH|n IH|]; intros mrs Hm; simpl iter_pos.
  - assert (H1 := shr_1_nonneg mrs Hm).
    assert (H2 : (0 <= shr_m (iter_pos shr_1 n (shr_1 mrs)))%Z).
    { rewrite IH by assumption. apply Z.div_pos; lia. }
    rewrite IH, IH, shr_1_m by assumption.
    rewrite !Z.div_div by lia.
    now rewrite pow2_xI, Z.mul_assoc.
  - assert (H2 : (0 <= shr_m (iter_pos shr_1 n mrs))%Z).
    { rewrite IH by assumption. apply Z.div_pos; lia. }
    rewrite IH, IH by assumption.
    rewrite !Z.div_div by lia.
    now rewrite pow2_xO.
  - rewrite shr_1_m by assumption. reflexivity.
Qed.

(** Shifting a positive mantissa to its canonical exponent keeps it
    positive as long as the exponent is not below [emin]. *)
Lemma shr_fexp_pos (m : positive) (e : Z) (l : location) :
  (emin <= e)%Z ->
  (0 < shr_m (fst (shr_fexp prec emax (Z.pos m) e l)))%Z /\
  (emin <= snd (shr_fexp prec emax (Z.pos m) e l))%Z.
Proof.
  intros He. unfold shr_fexp, shr, fexp. simpl Zdigits2.
  assert (Hrec : shr_m (shr_record_of_loc (Z.pos m) l) = Z.pos m)
    by (destruct l as [|[]]; reflexivity).
  destruct (Z.max (Z.pos (digits2_pos m) + e - prec) emin - e)%Z
    as [|n|n] eqn:En; simpl fst; simpl snd; try (rewrite Hrec; lia).
  rewrite iter_shr_m by (rewrite Hrec; lia).
  rewrite Hrec. split; [|lia].
  assert (Hn : (Z.pos n = Z.pos (digits2_pos m) - prec)%Z) by lia.
  destruct (digits2_pos_bounds m) as [Hlo _].
  apply Z.div_str_pos. split; [apply Z.pow_pos_nonneg; lia|].
  etransitivity; [|exact Hlo].
  apply Z.pow_le_mono_r; [lia|]. rewrite Hn. unfold prec. lia.
Qed.

Lemma round_nearest_even_pos (m : Z) (l : location) :
  (0 < m)%Z -> (0 < round_nearest_even m l)%Z.
Proof.
  intros Hm. destruct l as [|[]]; simpl; try lia. destruct (Z.even m); lia.
Qed.

Lemma binary_round_aux_pos (m : positive) (e : Z) (l : location) :
  (emin <= e)%Z ->
  match binary_round_aux prec emax false (Z.pos m) e l with
  | S754_finite false _ _ | S754_infinity false => True
  | _ => False
  end.
Proof.
  intros He. unfold binary_round_aux.
  destruct (shr_fexp_pos m e l He) as [H1 H2].
  destruct (shr_fexp prec emax (Z.pos m) e l) as [mrs' e']. simpl in H1, H2.
  pose proof (round_nearest_even_pos _ (loc_of_shr_record mrs') H1) as H3.
  destruct (round_nearest_even (shr_m mrs') (loc_of_shr_record mrs')) as [|m1|m1]; try lia.
  destruct (shr_fexp_pos m1 e' loc_Exact H2) as [H4 _].
  destruct (shr_fexp prec emax (Z.pos m1) e' loc_Exact) as [mrs'' e'']. simpl in H4.
  destruct (shr_m mrs''); try lia.
  now destruct (e'' <=? emax - prec)%Z.
Qed.

(** The float of a positive count is positive: never zero, never NaN. *)
Lemma of_count_positive (n : nat) :
  0 < n -> (Z.of_nat n < 2 ^ 63)%Z -> positive_float (of_count n).
Proof.
  intros Hn Hlt. unfold of_count.
  pose proof (of_uint63_spec (Uint63.of_Z (Z.of_nat n))) as H.
  rewrite Uint63.of_Z_spec in H.
  rewrite Z.mod_small in H by (change Uint63.wB with (2 ^ 63)%Z; lia).
  destruct (Z.of_nat n) as [|p|p] eqn:Ep; try lia.
  unfold binary_normalize, binary_round in H.
  destruct (shl_align p 0 (fexp prec emax (Z.pos (digits2_pos p) + 0))) as [mz ez] eqn:Es.
  assert (Hez : (emin <= ez)%Z).
  { unfold shl_align in Es.
    destruct (fexp prec emax (Z.pos (digits2_pos p) + 0) - 0)%Z eqn:Ed;
      inversion Es; subst; try (unfold emin, emax, prec; lia).
    unfold fexp. lia. }
  pose proof (binary_round_aux_pos mz ez loc_Exact Hez) as Hp.
  rewrite <- H in Hp.
  destruct (Prim2SF (of_uint63 (Uint63.of_Z (Z.pos p)))) as [s|s| |s m e] eqn:E;
    try contradiction.
  - destruct s; [contradiction|]. now apply PositiveInfinity.
  - destruct s; [contradiction|]. now apply (PositiveFinite _ m e).
Qed.

(** *** The order on numbers *)

Lemma SFleb_refl (a : spec_float) : a <> S754_nan -> SFleb a a = true.
Proof.
  unfold SFleb.
  destruct a as [[]|[]| |[] m e]; simpl; try reflexivity; try congruence;
    intros _; cmp_cases.
Qed.

Lemma SFltb_leb (a b : spec_float) : SFltb a b = true -> SFleb a b = true.
Proof.
  unfold SFltb, SFleb. destruct (SFcompare a b) as [[]|]; congruence.
Qed.

Lemma SFltb_false_leb (a b : spec_float) :
  a <> S754_nan -> b <> S754_nan -> SFltb a b = false -> SFleb b a = true.
Proof.
  unfold SFltb, SFleb.
  destruct a as [[]|[]| |[] m e], b as [[]|[]| |[] m' e']; simpl;
    try reflexivity; try congruence; intros _ _; cmp_cases.
Qed.

Lemma SFleb_trans (a b c : spec_float) :
  SFleb a b = true -> SFleb b c = true -> SFleb a c = true.
Proof.
  unfold SFleb.
  destruct a as [[]|[]| |[] m e], b as [[]|[]| |[] m' e'], c as [[]|[]| |[] m'' e''];
    simpl; try reflexivity; try congruence; cmp_cases.
Qed.

Lemma leb_refl (x : float) : np_isnan x = false -> (x <=? x)%float = true.
Proof. intros H. rewrite leb_spec. now apply SFleb_refl, isnan_false. Qed.

Lemma ltb_leb (x y : float) : (x <? y)%float = true -> (x <=? y)%float = true.
Proof. rewrite ltb_spec, leb_spec. apply SFltb_leb. Qed.

Lemma ltb_false_leb (x y : float) :
  np_isnan x = false -> np_isnan y = false ->
  (x <? y)%float = false -> (y <=? x)%float = true.
Proof.
  intros Hx Hy. rewrite ltb_spec, leb_spec.
  apply SFltb_false_leb; now apply isnan_false.
Qed.

Lemma leb_trans (x y z : float) :
  (x <=? y)%float = true -> (y <=? z)%float = true -> (x <=? z)%float = true.
Proof. rewrite !leb_spec. apply SFleb_trans. Qed.

Lemma SFleb_ltb_false (a b : spec_float) : SFleb a b = true -> SFltb b a = false.
Proof.
  unfold SFleb, SFltb.
  destruct a as [[]|[]| |[] m e], b as [[]|[]| |[] m' e']; simpl;
    try reflexivity; try congruence; cmp_cases.
Qed.

Lemma leb_ltb_false (x y : float) : (x <=? y)%float = true -> (y <? x)%float = false.
Proof. rewrite leb_spec, ltb_spec. apply SFleb_ltb_false. Qed.

Lemma ltb_asym (x y : float) : (x <? y)%float = true -> (y <? x)%float = false.
Proof. intros H. now apply leb_ltb_false, ltb_leb. Qed.

(** *** Addition *)

Lemma SFadd_comm (a b : spec_float) : SF64add a b = SF64add b a.
Proof.
  destruct a as [[]|[]| |[] m e], b as [[]|[]| |[] m' e']; try reflexivity;
    unfold SF64add, SFadd; rewrite (Z.min_comm e' e); f_equal; apply Z.add_comm.
Qed.

Lemma add_comm (x y : float) : (x + y)%float = (y + x)%float.
Proof. by_spec. apply SFadd_comm. Qed.

(** Float addition rounds, so it is not associative. *)
Lemma add_not_associative :
  ((0x1p+53 + 1) + 1)%float <> (0x1p+53 + (1 + 1))%float.
Proof. vm_compute. discriminate. Qed.

(** *** NaN and infinities *)

Lemma sub_nan_r (x : float) : (x - nan)%float = nan.
Proof. by_spec. rewrite Prim2SF_nan. now destruct (Prim2SF x). Qed.

Lemma div_nan_l (x : float) : (nan / x)%float = nan.
Proof. by_spec. reflexivity. Qed.

Lemma div_nan_r (x : float) : (x / nan)%float = nan.
Proof. by_spec. rewrite Prim2SF_nan. now destruct (Prim2SF x). Qed.

Lemma mul_nan_r (x : float) : (x * nan)%float = nan.
Proof. by_spec. rewrite Prim2SF_nan. now destruct (Prim2SF x). Qed.

Lemma eqb_nan_r (x : float) : (x =? nan)%float = false.
Proof. rewrite eqb_spec, Prim2SF_nan. unfold SFeqb. now destruct (Prim2SF x). Qed.

Lemma eqb_self (x : float) : np_isnan x = false -> (x =? x)%float = true.
Proof. unfold np_isnan. now destruct (x =? x)%float. Qed.

Lemma eqb_nan_l (x v : float) : np_isnan x = true -> (x =? v)%float = false.
Proof. intros H. apply isnan_true in H. subst. rewrite eqb_spec. reflexivity. Qed.

Lemma SFadd_signed_inf_l (s : bool) (a b : spec_float) :
  nan_or_signed_inf s a -> nan_or_signed_inf s (SF64add a b).
Proof.
  intros []; [constructor|].
  destruct b as [t|t| |t m e]; simpl; try constructor.
  destruct s, t; constructor.
Qed.

Lemma SFadd_signed_inf_r (s : bool) (a b : spec_float) :
  nan_or_signed_inf s b -> nan_or_signed_inf s (SF64add a b).
Proof. rewrite SFadd_comm. apply SFadd_signed_inf_l. Qed.

Lemma div_signed_inf (s : bool) (x c : float) :
  nan_or_signed_inf s (Prim2SF x) -> positive_float c ->
  nan_or_signed_inf s (Prim2SF (x / c)).
Proof.
  intros Hx Hc. rewrite div_spec.
  destruct Hc as [m e E|E]; rewrite E; destruct Hx; simpl; try constructor.
  rewrite xorb_false_r. constructor.
Qed.

Lemma sub_signed_inf (s : bool) (x y : float) :
  Prim2SF x = S754_infinity s -> nan_or_signed_inf s (Prim2SF y) -> (x - y)%float = nan.
Proof.
  intros Hx Hy. by_spec. rewrite Hx. destruct Hy; [reflexivity|].
  simpl. now destruct s.
Qed.

Lemma isnan_infinity (s : bool) (x : float) :
  Prim2SF x = S754_infinity s -> np_isnan x = false.
Proof.
  intros E. unfold np_isnan. rewrite eqb_spec, E. now destruct s.
Qed.

(** Two numbers are ordered one way or the other. *)
Lemma leb_total (x y : float) :
  np_isnan x = false -> np_isnan y = false ->
  (x <=? y)%float = true \/ (y <=? x)%float = true.
Proof.
  intros Hx Hy. destruct (x <? y)%float eqn:E.
  - left. now apply ltb_leb.
  - right. now apply ltb_false_leb.
Qed.

Lemma signed_inf_add_l (s : bool) (x y : float) :
  nan_or_signed_inf s (Prim2SF x) -> nan_or_signed_inf s (Prim2SF (x + y)).
Proof. intros H. rewrite add_spec. now apply SFadd_signed_inf_l. Qed.

Lemma signed_inf_add_r (s : bool) (x y : float) :
  nan_or_signed_inf s (Prim2SF y) -> nan_or_signed_inf s (Prim2SF (x + y)).
Proof. intros H. rewrite add_spec. now apply SFadd_signed_inf_r. Qed.

(** Numpy's [==] against a positive value is equality. *)
Lemma eqb_positive_eq (x y : float) :
  positive_float y -> (x =? y)%float = true -> x = y.
Proof.
  intros Hy H. rewrite eqb_spec in H. apply Prim2SF_inj.
  unfold SFeqb, SFcompare in H.
  destruct Hy as [m e E|E]; rewrite E in *;
    destruct (Prim2SF x) as [s|s| |s m' e']; try discriminate;
    try (destruct s; discriminate); try (destruct s; [discriminate|reflexivity]).
  destruct s; [discriminate|].
  destruct (Z.compare_spec e' e); try discriminate. subst.
  change (Pos.compare_cont Eq m' m) with (Pos.compare m' m) in H.
  destruct (Pos.compare_spec m' m); try discriminate. now subst.
Qed.

End IEEE.

(** * The rounding of float additions *)

Module Rounding.

Import IEEE.

Local Open Scope Z_scope.

Lemma iter_xO_pow (d m : positive) : Z.pos (Pos.iter xO m d) = Z.pos m * 2 ^ Z.pos d.
Proof.
  induction d as [|d IH] using Pos.peano_ind.
  - simpl. lia.
  - rewrite Pos.iter_succ, Pos2Z.inj_xO, IH, Pos2Z.inj_succ, Z.pow_succ_r by lia. lia.
Qed.

(** [shl_align]: an exact shift to the smaller exponent. *)
Lemma shl_align_spec (m : positive) (e e' : Z) :
  snd (shl_align m e e') = Z.min e e' /\
  Z.pos (fst (shl_align m e e')) = Z.pos m * 2 ^ (e - Z.min e e').
Proof.
  unfold shl_align. destruct (e' - e) as [|d|d] eqn:E; simpl fst; simpl snd.
  - split; [lia|]. replace (e - Z.min e e') with 0 by lia. simpl. lia.
  - split; [lia|]. replace (e - Z.min e e') with 0 by lia. simpl. lia.
  - split; [lia|]. rewrite iter_xO_pow. f_equal. f_equal. lia.
Qed.

Lemma digits2_le (p : positive) (k : Z) :
  Z.pos p < 2 ^ k -> Z.pos (digits2_pos p) <= k.
Proof.
  intros H. destruct (digits2_pos_bounds p) as [Hlo _].
  destruct (Z.le_gt_cases (Z.pos (digits2_pos p)) k) as [|Hgt]; [assumption|].
  assert (2 ^ k <= 2 ^ (Z.pos (digits2_pos p) - 1)) by (apply Z.pow_le_mono_r; lia).
  lia.
Qed.

(** [shr_fexp]: a shift to the right by the distance to the canonical
    exponent, when that is positive. *)
Lemma shr_fexp_spec (m : positive) (e : Z) (l : location) :
  let n := Z.max 0 (fexp prec emax (Z.pos (digits2_pos m) + e) - e) in
  snd (shr_fexp prec emax (Z.pos m) e l) = e + n /\
  shr_m (fst (shr_fexp prec emax (Z.pos m) e l)) = Z.pos m / 2 ^ n /\
  (n = 0 -> fst (shr_fexp prec emax (Z.pos m) e l) = shr_record_of_loc (Z.pos m) l).
Proof.
  intros n. subst n. unfold shr_fexp, shr. simpl Zdigits2.
  assert (Hrec : shr_m (shr_record_of_loc (Z.pos m) l) = Z.pos m)
    by (destruct l as [|[]]; reflexivity).
  destruct (fexp prec emax (Z.pos (digits2_pos m) + e) - e) as [|n|n] eqn:En;
    simpl fst; simpl snd.
  - rewrite Hrec. simpl. rewrite Z.div_1_r. repeat split. lia.
  - rewrite iter_shr_m by (rewrite Hrec; lia). rewrite Hrec.
    replace (Z.max 0 (Z.pos n)) with (Z.pos n) by lia. repeat split. lia.
  - rewrite Hrec. replace (Z.max 0 (Z.neg n)) with 0 by lia.
    simpl. rewrite Z.div_1_r. repeat split. lia.
Qed.

Lemma round_nearest_even_range (m : Z) (l : location) :
  m <= round_nearest_even m l <= m + 1.
Proof. destruct l as [|[]]; simpl; try lia. destruct (Z.even m); lia. Qed.

(** Rounding a positive integer [mz * 2^ez] to binary64: when the result is
    a number [m' * 2^e'], it is within [2^-50] of the integer, relatively. *)
Lemma binary_round_aux_error (s : bool) (mz : positive) (ez : Z) :
  emin <= ez ->
  match binary_round_aux prec emax s (Z.pos mz) ez loc_Exact with
  | S754_finite s' m' e' =>
      s' = s /\ ez <= e' /\
      2 ^ 50 * Z.abs (Z.pos m' * 2 ^ (e' - ez) - Z.pos mz) <= Z.pos mz
  | S754_zero _ => False
  | _ => True
  end.
Proof.
  intros He. unfold binary_round_aux.
  destruct (shr_fexp_spec mz ez loc_Exact) as (He1 & Hm1 & Hexact).
  remember (Z.max 0 (fexp prec emax (Z.pos (digits2_pos mz) + ez) - ez)) as n eqn:En.
  destruct (shr_fexp_pos mz ez loc_Exact He) as [Hpos1 Hemin1].
  destruct (shr_fexp prec emax (Z.pos mz) ez loc_Exact) as [mrs e1].
  simpl fst in *. simpl snd in *.
  pose proof (round_nearest_even_range (shr_m mrs) (loc_of_shr_record mrs)) as Hrange.
  assert (Hexact' : n = 0 ->
            round_nearest_even (shr_m mrs) (loc_of_shr_record mrs) = Z.pos mz).
  { intros Hn. rewrite (Hexact Hn). reflexivity. }
  destruct (round_nearest_even (shr_m mrs) (loc_of_shr_record mrs)) as [|m2|m2] eqn:Em2;
    try lia.
  destruct (shr_fexp_spec m2 e1 loc_Exact) as (He3 & Hm3 & _).
  remember (Z.max 0 (fexp prec emax (Z.pos (digits2_pos m2) + e1) - e1)) as n2 eqn:En2.
  destruct (shr_fexp_pos m2 e1 loc_Exact Hemin1) as [Hpos3 _].
  destruct (shr_fexp prec emax (Z.pos m2) e1 loc_Exact) as [mrs3 e3].
  simpl fst in *. simpl snd in *.
  destruct (shr_m mrs3) as [|m3|m3] eqn:Em3; try lia.
  destruct (e3 <=? emax - prec); [|exact I].
  assert (Hn : 0 <= n) by lia.
  assert (Hn2 : 0 <= n2) by lia.
  split; [reflexivity|]. split; [lia|].
  destruct (Z.eq_dec n 0) as [Hz|Hnz].
  - (* no shift: the integer is representable *)
    specialize (Hexact' Hz). inversion Hexact'; subst m2.
    assert (n2 = 0).
    { rewrite En2, He1, Hz, Z.add_0_r, <- En. exact Hz. }
    replace (e3 - ez) with 0 by lia.
    rewrite H in Hm3. simpl in Hm3. rewrite Z.div_1_r in Hm3. rewrite Hm3.
    rewrite Z.pow_0_r, Z.mul_1_r, Z.sub_diag. simpl. lia.
  - (* a shift by [n]: 53 digits are kept *)
    assert (Hd : n = Z.pos (digits2_pos mz) - 53).
    { unfold fexp, emin, emax, prec in *. lia. }
    destruct (digits2_pos_bounds mz) as [Hlo Hhi].
    assert (Hp : 0 < 2 ^ n) by (apply Z.pow_pos_nonneg; lia).
    assert (Hsplit : 2 ^ (Z.pos (digits2_pos mz) - 1) = 2 ^ 52 * 2 ^ n).
    { rewrite <- Z.pow_add_r by lia. f_equal. lia. }
    assert (Hsplit' : 2 ^ Z.pos (digits2_pos mz) = 2 ^ 53 * 2 ^ n).
    { rewrite <- Z.pow_add_r by lia. f_equal. lia. }
    assert (Hm1lo : 2 ^ 52 <= shr_m mrs).
    { rewrite Hm1. apply Z.div_le_lower_bound; lia. }
    assert (Hm1hi : shr_m mrs < 2 ^ 53).
    { rewrite Hm1. apply Z.div_lt_upper_bound; lia. }
    assert (Hdiv1 : shr_m mrs * 2 ^ n <= Z.pos mz < (shr_m mrs + 1) * 2 ^ n).
    { rewrite Hm1. pose proof (Z.mul_div_le (Z.pos mz) (2 ^ n) Hp).
      pose proof (Z.mul_succ_div_gt (Z.pos mz) (2 ^ n) Hp). lia. }
    assert (Hn2le : n2 <= 1).
    { assert (Z.pos (digits2_pos m2) <= 54).
      { apply digits2_le. change (2 ^ 54) with (2 * 2 ^ 53). lia. }
      unfold fexp, emin, emax, prec in *. lia. }
    assert (Hp2 : 0 < 2 ^ n2) by (apply Z.pow_pos_nonneg; lia).
    assert (Hp2le : 2 ^ n2 <= 2).
    { change 2 with (2 ^ 1) at 2. apply Z.pow_le_mono_r; lia. }
    assert (Hdiv3 : Z.pos m3 * 2 ^ n2 <= Z.pos m2 < (Z.pos m3 + 1) * 2 ^ n2).
    { rewrite Hm3. pose proof (Z.mul_div_le (Z.pos m2) (2 ^ n2) Hp2).
      pose proof (Z.mul_succ_div_gt (Z.pos m2) (2 ^ n2) Hp2). lia. }
    replace (e3 - ez) with (n2 + n) by lia.
    rewrite Z.pow_add_r by lia.
    change (2 ^ 50) with 1125899906842624. change (2 ^ 52) with 4503599627370496 in *.
    change (2 ^ 53) with 9007199254740992 in *.
    nia.
Qed.

Lemma fexp_emin (e : Z) : emin <= fexp prec emax e.
Proof. unfold fexp. lia. Qed.

Lemma binary_round_error (s : bool) (m : positive) (e : Z) :
  emin <= e ->
  match binary_round prec emax s m e with
  | S754_finite s' m' e' =>
      s' = s /\ emin <= e' /\
      2 ^ 50 * Z.abs (Z.pos m' * 2 ^ (e' + 1074) - Z.pos m * 2 ^ (e + 1074))
        <= Z.pos m * 2 ^ (e + 1074)
  | S754_zero _ => False
  | _ => True
  end.
Proof.
  intros He. unfold binary_round.
  destruct (shl_align_spec m e (fexp prec emax (Z.pos (digits2_pos m) + e))) as [Hez Hmz].
  pose proof (fexp_emin (Z.pos (digits2_pos m) + e)) as Hf.
  destruct (shl_align m e (fexp prec emax (Z.pos (digits2_pos m) + e))) as [mz ez].
  simpl fst in Hmz. simpl snd in Hez.
  assert (Hemin : emin <= ez) by lia.
  pose proof (binary_round_aux_error s mz ez Hemin) as Haux.
  destruct (binary_round_aux prec emax s (Z.pos mz) ez loc_Exact) as [t|t| |t m' e'];
    try exact Haux.
  destruct Haux as (Hs & Hle & Hb).
  split; [exact Hs|]. split; [lia|].
  assert (Hez0 : 0 <= ez + 1074) by (unfold emin, emax, prec in *; lia).
  assert (HP : 0 < 2 ^ (ez + 1074)) by (apply Z.pow_pos_nonneg; lia).
  replace (2 ^ (e' + 1074)) with (2 ^ (e' - ez) * 2 ^ (ez + 1074))
    by (rewrite <- Z.pow_add_r by lia; f_equal; lia).
  replace (Z.pos m * 2 ^ (e + 1074)) with (Z.pos mz * 2 ^ (ez + 1074)).
  2:{ rewrite Hmz, <- Hez, <- Z.mul_assoc, <- Z.pow_add_r by lia. do 2 f_equal. lia. }
  rewrite Z.mul_assoc, <- Z.mul_sub_distr_r, Z.abs_mul, (Z.abs_eq (2 ^ (ez + 1074))) by lia.
  rewrite Z.mul_assoc. apply Z.mul_le_mono_nonneg_r; [lia|exact Hb].
Qed.

Lemma valid_finite_emin (s : bool) (m : positive) (e : Z) :
  valid_binary (S754_finite s m e) = true -> emin <= e.
Proof.
  unfold valid_binary, bounded, canonical_mantissa. intros H.
  apply andb_prop in H. destruct H as [H _]. apply Z.eqb_eq in H.
  rewrite <- H. apply fexp_emin.
Qed.

(** The sum of two numbers, when it is a number, is within [2^-50] of the
    exact sum, relatively. *)
Lemma SFadd_error (x y : spec_float) :
  valid_binary x = true -> valid_binary y = true ->
  match SF64add x y with
  | S754_nan | S754_infinity _ => True
  | r =>
      2 ^ 50 * Z.abs (SFscaled r - (SFscaled x + SFscaled y))
        <= Z.abs (SFscaled x + SFscaled y)
  end.
Proof.
  intros Vx Vy.
  destruct x as [sx|sx| |sx mx ex], y as [sy|sy| |sy my ey];
    try exact I; try (destruct sx, sy; exact I).
  - destruct sx, sy; simpl; lia.
  - simpl SF64add. cbn [SFscaled]. rewrite Z.add_0_l, Z.sub_diag. simpl Z.abs at 1. lia.
  - simpl SF64add. cbn [SFscaled]. rewrite Z.add_0_r, Z.sub_diag. simpl Z.abs at 1. lia.
  - apply valid_finite_emin in Vx, Vy.
    unfold SF64add, SFadd.
    destruct (shl_align_spec mx ex (Z.min ex ey)) as [_ Hx].
    destruct (shl_align_spec my ey (Z.min ex ey)) as [_ Hy].
    replace (Z.min ex (Z.min ex ey)) with (Z.min ex ey) in Hx by lia.
    replace (Z.min ey (Z.min ex ey)) with (Z.min ex ey) in Hy by lia.
    set (ez := Z.min ex ey) in *.
    assert (Hez : emin <= ez) by (unfold ez; lia).
    assert (Hez0 : 0 <= ez + 1074) by (unfold emin, emax, prec in *; lia).
    assert (HP : 0 < 2 ^ (ez + 1074)) by (apply Z.pow_pos_nonneg; lia).
    assert (Ex : SFscaled (S754_finite sx mx ex) =
                 cond_Zopp sx (Z.pos (fst (shl_align mx ex ez))) * 2 ^ (ez + 1074)).
    { cbn [SFscaled]. rewrite Hx.
      replace (2 ^ (ex + 1074)) with (2 ^ (ex - ez) * 2 ^ (ez + 1074))
        by (rewrite <- Z.pow_add_r by (unfold ez; lia); f_equal; lia).
      destruct sx; cbn [cond_Zopp]; lia. }
    assert (Ey : SFscaled (S754_finite sy my ey) =
                 cond_Zopp sy (Z.pos (fst (shl_align my ey ez))) * 2 ^ (ez + 1074)).
    { cbn [SFscaled]. rewrite Hy.
      replace (2 ^ (ey + 1074)) with (2 ^ (ey - ez) * 2 ^ (ez + 1074))
        by (rewrite <- Z.pow_add_r by (unfold ez; lia); f_equal; lia).
      destruct sy; cbn [cond_Zopp]; lia. }
    rewrite Ex, Ey, <- Z.mul_add_distr_r.
    set (M := cond_Zopp sx (Z.pos (fst (shl_align mx ex ez))) +
              cond_Zopp sy (Z.pos (fst (shl_align my ey ez)))).
    unfold binary_normalize.
    destruct M as [|p|p] eqn:EM.
    + simpl. lia.
    + pose proof (binary_round_error false p ez Hez) as Hr.
      destruct (binary_round prec emax false p ez) as [t|t| |t m' e'];
        try exact I; try contradiction.
      destruct Hr as (-> & He' & Hb). cbn [SFscaled cond_Zopp].
      rewrite (Z.abs_eq (Z.pos p * 2 ^ (ez + 1074))) by lia. exact Hb.
    + pose proof (binary_round_error true p ez Hez) as Hr.
      destruct (binary_round prec emax true p ez) as [t|t| |t m' e'];
        try exact I; try contradiction.
      destruct Hr as (-> & He' & Hb). cbn [SFscaled cond_Zopp].
      replace (- (Z.pos m' * 2 ^ (e' + 1074)) - Z.neg p * 2 ^ (ez + 1074))
        with (- (Z.pos m' * 2 ^ (e' + 1074) - Z.pos p * 2 ^ (ez + 1074))) by lia.
      rewrite Z.abs_opp.
      replace (Z.abs (Z.neg p * 2 ^ (ez + 1074))) with (Z.pos p * 2 ^ (ez + 1074)) by lia.
      exact Hb.
Qed.

Lemma add_error (x y : float) :
  np_isfinite (x + y)%float = true ->
  np_isfinite x = true /\ np_isfinite y = true /\
  2 ^ 50 * Z.abs (scaled (x + y)%float - (scaled x + scaled y))
    <= Z.abs (scaled x + scaled y).
Proof.
  unfold np_isfinite, scaled. rewrite add_spec.
  pose proof (SFadd_error (Prim2SF x) (Prim2SF y) (Prim2SF_valid x) (Prim2SF_valid y)) as H.
  destruct (Prim2SF x) as [sx|sx| |sx mx ex], (Prim2SF y) as [sy|sy| |sy my ey];
    try (intros; discriminate); try (destruct sx, sy; intros; discriminate);
    destruct (SF64add _ _); intros Hf; try discriminate; auto.
Qed.

Lemma sum_scaled_app (l l' : list float) :
  sum_scaled (l ++ l') = sum_scaled l + sum_scaled l'.
Proof. unfold sum_scaled. induction l as [|x l IH]; simpl in *; lia. Qed.

Lemma sum_magnitudes_app (l l' : list float) :
  sum_magnitudes (l ++ l') = sum_magnitudes l + sum_magnitudes l'.
Proof. unfold sum_magnitudes. induction l as [|x l IH]; simpl in *; lia. Qed.

Lemma sum_scaled_le (l : list float) : Z.abs (sum_scaled l) <= sum_magnitudes l.
Proof. unfold sum_scaled, sum_magnitudes. induction l as [|x l IH]; simpl in *; lia. Qed.

Lemma sum_scaled_perm (l l' : list float) :
  Permutation l l' -> sum_scaled l = sum_scaled l'.
Proof.
  unfold sum_scaled. induction 1; simpl in *; lia.
Qed.

Lemma sum_magnitudes_perm (l l' : list float) :
  Permutation l l' -> sum_magnitudes l = sum_magnitudes l'.
Proof.
  unfold sum_magnitudes. induction 1; simpl in *; lia.
Qed.

Lemma leaves_length {A : Type} (t : reduction A) : (1 <= length (leaves t))%nat.
Proof. induction t; simpl; [lia|]. rewrite length_app. lia. Qed.

Lemma within_succ (k : nat) (err mag : Z) :
  0 <= mag -> within k err mag -> within (S k) err mag.
Proof.
  unfold within. intros Hmag H. rewrite Nat2Z.inj_succ, !Z.pow_succ_r by lia.
  assert (0 < (2 ^ 50 + 1) ^ Z.of_nat k) by (apply Z.pow_pos_nonneg; lia).
  change (2 ^ 50) with 1125899906842624 in *. nia.
Qed.

Lemma within_le (a b : nat) (err mag : Z) :
  (a <= b)%nat -> 0 <= mag -> within a err mag -> within b err mag.
Proof.
  intros Hab Hmag H. induction Hab; [assumption|]. now apply within_succ.
Qed.

Lemma within_node (kl kr : nat) (S Sl Sr sl sr Al Ar : Z) :
  Z.abs sl <= Al -> Z.abs sr <= Ar ->
  within kl (Z.abs (Sl - sl)) Al -> within kr (Z.abs (Sr - sr)) Ar ->
  2 ^ 50 * Z.abs (S - (Sl + Sr)) <= Z.abs (Sl + Sr) ->
  within (kl + kr + 1) (Z.abs (S - (sl + sr))) (Al + Ar).
Proof.
  intros Hl Hr Wl Wr Hadd.
  assert (HAl : 0 <= Al) by lia. assert (HAr : 0 <= Ar) by lia.
  apply (within_le kl (kl + kr)) in Wl; [|lia|assumption].
  apply (within_le kr (kl + kr)) in Wr; [|lia|assumption].
  unfold within in *.
  replace (Z.of_nat (kl + kr + 1)) with (Z.succ (Z.of_nat (kl + kr))) by lia.
  rewrite !Z.pow_succ_r by lia.
  set (Q := (2 ^ 50) ^ Z.of_nat (kl + kr)) in *.
  set (P := (2 ^ 50 + 1) ^ Z.of_nat (kl + kr)) in *.
  assert (HQ : 0 < Q) by (apply Z.pow_pos_nonneg; lia).
  set (el := Z.abs (Sl - sl)) in *. set (er := Z.abs (Sr - sr)) in *.
  set (d := Z.abs (S - (Sl + Sr))) in *.
  assert (H1 : Z.abs (S - (sl + sr)) <= d + el + er) by (unfold d, el, er; lia).
  assert (H2 : 2 ^ 50 * d <= Al + Ar + el + er) by (unfold d, el, er in *; lia).
  assert (Hel : 0 <= el) by (unfold el; lia).
  assert (Her : 0 <= er) by (unfold er; lia).
  clearbody Q P el er d.
  change (2 ^ 50) with 1125899906842624 in *.
  assert (H3 : 1125899906842624 * Q * Z.abs (S - (sl + sr))
               <= Q * (1125899906842624 * d) + 1125899906842624 * (Q * el + Q * er)) by nia.
  assert (H4 : Q * (1125899906842624 * d) <= Q * (Al + Ar) + (Q * el + Q * er)) by nia.
  nia.
Qed.

End Rounding.

(** * Sums of small counts are exact *)

Module Counts.

Import IEEE.

Lemma all2_nth {A B : Type} (p : A -> B -> bool) (d : A) (d' : B) (l : list A) :
  forall (l' : list B) (b : nat),
    all2 p l l' = true -> b < length l -> b < length l' ->
    p (nth b l d) (nth b l' d') = true.
Proof.
  induction l as [|x l IH]; intros [|y l'] b H Hb Hb'; simpl in *; try lia.
  apply andb_prop in H. destruct H as [Hxy H].
  destruct b as [|b]; [exact Hxy|]. apply IH; [exact H|lia|lia].
Qed.

Lemma sums_in_nth (l : list float) : forall (s : list float) (a b : nat),
  sums_in l s = true -> a < length s -> b < length l -> a + b < length s ->
  (nth a s 0 + nth b l 0 =? nth (a + b) s 0)%float = true.
Proof.
  intros s. induction s as [|x s IH]; intros a b H Ha Hb Hab; simpl in Ha; [lia|].
  cbn [sums_in] in H. apply andb_prop in H. destruct H as [Hrow H].
  destruct a as [|a].
  - simpl nth at 1. simpl Nat.add.
    exact (all2_nth _ 0%float 0%float l (x :: s) b Hrow Hb Hab).
  - simpl. apply IH; [exact H|lia|lia|simpl in Hab; lia].
Qed.

Lemma nth_counts_upto (n k : nat) : k <= n -> nth k (counts_upto n) 0%float = of_count k.
Proof.
  intros Hk. unfold counts_upto.
  rewrite (nth_indep _ 0%float (of_count 0)) by (rewrite length_map, length_seq; lia).
  rewrite map_nth, seq_nth by lia. reflexivity.
Qed.

Section Counts.

Variable n : nat.
Hypothesis Hn : (Z.of_nat n < 2 ^ 63)%Z.
Hypothesis Hsums : sums_in (counts_upto n) (counts_upto n) = true.

Lemma count_add_exact (a b : nat) :
  a + b <= n -> (of_count a + of_count b)%float = of_count (a + b).
Proof.
  intros H.
  assert (Hlen : length (counts_upto n) = S n)
    by (unfold counts_upto; now rewrite length_map, length_seq).
  pose proof (sums_in_nth _ _ a b Hsums) as C.
  rewrite !nth_counts_upto in C by lia.
  specialize (C ltac:(lia) ltac:(lia) ltac:(lia)).
  destruct (Nat.eq_dec (a + b) 0) as [Hz|Hnz].
  - assert (a = 0) by lia. assert (b = 0) by lia. subst. reflexivity.
  - apply eqb_positive_eq; [|exact C].
    apply of_count_positive; lia.
Qed.

End Counts.

Lemma counts_add_exactly : sums_in (counts_upto most_maps) (counts_upto most_maps) = true.
Proof. vm_compute. reflexivity. Qed.

Lemma count_add_most (a b : nat) :
  a + b <= most_maps -> (of_count a + of_count b)%float = of_count (a + b).
Proof.
  apply count_add_exact; [|exact counts_add_exactly].
  vm_compute. reflexivity.
Qed.

Lemma count_ones_app (l l' : list float) :
  count_ones (l ++ l') = count_ones l + count_ones l'.
Proof. unfold count_ones. now rewrite filter_app, length_app. Qed.

Lemma count_ones_le (l : list float) : count_ones l <= length l.
Proof. unfold count_ones. apply filter_length_le. Qed.

Lemma count_ones_perm (l l' : list float) :
  Permutation l l' -> count_ones l = count_ones l'.
Proof.
  unfold count_ones. induction 1; simpl.
  - reflexivity.
  - destruct (x =? 1)%float; simpl; congruence.
  - destruct (x =? 1)%float, (y =? 1)%float; reflexivity.
  - congruence.
Qed.

End Counts.

(** * numpy's pairwise summation *)

Module Sums.

Lemma split_half (n : nat) :
  PW_BLOCKSIZE < n ->
  0 < n / 2 - (n / 2) mod 8 < n.
Proof.
  unfold PW_BLOCKSIZE. intros Hn.
  pose proof (Nat.div_mod_eq n 2) as Hd.
  pose proof (Nat.mod_upper_bound n 2 ltac:(lia)) as Hm.
  pose proof (Nat.mod_upper_bound (n / 2) 8 ltac:(lia)) as Hm8.
  lia.
Qed.

(** The result does not depend on the fuel once it covers the array. *)
Lemma pairwise_sum_fuel : forall (f f' : nat) (a : list float),
  length a <= f -> length a <= f' -> pairwise_sum f a = pairwise_sum f' a.
Proof.
  induction f as [|f IH]; intros f' a Hf Hf'.
  - destruct a; [|simpl in Hf; lia]. now destruct f'.
  - destruct f' as [|f'].
    + destruct a; [reflexivity|simpl in Hf'; lia].
    + cbn [pairwise_sum].
      destruct (Nat.ltb_spec (length a) 8); [reflexivity|].
      destruct (Nat.leb_spec (length a) PW_BLOCKSIZE) as [|Hbig]; [reflexivity|].
      pose proof (split_half _ Hbig) as Hh.
      f_equal; apply IH; rewrite ?length_firstn, ?length_skipn; lia.
Qed.

(** The recursive branch of the C function. *)
Lemma pairwise_sum_split (a : list float) :
  PW_BLOCKSIZE < length a ->
  let n2 := length a / 2 - (length a / 2) mod 8 in
  pairwise_sum (length a) a =
    (pairwise_sum (length (firstn n2 a)) (firstn n2 a) +
     pairwise_sum (length (skipn n2 a)) (skipn n2 a))%float.
Proof.
  intros Hbig n2. pose proof (split_half _ Hbig) as Hh. fold n2 in Hh.
  destruct (length a) as [|f] eqn:E; [unfold PW_BLOCKSIZE in Hbig; lia|].
  cbn [pairwise_sum]. rewrite E.
  destruct (Nat.ltb_spec (S f) 8); [unfold PW_BLOCKSIZE in Hbig; lia|].
  destruct (Nat.leb_spec (S f) PW_BLOCKSIZE); [lia|].
  fold n2.
  f_equal; apply pairwise_sum_fuel; rewrite ?length_firstn, ?length_skipn; lia.
Qed.

Lemma length_map2 {A B C : Type} (f : A -> B -> C) (l : list A) (l' : list B) :
  length (map2 f l l') = Nat.min (length l) (length l').
Proof.
  revert l'. induction l as [|x l IH]; intros [|y l']; simpl; trivial.
  now rewrite IH.
Qed.

(** *** A property that sums keep *)

Section Closed.

Variable P : float -> Prop.
Hypothesis P0 : P 0%float.
Hypothesis Padd : forall x y, P x -> P y -> P (x + y)%float.

Lemma sum_in_order_closed (a : list float) : forall res : float,
  Forall P a -> P res -> P (sum_in_order a res).
Proof.
  unfold sum_in_order. induction a as [|x a IH]; intros res Ha Hres; simpl; trivial.
  inversion Ha; subst. apply IH; auto.
Qed.

Lemma map2_add_closed (r : list float) : forall b : list float,
  Forall P r -> Forall P b -> Forall P (map2 PrimFloat.add r b).
Proof.
  induction r as [|x r IH]; intros [|y b] Hr Hb; simpl; try constructor;
    inversion Hr; inversion Hb; subst; auto.
Qed.

Lemma Forall_firstn_skipn (n : nat) (a : list float) :
  Forall P a -> Forall P (firstn n a) /\ Forall P (skipn n a).
Proof.
  intros Ha. rewrite <- (firstn_skipn n a) in Ha. now apply Forall_app in Ha.
Qed.

Lemma add_blocks_closed (k : nat) : forall r a : list float,
  Forall P r -> Forall P a ->
  Forall P (fst (add_blocks k r a)) /\ Forall P (snd (add_blocks k r a)).
Proof.
  induction k as [|k IH]; intros r a Hr Ha; cbn [add_blocks]; [now split|].
  destruct (Forall_firstn_skipn 8 a Ha) as [H1 H2].
  apply IH; auto using map2_add_closed.
Qed.

Lemma tree8_closed (r : list float) : Forall P r -> P (tree8 r).
Proof.
  intros Hr. unfold tree8.
  repeat (destruct r as [|? r]; [exact P0|inversion Hr as [|? ? ? Hr']; subst;
                                 clear Hr; rename Hr' into Hr]).
  destruct r; [|exact P0]. auto 10.
Qed.

Lemma unrolled_sum_closed (a : list float) : Forall P a -> P (unrolled_sum a).
Proof.
  intros Ha. unfold unrolled_sum.
  destruct (Forall_firstn_skipn 8 a Ha) as [H1 H2].
  destruct (add_blocks_closed (length a / 8 - 1) _ _ H1 H2) as [Hr Hrest].
  destruct (add_blocks _ _ _) as [r rest]. simpl in Hr, Hrest.
  apply sum_in_order_closed; auto using tree8_closed.
Qed.

Lemma pairwise_sum_closed (fuel : nat) : forall a : list float,
  Forall P a -> P (pairwise_sum fuel a).
Proof.
  induction fuel as [|fuel IH]; intros a Ha; cbn [pairwise_sum];
    destruct (Nat.ltb (length a) 8); auto using sum_in_order_closed;
    destruct (Nat.leb (length a) PW_BLOCKSIZE); auto using unrolled_sum_closed.
  destruct (Forall_firstn_skipn (length a / 2 - (length a / 2) mod 8) a Ha).
  auto.
Qed.

Lemma np_sum_closed (l : list float) : Forall P l -> P (np_sum l).
Proof. intros Hl. unfold np_sum. auto using pairwise_sum_closed. Qed.

End Closed.

(** *** A property that one term gives to the whole sum *)

Section Absorbing.

Variable T : float -> Prop.
Hypothesis Tl : forall x y, T x -> T (x + y)%float.
Hypothesis Tr : forall x y, T y -> T (x + y)%float.

Lemma sum_in_order_absorbing (a : list float) : forall res : float,
  T res \/ Exists T a -> T (sum_in_order a res).
Proof.
  unfold sum_in_order. induction a as [|x a IH]; intros res H; simpl.
  - destruct H as [H|H]; [exact H|inversion H].
  - apply IH. destruct H as [H|H]; [left; auto|].
    inversion H; subst; [left; auto|now right].
Qed.

Lemma map2_add_absorbing (r : list float) : forall b : list float,
  length r = length b -> Exists T r \/ Exists T b ->
  Exists T (map2 PrimFloat.add r b).
Proof.
  induction r as [|x r IH]; intros [|y b] Hlen H; simpl in *; try lia.
  - destruct H as [H|H]; inversion H.
  - destruct H as [H|H]; inversion H; subst; auto.
Qed.

Lemma Exists_firstn_skipn (n : nat) (a : list float) :
  Exists T a -> Exists T (firstn n a) \/ Exists T (skipn n a).
Proof.
  intros Ha. rewrite <- (firstn_skipn n a) in Ha. now apply Exists_app in Ha.
Qed.

Lemma add_blocks_absorbing (k : nat) : forall r a : list float,
  length r = 8 -> 8 * k <= length a -> Exists T r \/ Exists T a ->
  length (fst (add_blocks k r a)) = 8 /\
  (Exists T (fst (add_blocks k r a)) \/ Exists T (snd (add_blocks k r a))).
Proof.
  induction k as [|k IH]; intros r a Hr Ha H; cbn [add_blocks]; [now split|].
  assert (Hf : length (firstn 8 a) = 8) by (rewrite length_firstn; lia).
  apply IH.
  - rewrite length_map2. lia.
  - rewrite length_skipn. lia.
  - destruct H as [H|H].
    + left. apply map2_add_absorbing; [lia|now left].
    + destruct (Exists_firstn_skipn 8 a H) as [H1|H2]; [|now right].
      left. apply map2_add_absorbing; [lia|now right].
Qed.

Lemma tree8_absorbing (r : list float) : length r = 8 -> Exists T r -> T (tree8 r).
Proof.
  intros Hlen Hr. unfold tree8.
  do 8 (destruct r as [|? r]; [discriminate|]).
  destruct r; [|discriminate].
  repeat match goal with
         | H : Exists T (_ :: _) |- _ => inversion H; subst; clear H
         | H : Exists T [] |- _ => inversion H
         end; auto 10.
Qed.

Lemma unrolled_sum_absorbing (a : list float) :
  8 <= length a -> Exists T a -> T (unrolled_sum a).
Proof.
  intros Hlen Ha. unfold unrolled_sum.
  pose proof (Nat.div_mod_eq (length a) 8) as Hd.
  destruct (add_blocks_absorbing (length a / 8 - 1) (firstn 8 a) (skipn 8 a))
    as [Hr H].
  - rewrite length_firstn. lia.
  - rewrite length_skipn. lia.
  - destruct (Exists_firstn_skipn 8 a Ha); auto.
  - destruct (add_blocks _ _ _) as [r rest]. simpl in Hr, H.
    apply sum_in_order_absorbing.
    destruct H as [H|H]; [left; now apply tree8_absorbing|now right].
Qed.

Lemma pairwise_sum_absorbing (fuel : nat) : forall a : list float,
  Exists T a -> T (pairwise_sum fuel a).
Proof.
  induction fuel as [|fuel IH]; intros a Ha; cbn [pairwise_sum];
    (destruct (Nat.ltb_spec (length a) 8);
     [apply sum_in_order_absorbing; now right|]);
    destruct (Nat.leb (length a) PW_BLOCKSIZE);
    auto using unrolled_sum_absorbing.
  destruct (Exists_firstn_skipn (length a / 2 - (length a / 2) mod 8) a Ha); auto.
Qed.

Lemma np_sum_absorbing (l : list float) : Exists T l -> T (np_sum l).
Proof. intros Hl. unfold np_sum. auto using pairwise_sum_absorbing. Qed.

End Absorbing.

(** *** Zeros, NaN and infinities *)

Lemma np_sum_zeros (n : nat) : np_sum (repeat 0%float n) = 0%float.
Proof.
  apply (np_sum_closed (fun x => x = 0%float)).
  - reflexivity.
  - intros x y -> ->. reflexivity.
  - apply Forall_forall. intros x Hx. now apply repeat_spec in Hx.
Qed.

Lemma sum_in_order_zeros (n : nat) : sum_in_order (repeat 0%float n) 0%float = 0%float.
Proof.
  apply (sum_in_order_closed (fun x => x = 0%float)).
  - intros x y -> ->. reflexivity.
  - apply Forall_forall. intros x Hx. now apply repeat_spec in Hx.
  - reflexivity.
Qed.

(** A sum with a NaN term is NaN. *)
Lemma np_sum_nan (l : list float) : In nan l -> np_sum l = nan.
Proof.
  intros H. apply (np_sum_absorbing (fun x => x = nan)).
  - intros x y ->. apply IEEE.add_nan_l.
  - intros x y ->. apply IEEE.add_nan_r.
  - apply Exists_exists. now exists nan.
Qed.

(** A sum with an infinite term is that infinity or NaN. *)
Lemma np_sum_signed_inf (s : bool) (l : list float) (x : float) :
  In x l -> Prim2SF x = S754_infinity s ->
  nan_or_signed_inf s (Prim2SF (np_sum l)).
Proof.
  intros Hin Hx.
  apply (np_sum_absorbing (fun x => nan_or_signed_inf s (Prim2SF x))).
  - intros a b. apply IEEE.signed_inf_add_l.
  - intros a b. apply IEEE.signed_inf_add_r.
  - apply Exists_exists. exists x. split; [assumption|]. rewrite Hx. constructor.
Qed.

End Sums.

(** * Line buffers and the one-dimensional filters *)

Module Lines.

Lemma nth_map_seq {A : Type} (f : nat -> A) (n i : nat) (d : A) :
  i < n -> nth i (map f (seq 0 n)) d = f i.
Proof.
  intros Hi.
  rewrite (nth_indep _ d (f 0)) by (now rewrite length_map, length_seq).
  rewrite map_nth, seq_nth by assumption. reflexivity.
Qed.

Lemma map_const {A B : Type} (f : A -> B) (v : B) (l : list A) :
  (forall x, In x l -> f x = v) -> map f l = repeat v (length l).
Proof.
  induction l as [|x l IH]; intros H; simpl; trivial.
  rewrite H by now left. rewrite IH; trivial. intros y Hy. apply H. now right.
Qed.

Lemma reflect_lt (n : nat) (i : Z) : 0 < n -> reflect n i < n.
Proof.
  intros Hn. unfold reflect.
  pose proof (Z.mod_pos_bound i (2 * Z.of_nat n) ltac:(lia)) as Hm.
  destruct (Z.ltb_spec (i mod (2 * Z.of_nat n)) (Z.of_nat n)); lia.
Qed.

Lemma length_offsets (size : nat) (origin : Z) : length (offsets size origin) = size.
Proof. unfold offsets. now rewrite length_map, length_seq. Qed.

Lemma offsets_nonempty (size : nat) (origin : Z) : 0 < size -> offsets size origin <> [].
Proof.
  intros Hs E. apply (f_equal (@length Z)) in E.
  rewrite length_offsets in E. simpl in E. lia.
Qed.

Lemma firstn_repeat {A : Type} (x : A) (k : nat) : forall n : nat,
  firstn k (repeat x n) = repeat x (Nat.min k n).
Proof.
  induction k as [|k IH]; intros [|n]; simpl; trivial. now rewrite IH.
Qed.

Lemma skipn_repeat {A : Type} (x : A) (k : nat) : forall n : nat,
  skipn k (repeat x n) = repeat x (n - k).
Proof.
  induction k as [|k IH]; intros [|n]; simpl; trivial.
Qed.

Lemma skipn_cons_nth {A : Type} (n : nat) (l : list A) (x d : A) (r : list A) :
  skipn n l = x :: r -> nth n l d = x /\ skipn (S n) l = r.
Proof.
  revert l. induction n as [|n IH]; intros [|y l] H; simpl in *; try discriminate.
  - inversion H. now split.
  - now apply IH.
Qed.

(** *** The buffer *)

Lemma length_extend_line (size : nat) (origin : Z) (line : list float) :
  length (extend_line size origin line) = length line + size - 1.
Proof. unfold extend_line. now rewrite length_map, length_seq. Qed.

Lemma nth_extend_line (size : nat) (origin : Z) (line : list float) (t : nat) :
  t < length line + size - 1 ->
  nth t (extend_line size origin line) 0%float =
  nth (reflect (length line) (Z.of_nat t - Z.of_nat (size / 2) - origin)) line 0%float.
Proof. intros Ht. unfold extend_line. now rewrite nth_map_seq. Qed.

(** A sample of the buffer is a sample of the line, or the default past the
    end of the buffer. *)
Lemma extend_line_sample (size : nat) (origin : Z) (line : list float) (t : nat) :
  line <> [] ->
  nth t (extend_line size origin line) 0%float = 0%float \/
  exists p, p < length line /\ nth t (extend_line size origin line) 0%float = nth p line 0%float.
Proof.
  intros Hne.
  destruct (Nat.lt_ge_cases t (length (extend_line size origin line))) as [Hlt|Hge].
  - right. rewrite length_extend_line in Hlt. rewrite nth_extend_line by assumption.
    eexists. split; [|reflexivity]. apply reflect_lt.
    destruct line; [congruence|simpl; lia].
  - left. now apply nth_overflow.
Qed.

(** *** The running mean *)

Lemma length_running_mean (fs : float) (l1 : list float) : forall (tmp : float) (l2 : list float),
  length (running_mean fs tmp l1 l2) = Nat.min (length l1) (length l2).
Proof.
  induction l1 as [|x1 l1 IH]; intros tmp [|x2 l2]; simpl; trivial.
  now rewrite IH.
Qed.

Lemma length_uniform_filter1d (size : nat) (line : list float) :
  length (uniform_filter1d size line) = length line.
Proof.
  destruct line as [|x line]; [reflexivity|].
  unfold uniform_filter1d. cbn [length].
  rewrite length_running_mean, length_skipn, length_extend_line. cbn [length]. lia.
Qed.

Lemma running_mean_zeros (fs : float) (a : nat) : forall b : nat,
  positive_float fs ->
  running_mean fs 0%float (repeat 0%float a) (repeat 0%float b) =
    repeat 0%float (Nat.min a b).
Proof.
  induction a as [|a IH]; intros [|b] Hfs; simpl; trivial.
  change (0 - 0)%float with 0%float.
  rewrite (IEEE.zero_div_positive fs Hfs). change (0 + 0)%float with 0%float.
  now rewrite IH.
Qed.

Lemma extend_line_zeros (size : nat) (origin : Z) (n : nat) :
  extend_line size origin (repeat 0%float n) = repeat 0%float (n + size - 1).
Proof.
  unfold extend_line. rewrite repeat_length.
  rewrite (map_const _ 0%float), length_seq; [reflexivity|].
  intros t _. apply nth_repeat.
Qed.

(** The uniform filter of a line of zeros is the line. *)
Lemma uniform_filter1d_zeros (size n : nat) :
  0 < size -> (Z.of_nat size < 2 ^ 63)%Z ->
  uniform_filter1d size (repeat 0%float n) = repeat 0%float n.
Proof.
  intros Hs Hlt. destruct n as [|n]; [reflexivity|].
  assert (Hfs : positive_float (of_count size)) by now apply IEEE.of_count_positive.
  unfold uniform_filter1d. cbn [repeat].
  change (0%float :: repeat 0%float n) with (repeat 0%float (S n)).
  rewrite extend_line_zeros, firstn_repeat, skipn_repeat.
  rewrite Sums.sum_in_order_zeros, (IEEE.zero_div_positive _ Hfs).
  rewrite running_mean_zeros by assumption.
  replace (Nat.min (S n + size - 1) (S n + size - 1 - size)) with n by lia.
  reflexivity.
Qed.

(** *** The ring of the sliding minimum and maximum *)

Lemma drop_last_while_split (p : candidate -> bool) (R : list candidate) :
  exists kept dropped,
    R = kept ++ dropped /\ drop_last_while p R = kept /\
    Forall (fun e => p e = true) dropped /\
    (kept = [] \/ exists k0 e, kept = k0 ++ [e] /\ p e = false).
Proof.
  induction R as [|e R IH].
  - exists [], []. simpl. repeat split; auto.
  - destruct IH as (kept & dropped & HR & Hd & Hall & Hlast). simpl. rewrite Hd.
    destruct kept as [|k kept].
    + simpl in HR. subst dropped. destruct (p e) eqn:E.
      * exists [], (e :: R). repeat split; auto.
      * exists [e], R. repeat split; auto. right. now exists [], e.
    + exists (e :: k :: kept), dropped. repeat split; trivial.
      * simpl. now rewrite HR.
      * right. destruct Hlast as [H|(k0 & e0 & Hk & He)]; [discriminate|].
        exists (e :: k0), e0. split; [simpl; now rewrite <- Hk|assumption].
Qed.

Lemma StronglySorted_app_l {A : Type} (R : A -> A -> Prop) (l1 l2 : list A) :
  StronglySorted R (l1 ++ l2) -> StronglySorted R l1.
Proof.
  induction l1 as [|x l1 IH]; intros H; [constructor|].
  simpl in H. apply StronglySorted_inv in H. destruct H as [Hs Hf].
  constructor; [auto|]. apply Forall_app in Hf. tauto.
Qed.

Lemma StronglySorted_snoc {A : Type} (R : A -> A -> Prop) (l : list A) (x : A) :
  StronglySorted R l -> Forall (fun y => R y x) l -> StronglySorted R (l ++ [x]).
Proof.
  induction l as [|y l IH]; intros Hs Hf; simpl.
  - repeat constructor.
  - apply StronglySorted_inv in Hs. destruct Hs as [Hs Hy].
    inversion Hf; subst. constructor; [auto|].
    apply Forall_app. split; [assumption|]. now constructor.
Qed.

Section Window.

Variables (minimum : bool) (fs : nat) (ext : list float).
Hypothesis Hfs : 2 <= fs.

(** The ring after [minpair++]: the entry that dies at the new index has
    left, and at least one entry stays. *)
Lemma ring_pop (ll : nat) (R : list candidate) :
  ring_inv ext fs ll R ->
  exists R1,
    match R with
    | minpair :: rest => if Nat.eqb (death minpair) (S ll) then rest else R
    | [] => []
    end = R1 /\
    R1 <> [] /\
    (R1 = R \/ exists f, R = f :: R1 /\ death f = S ll) /\
    Forall (ring_valid ext fs (S ll)) R1 /\
    Forall (fun e => death e < S ll + fs) R1 /\
    StronglySorted (fun e e' => death e < death e') R1.
Proof.
  intros (Hval & Hsort & front & lst & HR & Hlst).
  assert (Hup : forall e, ring_valid ext fs ll e -> S ll < death e ->
                          ring_valid ext fs (S ll) e /\ death e < S ll + fs).
  { intros e (s & Hd & Hs1 & Hs2 & Hv) Hlt. split; [|lia].
    exists s. repeat split; trivial; lia. }
  destruct R as [|f rest]; [destruct front; discriminate|].
  apply StronglySorted_inv in Hsort. destruct Hsort as [Hsrest Hfrest].
  inversion Hval as [|? ? Hvf Hvrest]; subst.
  destruct (Nat.eqb_spec (death f) (S ll)) as [E|E].
  - exists rest. split; [reflexivity|].
    assert (Hne : rest <> []).
    { intros ->. destruct front as [|? [|? ?]]; inversion HR; subst. lia. }
    repeat split; trivial.
    + right. now exists f.
    + rewrite Forall_forall in *. intros e He.
      apply Hup; [auto|]. specialize (Hfrest e He). lia.
    + rewrite Forall_forall in *. intros e He.
      apply Hup; [auto|]. specialize (Hfrest e He). lia.
  - exists (f :: rest). split; [reflexivity|].
    assert (Hf : S ll < death f) by (destruct Hvf as (s & ? & ? & ? & ?); lia).
    repeat split; trivial; try discriminate.
    + now left.
    + constructor; [now apply Hup|].
      rewrite Forall_forall in *. intros e He.
      apply Hup; [auto|]. specialize (Hfrest e He). lia.
    + constructor; [now apply Hup|].
      rewrite Forall_forall in *. intros e He.
      apply Hup; [auto|]. specialize (Hfrest e He). lia.
    + now constructor.
Qed.

(** One turn of the loop keeps the ring well formed; in particular the ring
    is never empty when [minpair] is read. *)
Lemma ring_inv_step (ll : nat) (R : list candidate) :
  ring_inv ext fs ll R ->
  ring_inv ext fs (S ll) (ring_step minimum fs R (S ll) (nth (S ll) ext 0%float)).
Proof.
  intros Hinv. destruct (ring_pop ll R Hinv) as (R1 & E1 & Hne & _ & Hval & Hd & Hsort).
  unfold ring_step. rewrite E1.
  set (new := {| value := nth (S ll) ext 0%float; death := S ll + fs |}).
  assert (Hnew : ring_valid ext fs (S ll) new)
    by (exists (S ll); repeat split; simpl; lia).
  destruct R1 as [|f rest]; [congruence|].
  destruct (beats minimum (nth (S ll) ext 0%float) (value f)).
  - repeat split.
    + now constructor.
    + repeat constructor.
    + now exists [], new.
  - destruct (drop_last_while_split
                (fun e => beats minimum (nth (S ll) ext 0%float) (value e)) (f :: rest))
      as (kept & dropped & HR & Hk & _ & _).
    rewrite Hk. rewrite HR in Hval, Hd, Hsort.
    apply Forall_app in Hval. apply Forall_app in Hd.
    repeat split.
    + apply Forall_app. split; [tauto|now constructor].
    + apply StronglySorted_snoc; [now apply StronglySorted_app_l in Hsort|].
      destruct Hd as [Hd _]. eapply Forall_impl; [|exact Hd]. simpl. intros; lia.
    + now exists kept, new.
Qed.

Lemma ring_inv_init :
  ring_inv ext fs 0 [{| value := nth 0 ext 0%float; death := fs |}].
Proof.
  repeat split.
  - constructor; [|constructor]. exists 0. repeat split; simpl; lia.
  - repeat constructor.
  - eexists [], _. split; [reflexivity|reflexivity].
Qed.

Lemma ring_inv_front (ll : nat) (R : list candidate) :
  ring_inv ext fs ll R ->
  exists e rest, R = e :: rest /\ ring_valid ext fs ll e.
Proof.
  intros (Hval & _ & front & lst & HR & _).
  destruct R as [|e rest]; [destruct front; discriminate|].
  exists e, rest. split; [reflexivity|]. now inversion Hval.
Qed.

(** What the loop writes: an invariant [I] of the ring that gives [Q] for
    [minpair->value] gives [Q] for every output sample. *)
Lemma ring_loop_spec (I : nat -> list candidate -> Prop) (Q : nat -> float -> Prop) :
  (forall ll R, I ll R ->
     I (S ll) (ring_step minimum fs R (S ll) (nth (S ll) ext 0%float))) ->
  (forall ll R, I ll R -> fs - 1 <= ll ->
     exists e rest, R = e :: rest /\ Q (ll - (fs - 1)) (value e)) ->
  forall (iline : list float) (pl : nat) (R : list candidate),
    I pl R -> skipn (S pl) ext = iline ->
    length (ring_loop minimum fs R (S pl) iline) = length iline - (fs - 1 - S pl) /\
    forall o, o < length (ring_loop minimum fs R (S pl) iline) ->
      Q (Nat.max (S pl) (fs - 1) + o - (fs - 1))
        (nth o (ring_loop minimum fs R (S pl) iline) 0%float).
Proof.
  intros Hstep Hout. induction iline as [|val rest IH]; intros pl R HI Hskip.
  - simpl. split; [reflexivity|]. intros o Ho. lia.
  - destruct (skipn_cons_nth _ _ _ 0%float _ Hskip) as [Hval Hrest].
    cbn [ring_loop]. rewrite <- Hval.
    specialize (Hstep pl R HI).
    set (R' := ring_step minimum fs R (S pl) (nth (S pl) ext 0%float)) in *.
    destruct (IH (S pl) R' Hstep Hrest) as [Hlen HQ].
    destruct (Nat.leb_spec (fs - 1) (S pl)) as [Hge|Hlt].
    + destruct (Hout (S pl) R' Hstep Hge) as (e & rest' & -> & He).
      cbn [length]. split; [lia|].
      intros [|o] Ho.
      * replace (Nat.max (S pl) (fs - 1) + 0 - (fs - 1)) with (S pl - (fs - 1)) by lia.
        exact He.
      * cbn [nth].
        replace (Nat.max (S pl) (fs - 1) + S o - (fs - 1))
          with (Nat.max (S (S pl)) (fs - 1) + o - (fs - 1)) by lia.
        apply HQ. simpl in Ho. lia.
    + split; [cbn [length]; lia|].
      intros o Ho.
      replace (Nat.max (S pl) (fs - 1)) with (Nat.max (S (S pl)) (fs - 1)) by lia.
      now apply HQ.
Qed.

(** *** The minimum over numbers *)

Hypothesis Hnum : forall s, np_isnan (nth s ext 0%float) = false.

Lemma ring_valid_number (ll : nat) (e : candidate) :
  ring_valid ext fs ll e -> np_isnan (value e) = false.
Proof. intros (s & _ & _ & _ & ->). apply Hnum. Qed.

Lemma ring_min_step (ll : nat) (R : list candidate) :
  ring_inv ext fs ll R -> ring_min_inv ext fs ll R ->
  ring_min_inv ext fs (S ll) (ring_step true fs R (S ll) (nth (S ll) ext 0%float)).
Proof.
  intros Hinv (Hvs & Hcov).
  destruct (ring_pop ll R Hinv) as (R1 & E1 & Hne & Hrel & Hval & Hd & Hsort).
  unfold ring_step. rewrite E1.
  set (val := nth (S ll) ext 0%float).
  set (new := {| value := val; death := S ll + fs |}).
  assert (Hvalnum : np_isnan val = false) by apply Hnum.
  (* the old window, after the pop *)
  assert (Hvs1 : StronglySorted (fun e e' => (value e <=? value e')%float = true) R1).
  { destruct Hrel as [->|(f & -> & _)]; [assumption|].
    now apply StronglySorted_inv in Hvs. }
  assert (Hcov1 : forall s, s <= ll -> S ll < s + fs ->
            exists e, In e R1 /\ s + fs <= death e /\
                      (value e <=? nth s ext 0%float)%float = true).
  { intros s Hs1 Hs2. destruct (Hcov s Hs1 ltac:(lia)) as (e & Hin & Hde & Hle).
    exists e. repeat split; trivial.
    destruct Hrel as [->|(f & -> & Hf)]; [assumption|].
    destruct Hin as [<-|Hin]; [lia|assumption]. }
  assert (Hnum1 : forall e, In e R1 -> np_isnan (value e) = false).
  { intros e He. rewrite Forall_forall in Hval.
    eapply ring_valid_number. now apply Hval. }
  destruct R1 as [|f rest]; [congruence|].
  unfold beats. destruct (val <=? value f)%float eqn:Ef.
  - (* the new sample is the minimum of the window *)
    split; [repeat constructor|].
    intros s Hs1 Hs2. exists new. split; [now left|]. split; [simpl; lia|].
    simpl. destruct (Nat.eq_dec s (S ll)) as [->|Hne'].
    + now apply IEEE.leb_refl.
    + destruct (Hcov1 s ltac:(lia) Hs2) as (e & Hin & _ & Hle).
      eapply IEEE.leb_trans; [|exact Hle].
      eapply IEEE.leb_trans; [exact Ef|].
      destruct Hin as [<-|Hin]; [apply IEEE.leb_refl, Hnum1; now left|].
      apply StronglySorted_inv in Hvs1. destruct Hvs1 as [_ Hall].
      rewrite Forall_forall in Hall. now apply Hall.
  - destruct (drop_last_while_split (fun e => (val <=? value e)%float) (f :: rest))
      as (kept & dropped & HR & Hk & Hdrop & Hlast).
    rewrite Hk.
    assert (Hkept : forall e, In e kept -> (value e <=? val)%float = true).
    { destruct Hlast as [->|(k0 & k & -> & Hkfalse)]; [intros e []|].
      assert (Hkin : In k (f :: rest)) by (rewrite HR; apply in_or_app; left;
                                           apply in_or_app; right; now left).
      assert (Hkle : (value k <=? val)%float = true).
      { destruct (IEEE.leb_total val (value k)); auto; congruence. }
      intros e He. apply in_app_or in He. destruct He as [He|[<-|[]]]; [|assumption].
      eapply IEEE.leb_trans; [|exact Hkle].
      rewrite HR in Hvs1. apply StronglySorted_app_l in Hvs1.
      clear - Hvs1 He. induction k0 as [|x k0 IH]; [contradiction|].
      simpl in Hvs1. apply StronglySorted_inv in Hvs1. destruct Hvs1 as [Hs Hall].
      destruct He as [<-|He]; [|auto].
      rewrite Forall_forall in Hall. apply Hall. apply in_or_app. right. now left. }
    split.
    + apply StronglySorted_snoc.
      * rewrite HR in Hvs1. now apply StronglySorted_app_l in Hvs1.
      * apply Forall_forall. exact Hkept.
    + intros s Hs1 Hs2. destruct (Nat.eq_dec s (S ll)) as [->|Hne'].
      * exists new. split; [apply in_or_app; right; now left|].
        split; [simpl; lia|]. simpl. now apply IEEE.leb_refl.
      * destruct (Hcov1 s ltac:(lia) Hs2) as (e & Hin & Hde & Hle).
        rewrite HR in Hin. apply in_app_or in Hin. destruct Hin as [Hin|Hin].
        -- exists e. split; [apply in_or_app; now left|]. now split.
        -- exists new. split; [apply in_or_app; right; now left|].
           split; [simpl; lia|]. simpl.
           rewrite Forall_forall in Hdrop.
           eapply IEEE.leb_trans; [exact (Hdrop e Hin)|exact Hle].
Qed.

Lemma ring_min_init :
  ring_min_inv ext fs 0 [{| value := nth 0 ext 0%float; death := fs |}].
Proof.
  split; [repeat constructor|].
  intros s Hs1 Hs2. assert (s = 0) by lia. subst s.
  eexists. split; [now left|]. split; [simpl; lia|]. simpl.
  now apply IEEE.leb_refl.
Qed.

(** [minpair->value] is at most every sample of the window. *)
Lemma ring_min_front (ll : nat) (R : list candidate) :
  ring_inv ext fs ll R -> ring_min_inv ext fs ll R ->
  exists e rest, R = e :: rest /\
    forall s, s <= ll -> ll < s + fs -> (value e <=? nth s ext 0%float)%float = true.
Proof.
  intros Hinv (Hvs & Hcov).
  destruct (ring_inv_front ll R Hinv) as (e & rest & -> & He).
  exists e, rest. split; [reflexivity|].
  intros s Hs1 Hs2. destruct (Hcov s Hs1 Hs2) as (e' & Hin & _ & Hle).
  destruct Hin as [<-|Hin]; [assumption|].
  apply StronglySorted_inv in Hvs. destruct Hvs as [_ Hall].
  rewrite Forall_forall in Hall.
  eapply IEEE.leb_trans; [apply Hall; exact Hin|exact Hle].
Qed.

End Window.

(** *** The filters on one line *)

(** An invariant of the ring carried through the whole line. *)
Lemma min_or_max_filter1d_spec (minimum : bool) (fs : nat) (origin : Z)
  (line : list float) (I : nat -> list candidate -> Prop) (Q : nat -> float -> Prop) :
  2 <= fs ->
  let ext := extend_line fs origin line in
  I 0 [{| value := nth 0 ext 0%float; death := fs |}] ->
  (forall ll R, I ll R ->
     I (S ll) (ring_step minimum fs R (S ll) (nth (S ll) ext 0%float))) ->
  (forall ll R, I ll R -> fs - 1 <= ll ->
     exists e rest, R = e :: rest /\ Q (ll - (fs - 1)) (value e)) ->
  length (min_or_max_filter1d minimum fs origin line) = length line /\
  forall o, o < length line ->
    Q o (nth o (min_or_max_filter1d minimum fs origin line) 0%float).
Proof.
  intros Hfs ext Hinit Hstep Hout.
  pose proof (length_extend_line fs origin line) as Hlen. fold ext in Hlen.
  unfold min_or_max_filter1d. fold ext.
  destruct ext as [|v0 rest] eqn:E; [simpl in Hlen; lia|].
  destruct (ring_loop_spec minimum fs (v0 :: rest) Hfs I Q Hstep Hout rest 0
              [{| value := v0; death := fs |}] Hinit eq_refl) as [HL HQ].
  simpl in Hlen. split; [lia|].
  intros o Ho. specialize (HQ o ltac:(lia)).
  now replace (Nat.max 1 (fs - 1) + o - (fs - 1)) with o in HQ by lia.
Qed.

Lemma length_min_or_max_filter1d (minimum : bool) (fs : nat) (origin : Z)
  (line : list float) :
  2 <= fs -> length (min_or_max_filter1d minimum fs origin line) = length line.
Proof.
  intros Hfs.
  apply (min_or_max_filter1d_spec minimum fs origin line
           (ring_inv (extend_line fs origin line) fs) (fun _ _ => True) Hfs).
  - now apply ring_inv_init.
  - intros ll R. now apply ring_inv_step.
  - intros ll R HI _. destruct (ring_inv_front _ _ _ _ HI) as (e & rest & -> & _).
    now exists e, rest.
Qed.

Lemma window_offset (fs : nat) (origin : Z) (o s : nat) :
  o <= s -> s < o + fs ->
  exists k, In k (offsets fs origin) /\
            (Z.of_nat o + k = Z.of_nat s - Z.of_nat (fs / 2) - origin)%Z.
Proof.
  intros H1 H2. exists (Z.of_nat (s - o) - Z.of_nat (fs / 2) - origin)%Z. split.
  - unfold offsets. apply in_map_iff. exists (s - o). split; [reflexivity|].
    apply in_seq. lia.
  - lia.
Qed.

(** Every output sample of the minimum or maximum filter is a sample of its
    window, NaN or not. *)
Lemma min_or_max_pick (minimum : bool) (fs : nat) (origin : Z) (line : list float)
  (o : nat) :
  2 <= fs -> o < length line ->
  exists k, In k (offsets fs origin) /\
    nth o (min_or_max_filter1d minimum fs origin line) 0%float =
    nth (reflect (length line) (Z.of_nat o + k)) line 0%float.
Proof.
  intros Hfs Ho.
  set (ext := extend_line fs origin line).
  destruct (min_or_max_filter1d_spec minimum fs origin line (ring_inv ext fs)
              (fun o x => exists s, o <= s /\ s < o + fs /\ x = nth s ext 0%float) Hfs)
    as [_ HQ].
  - now apply ring_inv_init.
  - intros ll R. now apply ring_inv_step.
  - intros ll R HI Hll.
    destruct (ring_inv_front _ _ _ _ HI) as (e & rest & -> & s & _ & Hs1 & Hs2 & Hv).
    exists e, rest. split; [reflexivity|]. exists s. repeat split; trivial; lia.
  - destruct (HQ o Ho) as (s & Hs1 & Hs2 & Hv).
    destruct (window_offset fs origin o s Hs1 Hs2) as (k & Hk & Ek).
    exists k. split; [assumption|]. rewrite Hv. unfold ext.
    rewrite nth_extend_line by lia. now rewrite Ek.
Qed.

(** On a line of numbers every output sample of the minimum filter is at most
    every sample of its window. *)
Lemma min_filter_le (fs : nat) (origin : Z) (line : list float) (o : nat) (k : Z) :
  2 <= fs -> Forall (fun x => np_isnan x = false) line ->
  o < length line -> In k (offsets fs origin) ->
  (nth o (min_or_max_filter1d true fs origin line) 0%float <=?
   nth (reflect (length line) (Z.of_nat o + k)) line 0%float)%float = true.
Proof.
  intros Hfs Hnum Ho Hk.
  set (ext := extend_line fs origin line).
  assert (Hne : line <> []) by (destruct line; [simpl in Ho; lia|discriminate]).
  assert (Hext : forall s, np_isnan (nth s ext 0%float) = false).
  { intros s. destruct (extend_line_sample fs origin line s Hne) as [E|(p & Hp & E)];
      fold ext in E; rewrite E; [reflexivity|].
    rewrite Forall_forall in Hnum. now apply Hnum, nth_In. }
  destruct (min_or_max_filter1d_spec true fs origin line
              (fun ll R => ring_inv ext fs ll R /\ ring_min_inv ext fs ll R)
              (fun o x => forall s, o <= s -> s < o + fs ->
                                    (x <=? nth s ext 0%float)%float = true) Hfs)
    as [_ HQ].
  - split; [now apply ring_inv_init|now apply ring_min_init].
  - intros ll R [H1 H2]. split; [now apply ring_inv_step|now apply ring_min_step].
  - intros ll R [H1 H2] Hll.
    destruct (ring_min_front fs ext ll R H1 H2) as (e & rest & -> & He).
    exists e, rest. split; [reflexivity|]. intros s Hs1 Hs2. apply He; lia.
  - unfold offsets in Hk. apply in_map_iff in Hk. destruct Hk as (t & <- & Ht).
    apply in_seq in Ht.
    specialize (HQ o Ho (o + t) ltac:(lia) ltac:(lia)). unfold ext in HQ.
    rewrite nth_extend_line in HQ by lia.
    now replace (Z.of_nat (o + t) - Z.of_nat (fs / 2) - origin)%Z
      with (Z.of_nat o + (Z.of_nat t - Z.of_nat (fs / 2) - origin))%Z in HQ by lia.
Qed.

End Lines.

(** * Shapes and indexing *)

Module Arrays.

Import Lines.

Lemma rect_row (h w : nat) (a : ndarray) (i : nat) :
  rect h w a -> i < h -> length (nth i a []) = w.
Proof.
  intros [Hlen Hrows] Hi. rewrite Forall_forall in Hrows.
  apply Hrows, nth_In. lia.
Qed.

Lemma rect_shape (h w : nat) (a : ndarray) :
  rect h w a -> 0 < h -> shape a = (h, w).
Proof.
  intros Hr Hh. unfold shape. destruct Hr as [Hlen Hrows]. rewrite Hlen.
  destruct a as [|r a]; simpl in *; [lia|]. now inversion Hrows; subst.
Qed.

Lemma rect_height (h w : nat) (a : ndarray) : rect h w a -> fst (shape a) = h.
Proof. now intros [Hlen _]. Qed.

(** Two arrays of one shape with the same samples are equal. *)
Lemma rect_ext (h w : nat) (a b : ndarray) :
  rect h w a -> rect h w b ->
  (forall i j, i < h -> j < w -> getitem a i j = getitem b i j) ->
  a = b.
Proof.
  intros Ha Hb Hpix.
  apply (nth_ext _ _ [] []); [destruct Ha, Hb; congruence|].
  intros i Hi. assert (Hi' : i < h) by (destruct Ha; lia).
  apply (nth_ext _ _ 0%float 0%float).
  - now rewrite (rect_row h w a), (rect_row h w b).
  - intros j Hj. rewrite (rect_row h w a) in Hj by assumption.
    now apply Hpix.
Qed.

Lemma rect_full (h w : nat) (v : float) : rect h w (full h w v).
Proof.
  split; [apply repeat_length|].
  apply Forall_forall. intros r Hr. apply repeat_spec in Hr. subst.
  apply repeat_length.
Qed.

Lemma getitem_full (h w : nat) (v : float) (i j : nat) :
  i < h -> j < w -> getitem (full h w v) i j = v.
Proof.
  intros Hi Hj. unfold getitem, full.
  rewrite (nth_repeat_lt _ _ Hi), (nth_repeat_lt _ _ Hj). reflexivity.
Qed.

(** An array all of whose samples are [v] is [np.full]. *)
Lemma full_ext (h w : nat) (v : float) (a : ndarray) :
  rect h w a -> (forall i j, i < h -> j < w -> getitem a i j = v) -> a = full h w v.
Proof.
  intros Ha Hpix. apply (rect_ext h w); auto using rect_full.
  intros i j Hi Hj. now rewrite getitem_full, Hpix.
Qed.

(** *** ufuncs *)

Lemma rect_ufunc1 (f : float -> float) (h w : nat) (a : ndarray) :
  rect h w a -> rect h w (ufunc1 f a).
Proof.
  intros [Hlen Hrows]. split; [unfold ufunc1; now rewrite length_map|].
  unfold ufunc1. apply Forall_map. eapply Forall_impl; [|exact Hrows].
  intros r Hr. simpl. now rewrite length_map.
Qed.

Lemma getitem_ufunc1 (f : float -> float) (h w : nat) (a : ndarray) (i j : nat) :
  rect h w a -> i < h -> j < w ->
  getitem (ufunc1 f a) i j = f (getitem a i j).
Proof.
  intros Ha Hi Hj. unfold getitem, ufunc1.
  rewrite (nth_indep _ [] (map f [])) by (destruct Ha; rewrite length_map; lia).
  rewrite map_nth.
  rewrite (nth_indep _ 0%float (f 0%float))
    by (rewrite length_map, (rect_row h w); assumption).
  now rewrite map_nth.
Qed.

Lemma map2_length {A B C : Type} (f : A -> B -> C) (l : list A) (l' : list B) :
  length l = length l' -> length (map2 f l l') = length l.
Proof.
  revert l'. induction l as [|x l IH]; intros [|y l'] H; simpl in *; try lia.
  now rewrite IH by lia.
Qed.

Lemma nth_map2 {A B C : Type} (f : A -> B -> C) (l : list A) (l' : list B)
  (i : nat) (d : C) (dx : A) (dy : B) :
  i < length l -> i < length l' ->
  nth i (map2 f l l') d = f (nth i l dx) (nth i l' dy).
Proof.
  revert l' i. induction l as [|x l IH]; intros [|y l'] [|i] H H'; simpl in *;
    try lia; trivial.
  apply IH; lia.
Qed.

Lemma rect_ufunc2 (f : float -> float -> float) (h w : nat) (a b : ndarray) :
  rect h w a -> rect h w b -> rect h w (ufunc2 f a b).
Proof.
  intros Ha Hb. unfold ufunc2. split.
  - destruct Ha as [Ha _], Hb as [Hb _]. rewrite map2_length; congruence.
  - apply Forall_forall. intros r Hr.
    destruct (In_nth _ _ [] Hr) as (i & Hi & <-).
    rewrite map2_length in Hi by (destruct Ha, Hb; congruence).
    assert (Hi' : i < h) by (destruct Ha; lia).
    rewrite (nth_map2 _ _ _ _ _ [] []) by (destruct Ha, Hb; lia).
    rewrite map2_length; rewrite !(rect_row h w) by assumption; trivial.
Qed.

Lemma getitem_ufunc2 (f : float -> float -> float) (h w : nat) (a b : ndarray)
  (i j : nat) :
  rect h w a -> rect h w b -> i < h -> j < w ->
  getitem (ufunc2 f a b) i j = f (getitem a i j) (getitem b i j).
Proof.
  intros Ha Hb Hi Hj. unfold getitem, ufunc2.
  rewrite (nth_map2 _ _ _ _ _ [] []) by (destruct Ha, Hb; lia).
  apply nth_map2; rewrite (rect_row h w); assumption.
Qed.

(** *** Broadcasting operands of one shape *)

Lemma stretch_same {A : Type} (n : nat) (l : list A) : length l = n -> stretch n l = l.
Proof.
  intros <-. destruct l as [|x [|y l]]; reflexivity.
Qed.

Lemma broadcast_to_same (h w : nat) (a : ndarray) :
  rect h w a -> broadcast_to h w a = a.
Proof.
  intros [Hlen Hrows]. unfold broadcast_to. rewrite stretch_same by assumption.
  rewrite <- (map_id a) at 2. apply map_ext_in. intros r Hr.
  rewrite Forall_forall in Hrows. now apply stretch_same, Hrows.
Qed.

Lemma broadcast_dim_same (n : nat) : broadcast_dim n n = Some n.
Proof. unfold broadcast_dim. now rewrite Nat.eqb_refl. Qed.

Lemma broadcast2_same (f : float -> float -> float) (h w : nat) (a b : ndarray) :
  rect h w a -> rect h w b -> 0 < h ->
  broadcast2 f a b = Returns (ufunc2 f a b).
Proof.
  intros Ha Hb Hh. unfold broadcast2.
  rewrite (rect_shape h w a), (rect_shape h w b) by assumption. simpl.
  rewrite !broadcast_dim_same. now rewrite !broadcast_to_same.
Qed.

(** *** Broadcasting in general *)

Lemma broadcast_dim_compatible (m n : nat) :
  compatible m n -> broadcast_dim m n = Some (broadcast_extent m n).
Proof.
  unfold compatible, broadcast_dim, broadcast_extent. intros H.
  destruct (Nat.eqb_spec m n), (Nat.eqb_spec m 1), (Nat.eqb_spec n 1);
    try reflexivity; try (f_equal; lia); lia.
Qed.

Lemma broadcast_dim_incompatible (m n : nat) :
  ~ compatible m n -> broadcast_dim m n = None.
Proof.
  unfold compatible, broadcast_dim. intros H.
  destruct (Nat.eqb_spec m n), (Nat.eqb_spec m 1), (Nat.eqb_spec n 1);
    try reflexivity; exfalso; apply H; auto.
Qed.

Lemma compatible_dec (m n : nat) : {compatible m n} + {~ compatible m n}.
Proof.
  unfold compatible.
  destruct (Nat.eq_dec m n), (Nat.eq_dec m 1), (Nat.eq_dec n 1); auto.
  right. intros [H|[H|H]]; contradiction.
Qed.

Lemma stretch_length {A : Type} (n : nat) (l : list A) :
  length l = n \/ length l = 1 -> length (stretch n l) = n.
Proof.
  intros [H|H].
  - now rewrite stretch_same.
  - destruct l as [|x [|y l]]; simpl in H; try lia. simpl. apply repeat_length.
Qed.

Lemma stretch_In {A : Type} (n : nat) (l : list A) (x : A) :
  In x (stretch n l) -> In x l.
Proof.
  destruct l as [|y [|z l]]; simpl; trivial.
  intros H. apply repeat_spec in H. now left.
Qed.

Lemma rect_broadcast_to (h w H W : nat) (a : ndarray) :
  rect h w a -> h = H \/ h = 1 -> w = W \/ w = 1 -> rect H W (broadcast_to H W a).
Proof.
  intros [Hlen Hrows] Hh Hw. unfold broadcast_to. split.
  - rewrite length_map. apply stretch_length. lia.
  - apply Forall_map, Forall_forall. intros r Hr. apply stretch_In in Hr.
    rewrite Forall_forall in Hrows. apply stretch_length.
    rewrite (Hrows r Hr). lia.
Qed.

Lemma broadcast_extent_cases (m n : nat) :
  compatible m n ->
  (m = broadcast_extent m n \/ m = 1) /\ (n = broadcast_extent m n \/ n = 1).
Proof.
  unfold compatible, broadcast_extent.
  destruct (Nat.eqb_spec m 1); lia.
Qed.

(** [broadcast2] raises exactly on incompatible shapes, and otherwise
    returns an array of the broadcast shape. *)
Lemma broadcast2_spec (f : float -> float -> float) (ha wa hb wb : nat) (a b : ndarray) :
  rect ha wa a -> rect hb wb b -> 0 < ha -> 0 < hb ->
  (compatible ha hb /\ compatible wa wb ->
   exists r, broadcast2 f a b = Returns r /\
             rect (broadcast_extent ha hb) (broadcast_extent wa wb) r) /\
  (~ (compatible ha hb /\ compatible wa wb) -> broadcast2 f a b = Raises ValueError).
Proof.
  intros Ha Hb Hha Hhb. unfold broadcast2.
  rewrite (rect_shape ha wa a), (rect_shape hb wb b) by assumption. simpl.
  split.
  - intros [Hh Hw].
    rewrite (broadcast_dim_compatible _ _ Hh), (broadcast_dim_compatible _ _ Hw).
    eexists. split; [reflexivity|].
    destruct (broadcast_extent_cases _ _ Hh), (broadcast_extent_cases _ _ Hw).
    apply rect_ufunc2; eapply rect_broadcast_to; eassumption.
  - intros Hn.
    destruct (compatible_dec ha hb) as [Hh|Hh].
    + rewrite (broadcast_dim_compatible _ _ Hh).
      rewrite broadcast_dim_incompatible; [reflexivity|tauto].
    + now rewrite broadcast_dim_incompatible.
Qed.

Lemma compatible_sym (m n : nat) : compatible m n -> compatible n m.
Proof. unfold compatible. lia. Qed.

Lemma broadcast_extent_sym (m n : nat) :
  compatible m n -> broadcast_extent n m = broadcast_extent m n.
Proof.
  unfold compatible, broadcast_extent.
  destruct (Nat.eqb_spec m 1), (Nat.eqb_spec n 1); lia.
Qed.

(** *** Filters along the lines *)

Lemma length_column (h w : nat) (a : ndarray) (j : nat) :
  rect h w a -> length (column a j) = h.
Proof.
  intros Ha. unfold column. now rewrite length_map, length_seq, (rect_height h w).
Qed.

Lemma nth_column (h w : nat) (a : ndarray) (i j : nat) :
  rect h w a -> i < h -> nth i (column a j) 0%float = getitem a i j.
Proof.
  intros Ha Hi. unfold column. rewrite (rect_height h w) by assumption.
  now rewrite nth_map_seq.
Qed.

Lemma rect_lines_axis0 (f : list float -> list float) (h w : nat) (a : ndarray) :
  rect h w a -> rect h w (lines_axis0 f a).
Proof.
  intros Ha. unfold lines_axis0. rewrite (rect_height h w) by assumption.
  split; [now rewrite length_map, length_seq|].
  apply Forall_map, Forall_forall. intros i Hi. apply in_seq in Hi.
  rewrite !length_map, length_seq.
  now rewrite (rect_shape h w) by (assumption || lia).
Qed.

Lemma getitem_lines_axis0 (f : list float -> list float) (h w : nat) (a : ndarray)
  (i j : nat) :
  rect h w a -> i < h -> j < w ->
  getitem (lines_axis0 f a) i j = nth i (f (column a j)) 0%float.
Proof.
  intros Ha Hi Hj. unfold getitem at 1, lines_axis0.
  rewrite (rect_shape h w) by (assumption || lia). simpl fst; simpl snd.
  rewrite nth_map_seq by assumption. rewrite map_map.
  now rewrite nth_map_seq by assumption.
Qed.

Lemma rect_lines_axis1 (f : list float -> list float) (h w : nat) (a : ndarray) :
  (forall l, length (f l) = length l) -> rect h w a -> rect h w (lines_axis1 f a).
Proof.
  intros Hf [Hlen Hrows]. unfold lines_axis1. split; [now rewrite length_map|].
  apply Forall_map. eapply Forall_impl; [|exact Hrows].
  intros r Hr. simpl. now rewrite Hf.
Qed.

Lemma getitem_lines_axis1 (f : list float -> list float) (h w : nat) (a : ndarray)
  (i j : nat) :
  rect h w a -> i < h ->
  getitem (lines_axis1 f a) i j = nth j (f (nth i a [])) 0%float.
Proof.
  intros Ha Hi. unfold getitem, lines_axis1.
  rewrite (nth_indep _ [] (f [])) by (rewrite length_map; destruct Ha; lia).
  now rewrite map_nth.
Qed.

Lemma rect_separable (f : nat -> list float -> list float) (size : nat * nat)
  (h w : nat) (a : ndarray) :
  (forall s l, 1 < s -> length (f s l) = length l) ->
  rect h w a -> rect h w (separable f size a).
Proof.
  intros Hf Ha. unfold separable.
  destruct (Nat.ltb_spec 1 (fst size)), (Nat.ltb_spec 1 (snd size));
    repeat first [ assumption | apply rect_lines_axis0
                 | apply rect_lines_axis1; [intros l; now apply Hf|] ].
Qed.

(** A separable filter each of whose output samples is a sample of its line
    gives samples of the array. *)
Lemma separable_pick (f : nat -> list float -> list float) (size : nat * nat)
  (h w : nat) (a : ndarray) (i j : nat) :
  (forall s l o, 1 < s -> o < length l ->
     exists p, p < length l /\ nth o (f s l) 0%float = nth p l 0%float) ->
  rect h w a -> i < h -> j < w ->
  exists i' j', i' < h /\ j' < w /\
    getitem (separable f size a) i j = getitem a i' j'.
Proof.
  intros Hf Ha Hi Hj.
  assert (H0 : forall s, 1 < s ->
            exists i', i' < h /\ getitem (lines_axis0 (f s) a) i j = getitem a i' j).
  { intros s Hs. rewrite (getitem_lines_axis0 _ h w) by assumption.
    destruct (Hf s (column a j) i Hs) as (p & Hp & E);
      [now rewrite (length_column h w)|].
    rewrite (length_column h w) in Hp by assumption.
    exists p. split; [assumption|]. rewrite E. now apply (nth_column h w). }
  assert (H1 : forall s b, 1 < s -> rect h w b ->
            exists j', j' < w /\ getitem (lines_axis1 (f s) b) i j = getitem b i j').
  { intros s b Hs Hb. rewrite (getitem_lines_axis1 _ h w) by assumption.
    destruct (Hf s (nth i b []) j Hs) as (p & Hp & E);
      [now rewrite (rect_row h w)|].
    rewrite (rect_row h w) in Hp by assumption.
    exists p. split; [assumption|]. exact E. }
  unfold separable.
  destruct (Nat.ltb_spec 1 (fst size)) as [S0|S0];
    destruct (Nat.ltb_spec 1 (snd size)) as [S1|S1].
  - destruct (H1 (snd size) (lines_axis0 (f (fst size)) a) S1) as (j' & Hj' & E1);
      [now apply rect_lines_axis0|].
    rewrite E1. rewrite (getitem_lines_axis0 _ h w) by assumption.
    destruct (Hf (fst size) (column a j') i S0) as (p & Hp & E);
      [now rewrite (length_column h w)|].
    rewrite (length_column h w) in Hp by assumption.
    exists p, j'. repeat split; trivial. rewrite E. now apply (nth_column h w).
  - destruct (H0 (fst size) S0) as (i' & Hi' & E). exists i', j. auto.
  - destruct (H1 (snd size) a S1 Ha) as (j' & Hj' & E). exists i, j'. auto.
  - exists i, j. auto.
Qed.

Lemma min_or_max_sample (minimum : bool) (origin : nat -> Z) (s : nat)
  (l : list float) (o : nat) :
  1 < s -> o < length l ->
  exists p, p < length l /\
    nth o (min_or_max_filter1d minimum s (origin s) l) 0%float = nth p l 0%float.
Proof.
  intros Hs Ho.
  destruct (min_or_max_pick minimum s (origin s) l o) as (k & _ & E); [lia|assumption|].
  eexists. split; [|exact E]. apply reflect_lt. lia.
Qed.

Lemma all_pixels_getitem (p : float -> bool) (h w : nat) (a : ndarray) (i j : nat) :
  rect h w a -> all_pixels p a = true -> i < h -> j < w -> p (getitem a i j) = true.
Proof.
  intros Ha Hall Hi Hj. unfold all_pixels in Hall.
  rewrite forallb_forall in Hall.
  assert (Hrow : In (nth i a []) a) by (apply nth_In; destruct Ha; lia).
  specialize (Hall _ Hrow). rewrite forallb_forall in Hall.
  apply Hall, nth_In. now rewrite (rect_row h w).
Qed.

Lemma all_pixels_full (p : float -> bool) (h w : nat) (v : float) :
  p v = true -> all_pixels p (full h w v) = true.
Proof.
  intros Hv. unfold all_pixels, full.
  apply forallb_forall. intros r Hr. apply repeat_spec in Hr. subst r.
  apply forallb_forall. intros x Hx. apply repeat_spec in Hx. now subst x.
Qed.

(** *** The notebook's array expressions keep the shape *)

Lemma rect_uniform_filter (size : nat * nat) (h w : nat) (a : ndarray) :
  rect h w a -> rect h w (uniform_filter a size).
Proof. apply rect_separable. intros s l _. apply length_uniform_filter1d. Qed.

Lemma uniform_filter_one (a : ndarray) : uniform_filter a (1, 1) = a.
Proof. reflexivity. Qed.

Lemma rect_grey_opening (size : nat * nat) (h w : nat) (a : ndarray) :
  rect h w a -> rect h w (grey_opening a size).
Proof.
  intros Ha. unfold grey_opening, grey_dilation, grey_erosion.
  do 2 (apply rect_separable;
        [intros s l Hs; apply length_min_or_max_filter1d; lia|]).
  assumption.
Qed.

Lemma rect_np_square (h w : nat) (a : ndarray) : rect h w a -> rect h w (np_square a).
Proof. apply rect_ufunc1. Qed.

Lemma rect_lee_variance (size h w : nat) (img : ndarray) :
  rect h w img -> rect h w (lee_variance img size).
Proof.
  intros Ha. unfold lee_variance.
  auto using rect_ufunc2, rect_uniform_filter, rect_np_square.
Qed.

Lemma rect_lee_weights (size h w : nat) (img : ndarray) :
  rect h w img -> rect h w (lee_weights img size).
Proof. intros Ha. unfold lee_weights. auto using rect_ufunc1, rect_lee_variance. Qed.

Lemma rect_lee_filter (size h w : nat) (img : ndarray) :
  rect h w img -> rect h w (lee_filter img size).
Proof.
  intros Ha. unfold lee_filter.
  auto using rect_ufunc2, rect_uniform_filter, rect_lee_weights.
Qed.

(** One sample of [lee_filter], in the terms of its source. *)
Lemma getitem_lee_filter (size h w : nat) (img : ndarray) (i j : nat) :
  rect h w img -> i < h -> j < w ->
  let m := getitem (uniform_filter img (size, size)) i j in
  let v := getitem (lee_variance img size) i j in
  getitem (lee_weights img size) i j = (v / (v + variance img))%float /\
  getitem (lee_filter img size) i j =
    (m + v / (v + variance img) * (getitem img i j - m))%float.
Proof.
  intros Ha Hi Hj m v.
  assert (Hw : getitem (lee_weights img size) i j = (v / (v + variance img))%float).
  { unfold lee_weights.
    now rewrite (getitem_ufunc1 _ h w) by auto using rect_lee_variance. }
  split; [exact Hw|]. unfold lee_filter.
  rewrite (getitem_ufunc2 _ h w)
    by auto using rect_ufunc2, rect_uniform_filter, rect_lee_weights.
  rewrite (getitem_ufunc2 _ h w)
    by auto using rect_ufunc2, rect_uniform_filter, rect_lee_weights.
  rewrite (getitem_ufunc2 _ h w) by auto using rect_uniform_filter.
  now rewrite Hw.
Qed.

Lemma getitem_lee_variance_one (h w : nat) (img : ndarray) (i j : nat) :
  rect h w img -> i < h -> j < w ->
  getitem (lee_variance img 1) i j =
    (getitem img i j * getitem img i j - getitem img i j * getitem img i j)%float.
Proof.
  intros Ha Hi Hj. unfold lee_variance. rewrite !uniform_filter_one.
  rewrite (getitem_ufunc2 _ h w) by auto using rect_np_square.
  unfold np_square. now rewrite (getitem_ufunc1 _ h w) by assumption.
Qed.

Lemma rect_mask_nodata (nd : option float) (h w : nat) (img : ndarray) :
  rect h w img -> rect h w (mask_nodata nd img).
Proof. destruct nd; simpl; auto using rect_ufunc1. Qed.

Lemma rect_clipped_read (FILTSIZE h w : nat) (ft : feature) :
  rect h w (band ft) -> rect h w (clipped_read FILTSIZE ft).
Proof. intros H. unfold clipped_read. auto using rect_lee_filter, rect_mask_nodata. Qed.

Lemma rect_binarize (THRSET : float) (h w : nat) (dIx : ndarray) :
  rect h w dIx -> rect h w (binarize THRSET dIx).
Proof. intros H. unfold binarize, masked_assign. auto using rect_ufunc1. Qed.

Lemma rect_clean (MORPHWINSIZE h w : nat) (dIx : ndarray) :
  rect h w dIx -> rect h w (clean MORPHWINSIZE dIx).
Proof. apply rect_grey_opening. Qed.

Lemma getitem_binarize (THRSET : float) (h w : nat) (dIx : ndarray) (i j : nat) :
  rect h w dIx -> i < h -> j < w ->
  let thr := threshold THRSET dIx in
  let x := getitem dIx i j in
  let x1 := if (x <? thr)%float then 0%float else x in
  getitem (binarize THRSET dIx) i j = if (thr <? x1)%float then 1%float else x1.
Proof.
  intros Ha Hi Hj. unfold binarize, masked_assign.
  rewrite (getitem_ufunc1 _ h w) by auto using rect_ufunc1.
  now rewrite (getitem_ufunc1 _ h w) by assumption.
Qed.

(** *** Constant arrays *)

Lemma ravel_full (h w : nat) (v : float) : ravel (full h w v) = repeat v (h * w).
Proof.
  unfold ravel, full. induction h as [|h IH]; simpl; trivial.
  now rewrite IH, repeat_app.
Qed.

Lemma count_valid_zeros (n : nat) : count_valid (repeat 0%float n) = n.
Proof.
  unfold count_valid. induction n as [|n IH]; simpl; trivial.
  change (np_isnan 0) with false. simpl. now rewrite IH.
Qed.

Lemma nanmean_zeros (h w : nat) :
  0 < h * w -> (Z.of_nat (h * w) < 2 ^ 63)%Z -> nanmean (zeros h w) = 0%float.
Proof.
  intros Hpos Hlt. unfold nanmean, zeros.
  rewrite ravel_full, count_valid_zeros, map_repeat.
  change (nan_to_zero 0) with 0%float. rewrite Sums.np_sum_zeros.
  now apply IEEE.zero_div_positive, IEEE.of_count_positive.
Qed.

Lemma nanstd_zeros (h w : nat) :
  0 < h * w -> (Z.of_nat (h * w) < 2 ^ 63)%Z -> nanstd (zeros h w) = 0%float.
Proof.
  intros Hpos Hlt. unfold nanstd, nanvar, zeros.
  rewrite ravel_full, count_valid_zeros, !map_repeat.
  destruct (Nat.eqb_spec (h * w) 0) as [E|_]; [lia|].
  change (nan_to_zero 0) with 0%float. rewrite Sums.np_sum_zeros.
  rewrite (IEEE.zero_div_positive (of_count (h * w)))
    by now apply IEEE.of_count_positive.
  change (if np_isnan 0 then 0%float else (0 - 0)%float) with 0%float.
  change (0 * 0)%float with 0%float.
  rewrite Sums.np_sum_zeros.
  rewrite (IEEE.zero_div_positive (of_count (h * w)))
    by now apply IEEE.of_count_positive.
  reflexivity.
Qed.

Lemma threshold_zeros (THRSET : float) (h w : nat) :
  np_isfinite THRSET = true ->
  0 < h * w -> (Z.of_nat (h * w) < 2 ^ 63)%Z ->
  threshold THRSET (zeros h w) = 0%float.
Proof.
  intros Ht Hpos Hlt. unfold threshold.
  rewrite nanmean_zeros, nanstd_zeros by assumption.
  now apply IEEE.zero_plus_finite_times_zero.
Qed.

(** *** The opening of a constant array *)

(** Every sample of the opened array is a sample of the array. *)
Lemma grey_opening_sample (size : nat * nat) (h w : nat) (a : ndarray) (i j : nat) :
  rect h w a -> i < h -> j < w ->
  exists i' j', i' < h /\ j' < w /\
    getitem (grey_opening a size) i j = getitem a i' j'.
Proof.
  intros Ha Hi Hj. unfold grey_opening, grey_dilation.
  destruct (separable_pick (fun s => min_or_max_filter1d false s (dilation_origin s))
              size h w (grey_erosion a size) i j) as (i1 & j1 & Hi1 & Hj1 & E1);
    try assumption.
  { intros s l o. apply (min_or_max_sample false dilation_origin). }
  { unfold grey_erosion. apply rect_separable; [|assumption].
    intros s l Hs. apply length_min_or_max_filter1d. lia. }
  destruct (separable_pick (fun s => min_or_max_filter1d true s 0)
              size h w a i1 j1) as (i2 & j2 & Hi2 & Hj2 & E2); try assumption.
  { intros s l o. apply (min_or_max_sample true (fun _ => 0%Z)). }
  exists i2, j2. repeat split; trivial. rewrite E1. exact E2.
Qed.

Lemma grey_opening_full (size : nat * nat) (h w : nat) (v : float) :
  grey_opening (full h w v) size = full h w v.
Proof.
  apply full_ext; [apply rect_grey_opening, rect_full|].
  intros i j Hi Hj.
  destruct (grey_opening_sample size h w (full h w v) i j (rect_full h w v) Hi Hj)
    as (i' & j' & Hi' & Hj' & E).
  rewrite E. now apply getitem_full.
Qed.

Lemma binarize_zeros (THRSET : float) (h w : nat) :
  threshold THRSET (zeros h w) = 0%float ->
  binarize THRSET (zeros h w) = zeros h w.
Proof.
  unfold zeros. intros Hthr. apply full_ext; [apply rect_binarize, rect_full|].
  intros i j Hi Hj.
  rewrite (getitem_binarize THRSET h w) by auto using rect_full.
  rewrite getitem_full by assumption.
  now rewrite Hthr.
Qed.

(** *** Samples of the flattened array *)

Lemma In_ravel (h w : nat) (a : ndarray) (i j : nat) :
  rect h w a -> i < h -> j < w -> In (getitem a i j) (ravel a).
Proof.
  intros Ha Hi Hj. unfold ravel. apply in_concat. exists (nth i a []). split.
  - apply nth_In. destruct Ha; lia.
  - apply nth_In. now rewrite (rect_row h w).
Qed.

Lemma length_ravel (h w : nat) (a : ndarray) : rect h w a -> length (ravel a) = h * w.
Proof.
  intros [Hlen Hrows]. subst h. unfold ravel.
  induction a as [|r a IH]; simpl; trivial.
  inversion Hrows; subst. rewrite length_app, IH by assumption. reflexivity.
Qed.

(** *** A NaN sample in the speckle filter *)

Lemma variance_nan (a : ndarray) : In nan (ravel a) -> variance a = nan.
Proof.
  intros H. unfold variance, np_mean.
  rewrite (Sums.np_sum_nan _ H), IEEE.div_nan_l.
  rewrite Sums.np_sum_nan; [apply IEEE.div_nan_l|].
  rewrite map_map. apply in_map_iff. exists nan. split; [reflexivity|assumption].
Qed.

Lemma lee_filter_nan (size h w : nat) (img : ndarray) (i0 j0 : nat) :
  rect h w img -> i0 < h -> j0 < w -> np_isnan (getitem img i0 j0) = true ->
  lee_filter img size = full h w nan.
Proof.
  intros Ha Hi Hj Hn. apply IEEE.isnan_true in Hn.
  assert (Hv : variance img = nan).
  { apply variance_nan. rewrite <- Hn. now apply (In_ravel h w). }
  apply full_ext; [now apply rect_lee_filter|].
  intros i j Hi' Hj'.
  pose proof (getitem_lee_filter size h w img i j Ha Hi' Hj') as H.
  cbv zeta in H. destruct H as [_ E]. rewrite E, Hv.
  now rewrite IEEE.add_nan_r, IEEE.div_nan_r, IEEE.mul_nan_l, IEEE.add_nan_r.
Qed.

Lemma getitem_mask_nodata (nd : option float) (h w : nat) (img : ndarray) (i j : nat) :
  rect h w img -> i < h -> j < w ->
  getitem (mask_nodata nd img) i j =
    match nd with
    | Some v => if (getitem img i j =? v)%float then 0%float else getitem img i j
    | None => getitem img i j
    end.
Proof.
  intros Ha Hi Hj. destruct nd as [v|]; [|reflexivity].
  unfold mask_nodata. now rewrite (getitem_ufunc1 _ h w).
Qed.

Lemma mask_nodata_keeps_nan (nd : option float) (h w : nat) (img : ndarray) (i j : nat) :
  rect h w img -> i < h -> j < w -> np_isnan (getitem img i j) = true ->
  np_isnan (getitem (mask_nodata nd img) i j) = true.
Proof.
  intros Ha Hi Hj Hn. rewrite (getitem_mask_nodata nd h w) by assumption.
  destruct nd as [v|]; [|assumption].
  now rewrite (IEEE.eqb_nan_l _ v Hn).
Qed.

(** *** Constant arrays through the filter *)

Lemma ufunc1_full (f : float -> float) (h w : nat) (v : float) :
  ufunc1 f (full h w v) = full h w (f v).
Proof. unfold ufunc1, full. now rewrite !map_repeat. Qed.

Lemma ufunc2_full (f : float -> float -> float) (h w : nat) (u v : float) :
  ufunc2 f (full h w u) (full h w v) = full h w (f u v).
Proof.
  apply full_ext; [auto using rect_ufunc2, rect_full|].
  intros i j Hi Hj.
  rewrite (getitem_ufunc2 _ h w), !getitem_full; auto using rect_full.
Qed.

Lemma column_full (h w : nat) (v : float) (j : nat) :
  j < w -> column (full h w v) j = repeat v h.
Proof.
  intros Hj. unfold column.
  rewrite (rect_height h w) by apply rect_full.
  rewrite (map_const _ v), length_seq; [reflexivity|].
  intros i Hi. apply in_seq in Hi. apply getitem_full; lia.
Qed.

Lemma lines_axis0_full (f : list float -> list float) (h w : nat) (v : float) :
  f (repeat v h) = repeat v h -> lines_axis0 f (full h w v) = full h w v.
Proof.
  intros Hf. apply full_ext; [apply rect_lines_axis0, rect_full|].
  intros i j Hi Hj.
  rewrite (getitem_lines_axis0 _ h w) by auto using rect_full.
  rewrite column_full, Hf by assumption. now apply nth_repeat_lt.
Qed.

Lemma lines_axis1_full (f : list float -> list float) (h w : nat) (v : float) :
  f (repeat v w) = repeat v w -> lines_axis1 f (full h w v) = full h w v.
Proof.
  intros Hf. unfold lines_axis1, full. now rewrite map_repeat, Hf.
Qed.

Lemma uniform_filter_zeros (size h w : nat) :
  (Z.of_nat size < 2 ^ 63)%Z ->
  uniform_filter (full h w 0%float) (size, size) = full h w 0%float.
Proof.
  intros Hlt. unfold uniform_filter, separable. simpl fst; simpl snd.
  destruct (Nat.ltb_spec 1 size) as [Hs|Hs]; [|reflexivity].
  rewrite lines_axis0_full by (apply uniform_filter1d_zeros; lia).
  apply lines_axis1_full. apply uniform_filter1d_zeros; lia.
Qed.

Lemma variance_zeros (h w : nat) :
  0 < h * w -> (Z.of_nat (h * w) < 2 ^ 63)%Z -> variance (full h w 0%float) = 0%float.
Proof.
  intros Hpos Hlt. unfold variance, np_mean.
  rewrite ravel_full, repeat_length, Sums.np_sum_zeros.
  rewrite (IEEE.zero_div_positive (of_count (h * w)))
    by now apply IEEE.of_count_positive.
  rewrite !map_repeat.
  change ((0 - 0) * (0 - 0))%float with 0%float. rewrite Sums.np_sum_zeros.
  now apply IEEE.zero_div_positive, IEEE.of_count_positive.
Qed.

(** A raster of zeros, as nodata leaves it, is filtered to NaN: local and
    overall variance are both zero. *)
Lemma lee_filter_zeros (size h w : nat) :
  0 < h * w -> (Z.of_nat (h * w) < 2 ^ 63)%Z -> (Z.of_nat size < 2 ^ 63)%Z ->
  lee_filter (full h w 0%float) size = full h w nan.
Proof.
  intros Hpos Hlt Hs. unfold lee_filter, lee_weights, lee_variance, np_square.
  rewrite variance_zeros by assumption.
  rewrite ufunc1_full. change (0 * 0)%float with 0%float.
  rewrite uniform_filter_zeros by assumption.
  rewrite ufunc1_full. change (0 * 0)%float with 0%float.
  rewrite !ufunc2_full, ufunc1_full, !ufunc2_full.
  reflexivity.
Qed.

(** *** NaN maps *)

Lemma binarize_full_nan (THRSET : float) (h w : nat) :
  binarize THRSET (full h w nan) = full h w nan.
Proof.
  apply full_ext; [apply rect_binarize, rect_full|].
  intros i j Hi Hj.
  rewrite (getitem_binarize THRSET h w) by auto using rect_full.
  rewrite getitem_full by assumption.
  now rewrite IEEE.ltb_nan_l, IEEE.ltb_nan_r.
Qed.

Lemma ufunc2_add_nan_l (h w : nat) (m : ndarray) :
  rect h w m -> ufunc2 PrimFloat.add (full h w nan) m = full h w nan.
Proof.
  intros Hm. apply full_ext; [auto using rect_ufunc2, rect_full|].
  intros i j Hi Hj.
  rewrite (getitem_ufunc2 _ h w), getitem_full; auto using rect_full.
  apply IEEE.add_nan_l.
Qed.

Lemma ufunc2_add_nan_r (h w : nat) (m : ndarray) :
  rect h w m -> ufunc2 PrimFloat.add m (full h w nan) = full h w nan.
Proof.
  intros Hm. apply full_ext; [auto using rect_ufunc2, rect_full|].
  intros i j Hi Hj.
  rewrite (getitem_ufunc2 _ h w), getitem_full; auto using rect_full.
  apply IEEE.add_nan_r.
Qed.

(** *** The statistics of a map with an infinite sample *)

Lemma count_valid_pos (l : list float) (x : float) :
  In x l -> np_isnan x = false -> 0 < count_valid l.
Proof.
  intros Hin Hx. unfold count_valid.
  assert (H : In x (filter (fun x => negb (np_isnan x)) l))
    by (apply filter_In; split; [assumption|now rewrite Hx]).
  destruct (filter _ l); [contradiction|simpl; lia].
Qed.

Lemma count_valid_le (l : list float) : count_valid l <= length l.
Proof. apply filter_length_le. Qed.

Lemma nanstd_infinite (s : bool) (a : ndarray) (x : float) :
  In x (ravel a) -> Prim2SF x = S754_infinity s ->
  (Z.of_nat (length (ravel a)) < 2 ^ 63)%Z ->
  nanstd a = nan.
Proof.
  intros Hin Hx Hlt.
  pose proof (IEEE.isnan_infinity s x Hx) as Hnan.
  pose proof (count_valid_pos _ _ Hin Hnan) as Hpos.
  pose proof (count_valid_le (ravel a)) as Hle.
  assert (Hx0 : nan_to_zero x = x) by (unfold nan_to_zero; now rewrite Hnan).
  unfold nanstd, nanvar.
  destruct (Nat.eqb_spec (count_valid (ravel a)) 0) as [E|_]; [lia|].
  set (avg := (np_sum (map nan_to_zero (ravel a)) / of_count (count_valid (ravel a)))%float).
  assert (Havg : nan_or_signed_inf s (Prim2SF avg)).
  { apply IEEE.div_signed_inf; [|apply IEEE.of_count_positive; lia].
    apply (Sums.np_sum_signed_inf s _ x); [|assumption].
    rewrite <- Hx0. now apply in_map. }
  rewrite Sums.np_sum_nan; [now rewrite IEEE.div_nan_l|].
  rewrite map_map. apply in_map_iff. exists x. split; [|assumption].
  rewrite Hnan, Hx0. now rewrite (IEEE.sub_signed_inf s x avg).
Qed.

Lemma binarize_nan_threshold (THRSET : float) (h w : nat) (dIx : ndarray) :
  rect h w dIx -> threshold THRSET dIx = nan -> binarize THRSET dIx = dIx.
Proof.
  intros Hr Hthr. apply (rect_ext h w); [now apply rect_binarize|assumption|].
  intros i j Hi Hj.
  rewrite (getitem_binarize THRSET h w) by assumption.
  now rewrite Hthr, IEEE.ltb_nan_r, IEEE.ltb_nan_l.
Qed.

(** *** An infinite sample, and the in-place addition *)

Lemma binarize_infinite (s : bool) (THRSET : float) (h w : nat) (dIx : ndarray)
  (i0 j0 : nat) :
  rect h w dIx -> i0 < h -> j0 < w -> (Z.of_nat (h * w) < 2 ^ 63)%Z ->
  Prim2SF (getitem dIx i0 j0) = S754_infinity s ->
  threshold THRSET dIx = nan /\ binarize THRSET dIx = dIx.
Proof.
  intros Hr Hi Hj Hlt Hinf.
  assert (Hstd : nanstd dIx = nan).
  { apply (nanstd_infinite s dIx (getitem dIx i0 j0)).
    - now apply (In_ravel h w).
    - assumption.
    - now rewrite (length_ravel h w). }
  assert (Hthr : threshold THRSET dIx = nan).
  { unfold threshold. now rewrite Hstd, IEEE.mul_nan_r, IEEE.add_nan_r. }
  split; [exact Hthr|]. now apply (binarize_nan_threshold THRSET h w).
Qed.

(** [cd += dIx] succeeds exactly when [dIx] broadcasts to the shape of [cd]. *)
Lemma np_iadd_spec (c d : ndarray) (hc wc hd wd : nat) :
  rect hc wc c -> rect hd wd d -> 0 < hc -> 0 < hd ->
  ((hd = hc \/ hd = 1) /\ (wd = wc \/ wd = 1) ->
   exists r, np_iadd c d = Returns r /\ rect hc wc r) /\
  (~ ((hd = hc \/ hd = 1) /\ (wd = wc \/ wd = 1)) ->
   np_iadd c d = Raises ValueError).
Proof.
  intros Rc Rd Hc Hd. unfold np_iadd.
  destruct (broadcast2_spec PrimFloat.add hc wc hd wd c d Rc Rd Hc Hd) as [Hok Hbad].
  split.
  - intros [Hh Hw].
    destruct Hok as (r & Er & Rr); [unfold compatible; lia|].
    assert (Eh : broadcast_extent hc hd = hc)
      by (unfold broadcast_extent; destruct (Nat.eqb_spec hc 1); lia).
    assert (Ew : broadcast_extent wc wd = wc)
      by (unfold broadcast_extent; destruct (Nat.eqb_spec wc 1); lia).
    rewrite Eh, Ew in Rr. rewrite Er. cbn [bind].
    rewrite (rect_shape hc wc r), (rect_shape hc wc c) by assumption.
    unfold shape_eqb. simpl. rewrite !Nat.eqb_refl. simpl. eauto.
  - intros Hn.
    destruct (compatible_dec hc hd) as [Ch|Ch];
      [destruct (compatible_dec wc wd) as [Cw|Cw]|].
    + destruct Hok as (r & Er & Rr); [now split|].
      rewrite Er. cbn [bind].
      assert (Hpos : 0 < broadcast_extent hc hd)
        by (unfold broadcast_extent; destruct (Nat.eqb_spec hc 1); lia).
      rewrite (rect_shape _ _ r Rr Hpos), (rect_shape hc wc c) by assumption.
      unfold shape_eqb. simpl.
      destruct (Nat.eqb_spec (broadcast_extent hc hd) hc) as [Eh|Eh];
        destruct (Nat.eqb_spec (broadcast_extent wc wd) wc) as [Ew|Ew];
        simpl; try reflexivity.
      exfalso. apply Hn. unfold compatible, broadcast_extent in *.
      destruct (Nat.eqb_spec hc 1), (Nat.eqb_spec wc 1); lia.
    + rewrite Hbad by tauto. reflexivity.
    + rewrite Hbad by tauto. reflexivity.
Qed.

End Arrays.

(** * The grey opening *)

Module Opening.

Import Lines.
Import Arrays.

(** *** Reflection at the border *)

Lemma reflect_direct (n : nat) (p : nat) (i z : Z) :
  p < n -> (i = Z.of_nat p + 2 * Z.of_nat n * z)%Z -> reflect n i = p.
Proof.
  intros Hp Hi. unfold reflect.
  assert (Hm : (i mod (2 * Z.of_nat n) = Z.of_nat p)%Z).
  { symmetry. apply (Z.mod_unique _ _ z); lia. }
  rewrite Hm. destruct (Z.ltb_spec (Z.of_nat p) (Z.of_nat n)); lia.
Qed.

Lemma reflect_mirror (n : nat) (p : nat) (i z : Z) :
  p < n -> (i = - 1 - Z.of_nat p + 2 * Z.of_nat n * z)%Z -> reflect n i = p.
Proof.
  intros Hp Hi. unfold reflect.
  assert (Hm : (i mod (2 * Z.of_nat n) = 2 * Z.of_nat n - 1 - Z.of_nat p)%Z).
  { symmetry. apply (Z.mod_unique _ _ (z - 1)); lia. }
  rewrite Hm.
  destruct (Z.ltb_spec (2 * Z.of_nat n - 1 - Z.of_nat p) (Z.of_nat n)); lia.
Qed.

Lemma reflect_inv (n : nat) (i : Z) :
  0 < n ->
  reflect n i < n /\
  exists z : Z,
    (i = Z.of_nat (reflect n i) + 2 * Z.of_nat n * z \/
     i = - 1 - Z.of_nat (reflect n i) + 2 * Z.of_nat n * z)%Z.
Proof.
  intros Hn. unfold reflect.
  pose proof (Z.mod_pos_bound i (2 * Z.of_nat n) ltac:(lia)) as Hm.
  pose proof (Z.div_mod i (2 * Z.of_nat n) ltac:(lia)) as Hd.
  destruct (Z.ltb_spec (i mod (2 * Z.of_nat n)) (Z.of_nat n)).
  - split; [lia|]. exists (i / (2 * Z.of_nat n))%Z. left. lia.
  - split; [lia|]. exists (i / (2 * Z.of_nat n) + 1)%Z. right. lia.
Qed.

Lemma offsets_In (size : nat) (origin k : Z) :
  In k (offsets size origin) <->
  (- Z.of_nat (size / 2) - origin <= k <= Z.of_nat size - 1 - Z.of_nat (size / 2) - origin)%Z.
Proof.
  unfold offsets. rewrite in_map_iff. split.
  - intros (t & <- & Ht). apply in_seq in Ht. lia.
  - intros Hk. exists (Z.to_nat (k + Z.of_nat (size / 2) + origin)). split; [lia|].
    apply in_seq. lia.
Qed.

Lemma dilation_window (size : nat) (k : Z) :
  In k (offsets size (dilation_origin size)) <-> In (- k)%Z (offsets size 0).
Proof.
  rewrite !offsets_In. unfold dilation_origin.
  destruct (Nat.even size) eqn:E.
  - apply Nat.even_spec in E. destruct E as [m ->].
    replace (2 * m / 2) with m
      by (symmetry; rewrite Nat.mul_comm; apply Nat.div_mul; lia).
    lia.
  - assert (O : Nat.odd size = true) by (now rewrite <- Nat.negb_even, E).
    apply Nat.odd_spec in O. destruct O as [m ->].
    replace ((2 * m + 1) / 2) with m
      by (apply (Nat.div_unique _ 2 m 1); lia).
    lia.
Qed.

(** The window of the erosion around a sample the dilation reads holds the
    sample the dilation writes. *)
Lemma reflect_back (n size p : nat) (k' : Z) :
  p < n -> In k' (offsets size (dilation_origin size)) ->
  exists k, In k (offsets size 0) /\
            reflect n (Z.of_nat (reflect n (Z.of_nat p + k')) + k) = p.
Proof.
  intros Hp Hk'.
  pose proof (proj1 (dilation_window size k') Hk') as Hneg.
  assert (Hhalf : 2 * (size / 2) <= size <= 2 * (size / 2) + 1).
  { pose proof (Nat.div_mod_eq size 2) as Hd.
    pose proof (Nat.mod_upper_bound size 2 ltac:(lia)) as Hm. lia. }
  destruct (reflect_inv n (Z.of_nat p + k') ltac:(lia)) as [Hq (z & Hz)].
  set (q := reflect n (Z.of_nat p + k')) in *.
  destruct Hz as [Hz|Hz].
  - exists (- k')%Z. split; [assumption|]. apply (reflect_direct n p _ (- z)); lia.
  - rewrite offsets_In in Hk', Hneg.
    destruct (Z.le_gt_cases k' (Z.of_nat size - 1 - Z.of_nat (size / 2) - 0)) as [Hle|Hgt].
    + exists k'. split; [apply offsets_In; lia|].
      apply (reflect_mirror n p _ z); lia.
    + destruct (Z.le_gt_cases (Z.of_nat n) k') as [Hbig|Hsmall].
      * exists (k' - 2 * Z.of_nat n)%Z. split; [apply offsets_In; lia|].
        apply (reflect_mirror n p _ (z - 1)); lia.
      * assert (Hz1 : z = 1%Z) by nia. subst z.
        exists (2 * Z.of_nat p + 1 + k' - 2 * Z.of_nat n)%Z.
        split; [apply offsets_In; lia|].
        apply (reflect_direct n p _ 0); lia.
Qed.

(** *** The opening lies below its input *)

(** A filter that picks a sample of its line keeps an array free of NaN. *)
Lemma nonnan_erosion_axis0 (size h w : nat) (a : ndarray) :
  1 < size -> rect h w a -> nonnan h w a ->
  nonnan h w (lines_axis0 (min_or_max_filter1d true size 0) a).
Proof.
  intros Hs Ha Hn i j Hi Hj.
  rewrite (getitem_lines_axis0 _ h w) by assumption.
  destruct (min_or_max_sample true (fun _ => 0%Z) size (column a j) i Hs)
    as (p & Hp & E); [now rewrite (length_column h w)|].
  rewrite (length_column h w) in Hp by assumption.
  simpl in E. rewrite E, (nth_column h w) by assumption. now apply Hn.
Qed.

Lemma nonnan_column (h w : nat) (a : ndarray) (j : nat) :
  rect h w a -> nonnan h w a -> j < w ->
  Forall (fun x => np_isnan x = false) (column a j).
Proof.
  intros Ha Hn Hj. apply Forall_forall. intros x Hx.
  destruct (In_nth _ _ 0%float Hx) as (i & Hi & <-).
  rewrite (length_column h w) in Hi by assumption.
  rewrite (nth_column h w) by assumption. now apply Hn.
Qed.

Lemma nonnan_row (h w : nat) (a : ndarray) (i : nat) :
  rect h w a -> nonnan h w a -> i < h ->
  Forall (fun x => np_isnan x = false) (nth i a []).
Proof.
  intros Ha Hn Hi. apply Forall_forall. intros x Hx.
  destruct (In_nth _ _ 0%float Hx) as (j & Hj & <-).
  rewrite (rect_row h w) in Hj by assumption. now apply Hn.
Qed.

(** The minimum along an axis is below every sample of its window. *)
Lemma erosion_axis0_le (size h w : nat) (a : ndarray) (i j : nat) (k : Z) :
  1 < size -> rect h w a -> nonnan h w a -> i < h -> j < w ->
  In k (offsets size 0) ->
  (getitem (lines_axis0 (min_or_max_filter1d true size 0) a) i j <=?
   getitem a (reflect h (Z.of_nat i + k)) j)%float = true.
Proof.
  intros Hs Ha Hn Hi Hj Hk.
  rewrite (getitem_lines_axis0 _ h w) by assumption.
  pose proof (min_filter_le size 0 (column a j) i k ltac:(lia)
                (nonnan_column h w a j Ha Hn Hj)) as H.
  rewrite (length_column h w) in H by assumption.
  rewrite (nth_column h w) in H by (assumption || apply reflect_lt; lia).
  now apply H.
Qed.

Lemma erosion_axis1_le (size h w : nat) (a : ndarray) (i j : nat) (k : Z) :
  1 < size -> rect h w a -> nonnan h w a -> i < h -> j < w ->
  In k (offsets size 0) ->
  (getitem (lines_axis1 (min_or_max_filter1d true size 0) a) i j <=?
   getitem a i (reflect w (Z.of_nat j + k)))%float = true.
Proof.
  intros Hs Ha Hn Hi Hj Hk.
  rewrite (getitem_lines_axis1 _ h w) by assumption.
  pose proof (min_filter_le size 0 (nth i a []) j k ltac:(lia)
                (nonnan_row h w a i Ha Hn Hi)) as H.
  rewrite (rect_row h w) in H by assumption.
  now apply H.
Qed.

(** The maximum along an axis is one of the samples of its window. *)
Lemma dilation_axis0_pick (size h w : nat) (a : ndarray) (i j : nat) :
  1 < size -> rect h w a -> i < h -> j < w ->
  exists k, In k (offsets size (dilation_origin size)) /\
    getitem (lines_axis0 (min_or_max_filter1d false size (dilation_origin size)) a) i j =
    getitem a (reflect h (Z.of_nat i + k)) j.
Proof.
  intros Hs Ha Hi Hj.
  rewrite (getitem_lines_axis0 _ h w) by assumption.
  destruct (min_or_max_pick false size (dilation_origin size) (column a j) i)
    as (k & Hk & E); [lia|now rewrite (length_column h w)|].
  rewrite (length_column h w) in E by assumption.
  exists k. split; [assumption|]. rewrite E.
  apply (nth_column h w); [assumption|apply reflect_lt; lia].
Qed.

Lemma dilation_axis1_pick (size h w : nat) (a : ndarray) (i j : nat) :
  1 < size -> rect h w a -> i < h -> j < w ->
  exists k, In k (offsets size (dilation_origin size)) /\
    getitem (lines_axis1 (min_or_max_filter1d false size (dilation_origin size)) a) i j =
    getitem a i (reflect w (Z.of_nat j + k)).
Proof.
  intros Hs Ha Hi Hj.
  rewrite (getitem_lines_axis1 _ h w) by assumption.
  destruct (min_or_max_pick false size (dilation_origin size) (nth i a []) j)
    as (k & Hk & E); [lia|now rewrite (rect_row h w)|].
  rewrite (rect_row h w) in E by assumption.
  exists k. split; assumption.
Qed.

Lemma grey_opening_le (size h w : nat) (a : ndarray) (i j : nat) :
  rect h w a -> nonnan h w a -> i < h -> j < w ->
  (getitem (grey_opening a (size, size)) i j <=? getitem a i j)%float = true.
Proof.
  intros Ha Hn Hi Hj.
  unfold grey_opening, grey_dilation, grey_erosion, separable. simpl fst; simpl snd.
  destruct (Nat.ltb_spec 1 size) as [Hs|Hs]; [|now apply IEEE.leb_refl, Hn].
  set (y0 := lines_axis0 (min_or_max_filter1d true size 0) a).
  set (y1 := lines_axis1 (min_or_max_filter1d true size 0) y0).
  set (z0 := lines_axis0 (min_or_max_filter1d false size (dilation_origin size)) y1).
  assert (Hlen : forall m o l, length (min_or_max_filter1d m size o l) = length l)
    by (intros; apply length_min_or_max_filter1d; lia).
  assert (Ry0 : rect h w y0) by now apply rect_lines_axis0.
  assert (Ry1 : rect h w y1) by (apply rect_lines_axis1; [apply Hlen|assumption]).
  assert (Rz0 : rect h w z0) by now apply rect_lines_axis0.
  assert (Ny0 : nonnan h w y0) by now apply nonnan_erosion_axis0.
  destruct (dilation_axis1_pick size h w z0 i j Hs Rz0 Hi Hj) as (k1 & Hk1 & E1).
  rewrite E1. set (j1 := reflect w (Z.of_nat j + k1)).
  assert (Hj1 : j1 < w) by (apply reflect_lt; lia).
  destruct (dilation_axis0_pick size h w y1 i j1 Hs Ry1 Hi Hj1) as (k0 & Hk0 & E0).
  unfold z0. rewrite E0. set (i1 := reflect h (Z.of_nat i + k0)).
  assert (Hi1 : i1 < h) by (apply reflect_lt; lia).
  destruct (reflect_back w size j k1 Hj Hk1) as (c1 & Hc1 & Eb1).
  destruct (reflect_back h size i k0 Hi Hk0) as (c0 & Hc0 & Eb0).
  fold j1 in Eb1. fold i1 in Eb0.
  eapply IEEE.leb_trans.
  - apply (erosion_axis1_le size h w y0 i1 j1 c1); assumption.
  - rewrite Eb1.
    pose proof (erosion_axis0_le size h w a i1 j c0 Hs Ha Hn Hi1 Hj Hc0) as Hle.
    now rewrite Eb0 in Hle.
Qed.

(** *** The opening picks samples *)

Lemma grey_opening_pick (size : nat * nat) (h w : nat) (a : ndarray) (i j : nat) :
  rect h w a -> i < h -> j < w ->
  exists i' j', i' < h /\ j' < w /\
    getitem (grey_opening a size) i j = getitem a i' j'.
Proof. apply grey_opening_sample. Qed.

End Opening.

(** * The pair loop *)

Module Loop.

Import Arrays.

(** *** The pair loop by recursion *)

Lemma bind_returns {A : Type} (m : outcome A) : (x <- m ;; Returns x) = m.
Proof. now destruct m. Qed.

Lemma bind_assoc {A B C : Type} (m : outcome A) (f : A -> outcome B) (g : B -> outcome C) :
  (y <- (x <- m ;; f x) ;; g y) = (x <- m ;; y <- f x ;; g y).
Proof. now destruct m. Qed.

Lemma fold_left_ext_in {A B : Type} (f g : A -> B -> A) (l : list B) : forall a : A,
  (forall acc x, In x l -> f acc x = g acc x) ->
  fold_left f l a = fold_left g l a.
Proof.
  induction l as [|x l IH]; intros a H; simpl; trivial.
  rewrite H by now left. apply IH. intros acc y Hy. apply H. now right.
Qed.

Section Recursion.

Variables (THRSET : float) (MORPHWINSIZE FILTSIZE : nat) (np_log : float -> float).

Let step (features : list feature) (acc : outcome (option ndarray)) (i : nat) :=
  cd <- acc ;; loop_body THRSET MORPHWINSIZE FILTSIZE np_log features cd i.

Lemma loop_from (fts : list feature) : forall (pre : list feature) (acc : outcome (option ndarray)),
  fold_left (step (pre ++ fts)) (seq (length pre) (length fts - 1)) acc =
  (cd <- acc ;; pair_loop THRSET MORPHWINSIZE FILTSIZE np_log (length pre) fts cd).
Proof.
  induction fts as [|ft1 fts IH]; intros pre acc.
  - simpl. now rewrite bind_returns.
  - destruct fts as [|ft2 rest].
    + simpl. now rewrite bind_returns.
    + replace (length (ft1 :: ft2 :: rest) - 1) with (S (length (ft2 :: rest) - 1))
        by (simpl; lia).
      rewrite <- cons_seq. cbn [fold_left].
      replace (pre ++ ft1 :: ft2 :: rest) with ((pre ++ [ft1]) ++ ft2 :: rest)
        by (now rewrite <- app_assoc).
      replace (S (length pre)) with (length (pre ++ [ft1]))
        by (rewrite length_app; simpl; lia).
      rewrite IH. unfold step at 1. rewrite bind_assoc.
      destruct acc as [cd|e]; [|reflexivity]. cbn [bind].
      unfold loop_body.
      rewrite <- app_assoc. cbn [app].
      rewrite nth_error_app2 by lia. rewrite Nat.sub_diag. cbn [nth_error].
      rewrite nth_error_app2 by lia.
      replace (length pre + 1 - length pre) with 1 by lia. cbn [nth_error].
      rewrite length_app. cbn [length]. rewrite Nat.add_1_r. reflexivity.
Qed.

(** The loop of the cell is the recursion on consecutive pairs. *)
Lemma heatmap_pair_loop (features : list feature) :
  heatmap THRSET MORPHWINSIZE FILTSIZE np_log features =
  pair_loop THRSET MORPHWINSIZE FILTSIZE np_log 0 features None.
Proof.
  unfold heatmap. exact (loop_from features [] (Returns None)).
Qed.

(** *** The kernel after the cell *)

Lemma run_body_outcome (features : list feature) (k : kernel) (i : nat) :
  outcome_of (run_body THRSET MORPHWINSIZE FILTSIZE np_log features k i) =
  (cd <- outcome_of k ;; loop_body THRSET MORPHWINSIZE FILTSIZE np_log features cd i).
Proof.
  destruct k as [cd [e|]]; unfold run_body, outcome_of; cbn [raised cd_bound bind];
    [reflexivity|].
  now destruct (loop_body THRSET MORPHWINSIZE FILTSIZE np_log features cd i).
Qed.

Lemma run_fold_outcome (features : list feature) (l : list nat) : forall k : kernel,
  outcome_of (fold_left (run_body THRSET MORPHWINSIZE FILTSIZE np_log features) l k) =
  fold_left (step features) l (outcome_of k).
Proof.
  induction l as [|i l IH]; intros k; [reflexivity|].
  cbn [fold_left]. rewrite IH, run_body_outcome. reflexivity.
Qed.

(** [heatmap] is the fresh run seen from its end. *)
Lemma heatmap_run_cell (features : list feature) :
  heatmap THRSET MORPHWINSIZE FILTSIZE np_log features =
  outcome_of (run_cell THRSET MORPHWINSIZE FILTSIZE np_log None features).
Proof. unfold run_cell. rewrite run_fold_outcome. reflexivity. Qed.

Lemma run_cell_pair_loop (cd0 : option ndarray) (features : list feature) :
  outcome_of (run_cell THRSET MORPHWINSIZE FILTSIZE np_log cd0 features) =
  pair_loop THRSET MORPHWINSIZE FILTSIZE np_log 0 features cd0.
Proof.
  unfold run_cell. rewrite run_fold_outcome.
  exact (loop_from features [] (Returns cd0)).
Qed.

(** Once an exception has ended the cell nothing changes. *)
Lemma run_raised_stays (features : list feature) (l : list nat) (k : kernel) (e : exn) :
  raised k = Some e ->
  fold_left (run_body THRSET MORPHWINSIZE FILTSIZE np_log features) l k = k.
Proof.
  intros Hk. induction l as [|i l IH]; [reflexivity|].
  cbn [fold_left]. unfold run_body at 2. now rewrite Hk.
Qed.

(** The iterations over a prefix of the features read the prefix only. *)
Lemma run_fold_prefix (l1 l2 : list feature) (n : nat) : forall k : kernel,
  S n <= length l1 ->
  fold_left (run_body THRSET MORPHWINSIZE FILTSIZE np_log (l1 ++ l2)) (seq 0 n) k =
  fold_left (run_body THRSET MORPHWINSIZE FILTSIZE np_log l1) (seq 0 n) k.
Proof.
  intros k Hn. apply fold_left_ext_in. intros acc i Hi. apply in_seq in Hi.
  unfold run_body, loop_body.
  now rewrite !nth_error_app1 by lia.
Qed.

End Recursion.

(** *** The pair loop on rasters of one shape *)

Lemma np_iadd_same (h w : nat) (cd dIx : ndarray) :
  rect h w cd -> rect h w dIx -> 0 < h ->
  np_iadd cd dIx = Returns (ufunc2 PrimFloat.add cd dIx).
Proof.
  intros Hc Hd Hh. unfold np_iadd.
  rewrite (broadcast2_same _ h w) by assumption. simpl. unfold shape_eqb.
  rewrite (rect_shape h w (ufunc2 PrimFloat.add cd dIx)) by auto using rect_ufunc2.
  rewrite (rect_shape h w cd) by assumption.
  simpl. now rewrite !Nat.eqb_refl.
Qed.

Lemma change_map_same (THRSET : float) (MORPHWINSIZE : nat) (np_log : float -> float)
  (h w : nat) (img1 img2 : ndarray) :
  rect h w img1 -> rect h w img2 -> 0 < h ->
  change_map THRSET MORPHWINSIZE np_log img1 img2 =
    Returns (clean MORPHWINSIZE
               (binarize THRSET (ufunc1 np_log (ufunc2 PrimFloat.div img2 img1)))) /\
  rect h w (clean MORPHWINSIZE
              (binarize THRSET (ufunc1 np_log (ufunc2 PrimFloat.div img2 img1)))).
Proof.
  intros H1 H2 Hh. split.
  - unfold change_map, log_ratio.
    now rewrite (broadcast2_same _ h w) by assumption.
  - auto using rect_clean, rect_binarize, rect_ufunc1, rect_ufunc2.
Qed.

Lemma pair_map_same (THRSET : float) (MORPHWINSIZE FILTSIZE : nat)
  (np_log : float -> float) (h w : nat) (ft1 ft2 : feature) :
  rect h w (band ft1) -> rect h w (band ft2) -> 0 < h ->
  exists m, pair_map THRSET MORPHWINSIZE FILTSIZE np_log (ft1, ft2) = Returns m /\
            rect h w m.
Proof.
  intros H1 H2 Hh. unfold pair_map. simpl.
  destruct (change_map_same THRSET MORPHWINSIZE np_log h w
              (clipped_read FILTSIZE ft1) (clipped_read FILTSIZE ft2))
    as [E R]; auto using rect_clipped_read.
  eauto.
Qed.

Lemma pairs_length {A : Type} (l : list A) : length (pairs l) = length l - 1.
Proof.
  induction l as [|x [|y l] IH]; simpl in *; try reflexivity. rewrite IH. lia.
Qed.

(** From the second iteration on, the loop adds each pair's map to [cd]. *)
Lemma pair_loop_adds (THRSET : float) (MORPHWINSIZE FILTSIZE : nat)
  (np_log : float -> float) (h w : nat) :
  0 < h ->
  forall (fts : list feature) (i : nat) (cd : ndarray),
    0 < i -> Forall (fun ft => rect h w (band ft)) fts -> rect h w cd ->
    exists cms,
      Forall2 (fun p m => pair_map THRSET MORPHWINSIZE FILTSIZE np_log p = Returns m)
              (pairs fts) cms /\
      pair_loop THRSET MORPHWINSIZE FILTSIZE np_log i fts (Some cd) =
        Returns (Some (fold_left (ufunc2 PrimFloat.add) cms cd)).
Proof.
  intros Hh fts.
  induction fts as [|ft1 fts IH]; intros i cd Hi Hfts Hcd.
  - exists []. split; [constructor|reflexivity].
  - destruct fts as [|ft2 rest].
    + exists []. split; [constructor|reflexivity].
    + inversion Hfts as [|? ? Hft1 Hrest]; subst.
      inversion Hrest as [|? ? Hft2 _]; subst.
      destruct (pair_map_same THRSET MORPHWINSIZE FILTSIZE np_log h w ft1 ft2)
        as (m & Hm & Rm); try assumption.
      destruct (IH (S i) (ufunc2 PrimFloat.add cd m)) as (cms & Hcms & Hloop);
        [lia|assumption|auto using rect_ufunc2|].
      exists (m :: cms). split; [now constructor|].
      change (pair_loop THRSET MORPHWINSIZE FILTSIZE np_log i (ft1 :: ft2 :: rest) (Some cd))
        with (cd' <- pair_step THRSET MORPHWINSIZE FILTSIZE np_log i (Some cd) ft1 ft2 ;;
              pair_loop THRSET MORPHWINSIZE FILTSIZE np_log (S i) (ft2 :: rest) cd').
      unfold pair_step. unfold pair_map in Hm. simpl in Hm. rewrite Hm. simpl.
      unfold accumulate. destruct (Nat.eqb_spec i 0) as [->|_]; [lia|].
      rewrite (np_iadd_same h w) by assumption. simpl. exact Hloop.
Qed.

(** *** The elementwise sum of two maps commutes *)

Section AnyOrder.

Context {A : Type} (add : A -> A -> A).
Hypothesis add_comm : forall x y, add x y = add y x.

Lemma map2_comm (l l' : list A) : map2 add l l' = map2 add l' l.
Proof.
  revert l'. induction l as [|x l IH]; intros [|y l']; simpl; trivial.
  now rewrite add_comm, IH.
Qed.

Lemma ufunc2_comm (a b : list (list A)) : ufunc2 add a b = ufunc2 add b a.
Proof.
  unfold ufunc2. revert b. induction a as [|r a IH]; intros [|r' b]; simpl; trivial.
  now rewrite map2_comm, IH.
Qed.

End AnyOrder.

Lemma broadcast2_raises (f : float -> float -> float) (a b : ndarray) (e : exn) :
  broadcast2 f a b = Raises e -> e = ValueError.
Proof.
  unfold broadcast2.
  destruct (broadcast_dim (fst (shape a)) (fst (shape b)));
    destruct (broadcast_dim (snd (shape a)) (snd (shape b)));
    intros H; now inversion H.
Qed.

(** Only numpy's broadcasting can fail in the loop: from the second
    iteration on [cd] is bound. *)
Lemma pair_loop_outcome (THRSET : float) (MORPHWINSIZE FILTSIZE : nat)
  (np_log : float -> float) (fts : list feature) :
  forall (i : nat) (cd : option ndarray),
    i = 0 \/ cd <> None ->
    (exists r, pair_loop THRSET MORPHWINSIZE FILTSIZE np_log i fts cd = Returns r) \/
    pair_loop THRSET MORPHWINSIZE FILTSIZE np_log i fts cd = Raises ValueError.
Proof.
  induction fts as [|ft1 fts IH]; intros i cd Hi; [left; now exists cd|].
  destruct fts as [|ft2 rest]; [left; now exists cd|].
  change (pair_loop THRSET MORPHWINSIZE FILTSIZE np_log i (ft1 :: ft2 :: rest) cd)
    with (cd' <- pair_step THRSET MORPHWINSIZE FILTSIZE np_log i cd ft1 ft2 ;;
          pair_loop THRSET MORPHWINSIZE FILTSIZE np_log (S i) (ft2 :: rest) cd').
  unfold pair_step, change_map, log_ratio.
  destruct (broadcast2 PrimFloat.div (clipped_read FILTSIZE ft2) (clipped_read FILTSIZE ft1))
    as [q|e] eqn:Eq.
  - cbn [bind]. unfold accumulate.
    destruct (Nat.eqb_spec i 0) as [->|Hne].
    + cbn [bind]. apply IH. right. discriminate.
    + destruct cd as [c|]; [|destruct Hi; [lia|congruence]].
      unfold np_iadd.
      destruct (broadcast2 PrimFloat.add c _) as [r|e] eqn:Er.
      * cbn [bind]. destruct (shape_eqb (shape r) (shape c)).
        -- cbn [bind]. apply IH. right. discriminate.
        -- right. reflexivity.
      * right. cbn [bind]. now rewrite (broadcast2_raises _ _ _ _ Er).
  - right. cbn [bind]. now rewrite (broadcast2_raises _ _ _ _ Eq).
Qed.

(** *** A pair with a raster that is NaN throughout *)

Lemma change_map_nan (THRSET : float) (MORPHWINSIZE : nat) (np_log : float -> float)
  (h w : nat) (img1 img2 : ndarray) :
  np_log nan = nan -> rect h w img1 -> rect h w img2 -> 0 < h ->
  img1 = full h w nan \/ img2 = full h w nan ->
  change_map THRSET MORPHWINSIZE np_log img1 img2 = Returns (full h w nan).
Proof.
  intros Hlog H1 H2 Hh Hnan.
  destruct (change_map_same THRSET MORPHWINSIZE np_log h w img1 img2 H1 H2 Hh) as [E _].
  rewrite E. apply f_equal.
  assert (Hq : ufunc1 np_log (ufunc2 PrimFloat.div img2 img1) = full h w nan).
  { apply full_ext; [auto using rect_ufunc1, rect_ufunc2|].
    intros i j Hi Hj.
    rewrite (getitem_ufunc1 _ h w), (getitem_ufunc2 _ h w) by auto using rect_ufunc2.
    destruct Hnan as [-> | ->]; rewrite getitem_full by assumption.
    - now rewrite IEEE.div_nan_r.
    - now rewrite IEEE.div_nan_l. }
  rewrite Hq, binarize_full_nan. unfold clean. apply grey_opening_full.
Qed.

Section Blank.

Variables (THRSET : float) (MORPHWINSIZE FILTSIZE : nat) (np_log : float -> float).
Variables (h w : nat).
Hypothesis Hh : 0 < h.
Hypothesis Hlog : np_log nan = nan.

Lemma pair_map_blank (ft1 ft2 : feature) :
  rect h w (band ft1) -> rect h w (band ft2) ->
  clipped_read FILTSIZE ft1 = full h w nan \/ clipped_read FILTSIZE ft2 = full h w nan ->
  pair_map THRSET MORPHWINSIZE FILTSIZE np_log (ft1, ft2) = Returns (full h w nan).
Proof.
  intros H1 H2 Hb. unfold pair_map. simpl.
  apply change_map_nan; auto using rect_clipped_read.
Qed.

(** Once the accumulator is NaN throughout it stays so. *)
Lemma pair_loop_poisoned (fts : list feature) : forall i : nat,
  0 < i -> Forall (fun ft => rect h w (band ft)) fts ->
  pair_loop THRSET MORPHWINSIZE FILTSIZE np_log i fts (Some (full h w nan)) =
    Returns (Some (full h w nan)).
Proof.
  induction fts as [|ft1 fts IH]; intros i Hi Hfts; [reflexivity|].
  destruct fts as [|ft2 rest]; [reflexivity|].
  inversion Hfts as [|? ? Hft1 Hrest]; subst.
  inversion Hrest as [|? ? Hft2 _]; subst.
  destruct (pair_map_same THRSET MORPHWINSIZE FILTSIZE np_log h w ft1 ft2)
    as (m & Hm & Rm); try assumption.
  change (pair_loop THRSET MORPHWINSIZE FILTSIZE np_log i (ft1 :: ft2 :: rest)
            (Some (full h w nan)))
    with (cd' <- pair_step THRSET MORPHWINSIZE FILTSIZE np_log i
                   (Some (full h w nan)) ft1 ft2 ;;
          pair_loop THRSET MORPHWINSIZE FILTSIZE np_log (S i) (ft2 :: rest) cd').
  unfold pair_step. unfold pair_map in Hm. simpl in Hm. rewrite Hm. cbn [bind].
  unfold accumulate. destruct (Nat.eqb_spec i 0) as [->|_]; [lia|].
  rewrite (np_iadd_same h w) by auto using rect_full. cbn [bind].
  rewrite ufunc2_add_nan_l by assumption. apply IH; [lia|assumption].
Qed.

Lemma pair_loop_blank (fts : list feature) : forall (i : nat) (cd : option ndarray),
  i = 0 \/ (exists c, cd = Some c /\ rect h w c) ->
  Forall (fun ft => rect h w (band ft)) fts ->
  Exists (fun ft => clipped_read FILTSIZE ft = full h w nan) fts ->
  2 <= length fts ->
  pair_loop THRSET MORPHWINSIZE FILTSIZE np_log i fts cd = Returns (Some (full h w nan)).
Proof.
  induction fts as [|ft1 fts IH]; intros i cd Hcd Hfts Hex Hlen; [simpl in Hlen; lia|].
  destruct fts as [|ft2 rest]; [simpl in Hlen; lia|].
  inversion Hfts as [|? ? Hft1 Hrest]; subst.
  inversion Hrest as [|? ? Hft2 _]; subst.
  change (pair_loop THRSET MORPHWINSIZE FILTSIZE np_log i (ft1 :: ft2 :: rest) cd)
    with (cd' <- pair_step THRSET MORPHWINSIZE FILTSIZE np_log i cd ft1 ft2 ;;
          pair_loop THRSET MORPHWINSIZE FILTSIZE np_log (S i) (ft2 :: rest) cd').
  assert (Hnow : clipped_read FILTSIZE ft1 = full h w nan \/
                 clipped_read FILTSIZE ft2 = full h w nan ->
                 (cd' <- pair_step THRSET MORPHWINSIZE FILTSIZE np_log i cd ft1 ft2 ;;
                  pair_loop THRSET MORPHWINSIZE FILTSIZE np_log (S i) (ft2 :: rest) cd') =
                 Returns (Some (full h w nan))).
  { intros Hb. pose proof (pair_map_blank ft1 ft2 Hft1 Hft2 Hb) as Hm.
    unfold pair_step. unfold pair_map in Hm. simpl in Hm. rewrite Hm. cbn [bind].
    unfold accumulate. destruct (Nat.eqb_spec i 0) as [->|Hne].
    - cbn [bind]. apply pair_loop_poisoned; [lia|assumption].
    - destruct Hcd as [->|(c & -> & Rc)]; [lia|].
      rewrite (np_iadd_same h w) by auto using rect_full. cbn [bind].
      rewrite ufunc2_add_nan_r by assumption.
      apply pair_loop_poisoned; [lia|assumption]. }
  inversion Hex as [? ? Hb1|? ? Hex']; subst; [apply Hnow; now left|].
  inversion Hex' as [? ? Hb2|? ? Hex'']; subst; [apply Hnow; now right|].
  destruct (pair_map_same THRSET MORPHWINSIZE FILTSIZE np_log h w ft1 ft2)
    as (m & Hm & Rm); try assumption.
  unfold pair_step. unfold pair_map in Hm. simpl in Hm. rewrite Hm. cbn [bind].
  assert (Hlen' : 2 <= length (ft2 :: rest))
    by (destruct rest; [inversion Hex''|simpl; lia]).
  unfold accumulate. destruct (Nat.eqb_spec i 0) as [->|Hne].
  - cbn [bind]. apply IH; eauto.
  - destruct Hcd as [->|(c & -> & Rc)]; [lia|].
    rewrite (np_iadd_same h w) by assumption. cbn [bind].
    apply IH; eauto using rect_ufunc2.
Qed.

End Blank.

(** *** What a finished loop tells *)

Lemma shape_eqb_eq (s t : nat * nat) : shape_eqb s t = true -> s = t.
Proof.
  destruct s as [a b], t as [c d]. unfold shape_eqb. simpl.
  rewrite andb_true_iff, !Nat.eqb_eq. intros [-> ->]. reflexivity.
Qed.

Lemma np_iadd_shape (c d r : ndarray) : np_iadd c d = Returns r -> shape r = shape c.
Proof.
  unfold np_iadd. destruct (broadcast2 PrimFloat.add c d) as [q|e]; simpl; [|discriminate].
  destruct (shape_eqb (shape q) (shape c)) eqn:E; [|discriminate].
  intros H. inversion H; subst. now apply shape_eqb_eq.
Qed.

Section Finished.

Variables (THRSET : float) (MORPHWINSIZE FILTSIZE : nat) (np_log : float -> float).

(** From the second iteration on the accumulator keeps its shape. *)
Lemma pair_loop_shape (fts : list feature) : forall (i : nat) (c : ndarray) (r : option ndarray),
  0 < i ->
  pair_loop THRSET MORPHWINSIZE FILTSIZE np_log i fts (Some c) = Returns r ->
  exists m, r = Some m /\ shape m = shape c.
Proof.
  induction fts as [|ft1 fts IH]; intros i c r Hi H.
  - inversion H. eauto.
  - destruct fts as [|ft2 rest]; [inversion H; eauto|].
    change (pair_loop THRSET MORPHWINSIZE FILTSIZE np_log i (ft1 :: ft2 :: rest) (Some c))
      with (cd' <- pair_step THRSET MORPHWINSIZE FILTSIZE np_log i (Some c) ft1 ft2 ;;
            pair_loop THRSET MORPHWINSIZE FILTSIZE np_log (S i) (ft2 :: rest) cd') in H.
    unfold pair_step in H.
    destruct (change_map _ _ _ _ _) as [dIx|e]; [|discriminate]. cbn [bind] in H.
    unfold accumulate in H. destruct (Nat.eqb_spec i 0) as [->|_]; [lia|].
    destruct (np_iadd c dIx) as [c'|e] eqn:Ec; [|discriminate]. cbn [bind] in H.
    apply np_iadd_shape in Ec.
    destruct (IH (S i) c' r ltac:(lia) H) as (m & -> & Hm).
    exists m. split; [reflexivity|congruence].
Qed.

(** A loop that ends normally has computed the map of every pair. *)
Lemma pair_loop_returns_pairs (fts : list feature) :
  forall (i : nat) (cd r : option ndarray) (p : feature * feature),
  pair_loop THRSET MORPHWINSIZE FILTSIZE np_log i fts cd = Returns r ->
  In p (pairs fts) ->
  exists m, pair_map THRSET MORPHWINSIZE FILTSIZE np_log p = Returns m.
Proof.
  induction fts as [|ft1 fts IH]; intros i cd r p H Hp; [contradiction|].
  destruct fts as [|ft2 rest]; [contradiction|].
  change (pair_loop THRSET MORPHWINSIZE FILTSIZE np_log i (ft1 :: ft2 :: rest) cd)
    with (cd' <- pair_step THRSET MORPHWINSIZE FILTSIZE np_log i cd ft1 ft2 ;;
          pair_loop THRSET MORPHWINSIZE FILTSIZE np_log (S i) (ft2 :: rest) cd') in H.
  change (pairs (ft1 :: ft2 :: rest)) with ((ft1, ft2) :: pairs (ft2 :: rest)) in Hp.
  unfold pair_step in H.
  destruct (change_map THRSET MORPHWINSIZE np_log (clipped_read FILTSIZE ft1)
              (clipped_read FILTSIZE ft2)) as [dIx|e] eqn:Ecm; [|discriminate].
  cbn [bind] in H.
  destruct (accumulate i cd dIx) as [cd'|e]; [|discriminate]. cbn [bind] in H.
  destruct Hp as [<-|Hp].
  - exists dIx. exact Ecm.
  - now apply (IH (S i) cd' r p).
Qed.

End Finished.

(** *** Exceptions and the kernel *)

Lemma pairs_app_in {A : Type} (pre : list A) (x y : A) (post : list A) :
  In (x, y) (pairs (pre ++ x :: y :: post)).
Proof.
  induction pre as [|a pre IH]; [now left|].
  destruct pre as [|b pre]; simpl in *; auto.
Qed.

Lemma outcome_of_raises (k : kernel) (e : exn) :
  outcome_of k = Raises e -> raised k = Some e.
Proof. unfold outcome_of. destruct (raised k); intros H; now inversion H. Qed.

Lemma outcome_of_returns (k : kernel) (r : option ndarray) :
  outcome_of k = Returns r -> raised k = None /\ cd_bound k = r.
Proof. unfold outcome_of. destruct (raised k); intros H; now inversion H. Qed.

Section Kernel.

Variables (THRSET : float) (MORPHWINSIZE FILTSIZE : nat) (np_log : float -> float).

(** A pair that does not broadcast ends the cell, wherever it stands. *)
Lemma run_cell_mismatch (cd0 : option ndarray) (features : list feature)
  (ft1 ft2 : feature) (h1 w1 h2 w2 : nat) :
  In (ft1, ft2) (pairs features) ->
  rect h1 w1 (band ft1) -> rect h2 w2 (band ft2) -> 0 < h1 -> 0 < h2 ->
  ~ (compatible h1 h2 /\ compatible w1 w2) ->
  pair_map THRSET MORPHWINSIZE FILTSIZE np_log (ft1, ft2) = Raises ValueError /\
  raised (run_cell THRSET MORPHWINSIZE FILTSIZE np_log cd0 features) = Some ValueError.
Proof.
  intros Hin R1 R2 Hh1 Hh2 Hinc.
  assert (Hpm : pair_map THRSET MORPHWINSIZE FILTSIZE np_log (ft1, ft2) = Raises ValueError).
  { unfold pair_map, change_map, log_ratio. simpl fst. simpl snd.
    destruct (broadcast2_spec PrimFloat.div h2 w2 h1 w1
                (clipped_read FILTSIZE ft2) (clipped_read FILTSIZE ft1)) as [_ Hraise];
      auto using rect_clipped_read.
    rewrite Hraise; [reflexivity|].
    intros [Hc1 Hc2]. apply Hinc. split; now apply compatible_sym. }
  split; [exact Hpm|].
  apply outcome_of_raises. rewrite run_cell_pair_loop.
  destruct (pair_loop_outcome THRSET MORPHWINSIZE FILTSIZE np_log features 0 cd0)
    as [(r & Hr)|E]; [now left| |exact E].
  exfalso.
  destruct (pair_loop_returns_pairs THRSET MORPHWINSIZE FILTSIZE np_log features 0 cd0 r
              (ft1, ft2) Hr Hin) as (m & Hm).
  congruence.
Qed.

(** The exception leaves [cd] as the iterations before the pair left it. *)
Lemma run_cell_stops (cd0 : option ndarray) (pre : list feature) (ft1 ft2 : feature)
  (post : list feature) (e : exn) :
  raised (run_cell THRSET MORPHWINSIZE FILTSIZE np_log cd0 (pre ++ [ft1])) = None ->
  pair_map THRSET MORPHWINSIZE FILTSIZE np_log (ft1, ft2) = Raises e ->
  run_cell THRSET MORPHWINSIZE FILTSIZE np_log cd0 (pre ++ ft1 :: ft2 :: post) =
    {| cd_bound :=
         cd_bound (run_cell THRSET MORPHWINSIZE FILTSIZE np_log cd0 (pre ++ [ft1]));
       raised := Some e |}.
Proof.
  intros Hk Hpm.
  replace (pre ++ ft1 :: ft2 :: post) with ((pre ++ [ft1]) ++ ft2 :: post)
    by (now rewrite <- app_assoc).
  unfold run_cell at 1.
  replace (length ((pre ++ [ft1]) ++ ft2 :: post) - 1)
    with (length pre + S (length post))
    by (rewrite !length_app; simpl; lia).
  rewrite seq_app, fold_left_app.
  rewrite run_fold_prefix by (rewrite length_app; simpl; lia).
  assert (Hpre : fold_left (run_body THRSET MORPHWINSIZE FILTSIZE np_log (pre ++ [ft1]))
                   (seq 0 (length pre)) {| cd_bound := cd0; raised := None |} =
                 run_cell THRSET MORPHWINSIZE FILTSIZE np_log cd0 (pre ++ [ft1])).
  { unfold run_cell. rewrite length_app. cbn [length].
    now replace (length pre + 1 - 1) with (length pre) by lia. }
  rewrite Hpre.
  set (k := run_cell THRSET MORPHWINSIZE FILTSIZE np_log cd0 (pre ++ [ft1])) in *.
  cbn [seq fold_left Nat.add].
  assert (Hstep : run_body THRSET MORPHWINSIZE FILTSIZE np_log
                    ((pre ++ [ft1]) ++ ft2 :: post) k (length pre) =
                  {| cd_bound := cd_bound k; raised := Some e |}).
  { unfold run_body. rewrite Hk. unfold loop_body.
    rewrite <- app_assoc. cbn [app].
    rewrite nth_error_app2 by lia. rewrite Nat.sub_diag. cbn [nth_error].
    rewrite nth_error_app2 by lia.
    replace (length pre + 1 - length pre) with 1 by lia. cbn [nth_error].
    unfold pair_step. unfold pair_map in Hpm. simpl fst in Hpm. simpl snd in Hpm.
    now rewrite Hpm. }
  rewrite Hstep. now apply (run_raised_stays _ _ _ _ _ _ _ e).
Qed.

(** The first iteration does not read [cd]. *)
Lemma run_cell_first (cd0 : option ndarray) (ft1 ft2 : feature) (rest : list feature) :
  run_cell THRSET MORPHWINSIZE FILTSIZE np_log cd0 (ft1 :: ft2 :: rest) =
  match pair_map THRSET MORPHWINSIZE FILTSIZE np_log (ft1, ft2) with
  | Returns m =>
      fold_left (run_body THRSET MORPHWINSIZE FILTSIZE np_log (ft1 :: ft2 :: rest))
                (seq 1 (length rest)) {| cd_bound := Some m; raised := None |}
  | Raises e => {| cd_bound := cd0; raised := Some e |}
  end.
Proof.
  unfold run_cell. cbn [length Nat.sub seq fold_left].
  rewrite ?Nat.sub_0_r.
  unfold run_body at 2. cbn [raised cd_bound]. unfold loop_body. cbn [nth_error Nat.add].
  unfold pair_step, pair_map. simpl fst. simpl snd.
  destruct (change_map THRSET MORPHWINSIZE np_log (clipped_read FILTSIZE ft1)
              (clipped_read FILTSIZE ft2)) as [m|e]; cbn [bind accumulate Nat.eqb].
  - reflexivity.
  - now apply (run_raised_stays _ _ _ _ _ _ _ e).
Qed.

(** With two or more features a cell that ends normally has bound [cd]. *)
Lemma run_cell_binds (cd0 : option ndarray) (features : list feature) :
  2 <= length features ->
  raised (run_cell THRSET MORPHWINSIZE FILTSIZE np_log cd0 features) = None ->
  exists m, cd_bound (run_cell THRSET MORPHWINSIZE FILTSIZE np_log cd0 features) = Some m.
Proof.
  intros Hlen Hk.
  destruct features as [|ft1 [|ft2 rest]]; simpl in Hlen; try lia.
  pose proof (run_cell_pair_loop THRSET MORPHWINSIZE FILTSIZE np_log cd0
                (ft1 :: ft2 :: rest)) as H.
  unfold outcome_of in H. rewrite Hk in H.
  change (pair_loop THRSET MORPHWINSIZE FILTSIZE np_log 0 (ft1 :: ft2 :: rest) cd0)
    with (cd' <- pair_step THRSET MORPHWINSIZE FILTSIZE np_log 0 cd0 ft1 ft2 ;;
          pair_loop THRSET MORPHWINSIZE FILTSIZE np_log 1 (ft2 :: rest) cd') in H.
  unfold pair_step in H.
  destruct (change_map THRSET MORPHWINSIZE np_log (clipped_read FILTSIZE ft1)
              (clipped_read FILTSIZE ft2)) as [m|e]; cbn [bind accumulate Nat.eqb] in H;
    [|discriminate].
  symmetry in H.
  destruct (pair_loop_shape THRSET MORPHWINSIZE FILTSIZE np_log (ft2 :: rest) 1 m _
              ltac:(lia) H) as (m' & Hm' & _).
  now exists m'.
Qed.

End Kernel.

(** *** A series that shows one scene throughout *)

Section Static.

Variables (THRSET : float) (MORPHWINSIZE FILTSIZE : nat) (np_log : float -> float).
Variables (h w : nat) (img : ndarray).
Hypothesis Hlog : np_log 1%float = 0%float.
Hypothesis Hthr : np_isfinite THRSET = true.
Hypothesis Hr : rect h w img.
Hypothesis Hh : 0 < h.
Hypothesis Hw : 0 < w.
Hypothesis Hsize : (Z.of_nat (h * w) < 2 ^ 63)%Z.
Hypothesis Hpos : all_pixels positive_sample img = true.

Lemma change_map_self :
  change_map THRSET MORPHWINSIZE np_log img img = Returns (zeros h w).
Proof.
  unfold change_map, log_ratio. rewrite (broadcast2_same _ h w) by assumption.
  cbn [bind]. apply f_equal.
  assert (Hq : ufunc1 np_log (ufunc2 PrimFloat.div img img) = zeros h w).
  { unfold zeros. apply full_ext; [auto using rect_ufunc1, rect_ufunc2|].
    intros i j Hi Hj.
    rewrite (getitem_ufunc1 _ h w) by auto using rect_ufunc2.
    rewrite (getitem_ufunc2 _ h w) by assumption.
    pose proof (all_pixels_getitem _ h w img i j Hr Hpos Hi Hj) as Hx.
    apply IEEE.positive_sample_inv in Hx. destruct Hx as (m & e & E).
    now rewrite (IEEE.div_self _ _ _ _ E). }
  rewrite Hq, binarize_zeros by (apply threshold_zeros; trivial; nia).
  apply grey_opening_full.
Qed.

Lemma pair_loop_static (fts : list feature) : forall (i : nat) (cd : option ndarray),
  Forall (fun ft => clipped_read FILTSIZE ft = img) fts ->
  (i = 0 /\ 2 <= length fts) \/ cd = Some (zeros h w) ->
  pair_loop THRSET MORPHWINSIZE FILTSIZE np_log i fts cd = Returns (Some (zeros h w)).
Proof.
  induction fts as [|ft1 fts IH]; intros i cd Hfts Hcd.
  - destruct Hcd as [[_ Hlen]| ->]; [simpl in Hlen; lia|reflexivity].
  - destruct fts as [|ft2 rest].
    + destruct Hcd as [[_ Hlen]| ->]; [simpl in Hlen; lia|reflexivity].
    + pose proof (Forall_inv Hfts) as Hft1. pose proof (Forall_inv_tail Hfts) as Hrest.
      pose proof (Forall_inv Hrest) as Hft2. simpl in Hft1, Hft2.
      change (pair_loop THRSET MORPHWINSIZE FILTSIZE np_log i (ft1 :: ft2 :: rest) cd)
        with (cd' <- pair_step THRSET MORPHWINSIZE FILTSIZE np_log i cd ft1 ft2 ;;
              pair_loop THRSET MORPHWINSIZE FILTSIZE np_log (S i) (ft2 :: rest) cd').
      unfold pair_step. rewrite Hft1, Hft2, change_map_self. cbn [bind].
      unfold accumulate. destruct (Nat.eqb_spec i 0) as [->|Hne].
      * cbn [bind]. apply IH; auto.
      * destruct Hcd as [[Hi _]| ->]; [lia|].
        rewrite (np_iadd_same h w) by (unfold zeros; auto using rect_full).
        cbn [bind]. unfold zeros. rewrite ufunc2_full.
        apply IH; auto.
Qed.

End Static.

End Loop.

(** * The heat map in another order of reduction *)

Module Order.

Import Arrays.

Lemma reduce_left_comb {A : Type} (add : A -> A -> A) (l : list A) :
  forall acc : reduction A,
    reduce add (left_comb acc l) = fold_left add l (reduce add acc).
Proof. induction l as [|m l IH]; intros acc; [reflexivity|]. simpl. now rewrite IH. Qed.

Lemma leaves_left_comb {A : Type} (l : list A) :
  forall acc : reduction A, leaves (left_comb acc l) = leaves acc ++ l.
Proof.
  induction l as [|m l IH]; intros acc; simpl; [now rewrite app_nil_r|].
  rewrite IH. simpl. now rewrite <- app_assoc.
Qed.

(** The loop's sum is the reduction along the left comb. *)
Lemma sum_maps_left_comb (m : ndarray) (ms : list ndarray) :
  sum_maps PrimFloat.add (m :: ms) =
    Some (reduce (ufunc2 PrimFloat.add) (left_comb (Leaf m) ms)) /\
  leaves (left_comb (Leaf m) ms) = m :: ms.
Proof.
  split; [|now rewrite leaves_left_comb].
  simpl. now rewrite reduce_left_comb.
Qed.

Section Pixel.

Variables (h w i j : nat).
Hypothesis Hi : i < h.
Hypothesis Hj : j < w.

Lemma rect_reduce (t : reduction ndarray) :
  Forall (rect h w) (leaves t) -> rect h w (reduce (ufunc2 PrimFloat.add) t).
Proof.
  induction t as [m|l IHl r IHr]; simpl; intros H.
  - now apply Forall_inv in H.
  - apply Forall_app in H. destruct H as [Hl Hr].
    apply rect_ufunc2; auto.
Qed.

Lemma getitem_reduce_node (l r : reduction ndarray) :
  Forall (rect h w) (leaves l) -> Forall (rect h w) (leaves r) ->
  getitem (reduce (ufunc2 PrimFloat.add) (Node l r)) i j =
    (getitem (reduce (ufunc2 PrimFloat.add) l) i j +
     getitem (reduce (ufunc2 PrimFloat.add) r) i j)%float.
Proof.
  intros Hl Hr. simpl.
  now rewrite (getitem_ufunc2 _ h w) by auto using rect_reduce.
Qed.

(** One pixel of a reduction that is a number: after the additions of the
    reduction the error is within the accumulated bound. *)
Lemma reduce_pixel_error (t : reduction ndarray) :
  Forall (rect h w) (leaves t) ->
  np_isfinite (getitem (reduce (ufunc2 PrimFloat.add) t) i j) = true ->
  within (length (leaves t) - 1)
    (Z.abs (scaled (getitem (reduce (ufunc2 PrimFloat.add) t) i j) -
            sum_scaled (map (fun m => getitem m i j) (leaves t))))
    (sum_magnitudes (map (fun m => getitem m i j) (leaves t))).
Proof.
  induction t as [m|l IHl r IHr]; intros Hrect Hfin.
  - simpl. unfold within, sum_scaled, sum_magnitudes. simpl.
    replace (scaled (getitem m i j) - (scaled (getitem m i j) + 0))%Z with 0%Z by lia.
    simpl. lia.
  - simpl leaves in *. apply Forall_app in Hrect. destruct Hrect as [Hl Hr].
    rewrite getitem_reduce_node in * by assumption.
    destruct (Rounding.add_error _ _ Hfin) as (Fl & Fr & Hadd).
    specialize (IHl Hl Fl). specialize (IHr Hr Fr).
    rewrite map_app, Rounding.sum_scaled_app, Rounding.sum_magnitudes_app, length_app.
    pose proof (Rounding.leaves_length l) as Ll.
    pose proof (Rounding.leaves_length r) as Lr.
    replace (length (leaves l) + length (leaves r) - 1)
      with ((length (leaves l) - 1) + (length (leaves r) - 1) + 1) by lia.
    apply Rounding.within_node with
      (Sl := scaled (getitem (reduce (ufunc2 PrimFloat.add) l) i j))
      (Sr := scaled (getitem (reduce (ufunc2 PrimFloat.add) r) i j));
      auto using Rounding.sum_scaled_le.
Qed.

(** A NaN sample at the pixel in one of the maps makes the pixel NaN. *)
Lemma reduce_pixel_nan (t : reduction ndarray) :
  Forall (rect h w) (leaves t) ->
  Exists (fun m => np_isnan (getitem m i j) = true) (leaves t) ->
  getitem (reduce (ufunc2 PrimFloat.add) t) i j = nan.
Proof.
  induction t as [m|l IHl r IHr]; intros Hrect Hex.
  - simpl in *. apply Exists_cons in Hex. destruct Hex as [H|H].
    + now apply IEEE.isnan_true.
    + inversion H.
  - simpl leaves in *. apply Forall_app in Hrect. destruct Hrect as [Hl Hr].
    rewrite getitem_reduce_node by assumption.
    apply Exists_app in Hex. destruct Hex as [H|H].
    + rewrite (IHl Hl H). apply IEEE.add_nan_l.
    + rewrite (IHr Hr H). apply IEEE.add_nan_r.
Qed.

(** Maps that hold 0.0 or 1.0 at the pixel: the pixel of the reduction is
    the number of maps that hold 1.0 there, whatever the order. *)
Lemma reduce_pixel_count (t : reduction ndarray) :
  Forall (rect h w) (leaves t) ->
  length (leaves t) <= most_maps ->
  Forall (fun m => getitem m i j = 0%float \/ getitem m i j = 1%float) (leaves t) ->
  getitem (reduce (ufunc2 PrimFloat.add) t) i j =
    of_count (count_ones (map (fun m => getitem m i j) (leaves t))).
Proof.
  induction t as [m|l IHl r IHr]; intros Hrect Hlen Hbin.
  - simpl in *. apply Forall_inv in Hbin. unfold count_ones. simpl.
    destruct Hbin as [E|E]; rewrite E; reflexivity.
  - simpl leaves in *. apply Forall_app in Hrect. destruct Hrect as [Hl Hr].
    apply Forall_app in Hbin. destruct Hbin as [Bl Br].
    rewrite length_app in Hlen.
    rewrite getitem_reduce_node by assumption.
    rewrite IHl, IHr by (assumption || lia).
    rewrite map_app, Counts.count_ones_app.
    apply Counts.count_add_most.
    pose proof (Counts.count_ones_le (map (fun m => getitem m i j) (leaves l))).
    pose proof (Counts.count_ones_le (map (fun m => getitem m i j) (leaves r))).
    rewrite length_map in *. lia.
Qed.

(** Two reductions over the same maps, in any two orders. *)
Lemma reduce_pixel_close (t t' : reduction ndarray) :
  Forall (rect h w) (leaves t) -> Permutation (leaves t') (leaves t) ->
  np_isfinite (getitem (reduce (ufunc2 PrimFloat.add) t) i j) = true ->
  np_isfinite (getitem (reduce (ufunc2 PrimFloat.add) t') i j) = true ->
  within (length (leaves t) - 1)
    (Z.abs (scaled (getitem (reduce (ufunc2 PrimFloat.add) t) i j) -
            scaled (getitem (reduce (ufunc2 PrimFloat.add) t') i j)))
    (2 * sum_magnitudes (map (fun m => getitem m i j) (leaves t))).
Proof.
  intros Hrect Hperm Hfin Hfin'.
  assert (Hrect' : Forall (rect h w) (leaves t')).
  { apply Forall_forall. intros m Hm. rewrite Forall_forall in Hrect.
    apply Hrect. now apply (Permutation_in _ Hperm). }
  pose proof (reduce_pixel_error t Hrect Hfin) as H.
  pose proof (reduce_pixel_error t' Hrect' Hfin') as H'.
  pose proof (Permutation_map (fun m => getitem m i j) Hperm) as Hmap.
  rewrite (Rounding.sum_scaled_perm _ _ Hmap),
          (Rounding.sum_magnitudes_perm _ _ Hmap),
          (Permutation_length Hperm) in H'.
  unfold within in *.
  set (Q := ((2 ^ 50) ^ Z.of_nat (length (leaves t) - 1))%Z) in *.
  set (P := ((2 ^ 50 + 1) ^ Z.of_nat (length (leaves t) - 1))%Z) in *.
  assert (HQ : (0 < Q)%Z) by (apply Z.pow_pos_nonneg; lia).
  clearbody Q P. nia.
Qed.

End Pixel.

End Order.

(** * The claims *)

(** C1, evaluated on the code.  For the log ratio [[-1, -1], [-1, -1.5]] and
    [THRSET = 2] the threshold is negative and every pixel lies strictly
    below it: the snapshot binarization of the claim gives 0.0 everywhere,
    the two assignments in place give 1.0 everywhere, because the zeros the
    first one writes are above the negative threshold when the second one
    reads them.  The same happens from rasters on, with the constants of the
    notebook: for before = [[4,4],[4,8]] and after = [[2,2],[2,3]] every
    pixel of the heat map is flagged.  For a uniform log ratio every pixel
    equals the threshold, neither assignment selects it, and the map keeps
    the value 0.5 where the claim says 0.0. *)
Theorem binarize_is_not_snapshot :
  (threshold notebook_THRSET darker <? 0)%float = true /\
  all_pixels (fun x => (x <? threshold notebook_THRSET darker)%float) darker = true /\
  binarize_snapshot notebook_THRSET darker = zeros 2 2 /\
  binarize notebook_THRSET darker = full 2 2 1%float /\
  (dIx <- log_ratio ln_ref (clipped_read notebook_FILTSIZE (raster dim_before))
                           (clipped_read notebook_FILTSIZE (raster dim_after)) ;;
   Returns (binarize_snapshot notebook_THRSET dIx, binarize notebook_THRSET dIx))
    = Returns (zeros 2 2, full 2 2 1%float) /\
  heatmap notebook_THRSET notebook_MORPHWINSIZE notebook_FILTSIZE ln_ref
    [raster dim_before; raster dim_after] = Returns (Some (full 2 2 1%float)) /\
  threshold notebook_THRSET uniform_half = 0.5%float /\
  binarize_snapshot notebook_THRSET uniform_half = zeros 2 2 /\
  binarize notebook_THRSET uniform_half = uniform_half.
Proof. repeat split; vm_compute; reflexivity. Qed.

(** C2, as stated, fails on the code: both rasters of the scenario are flat,
    the speckle filter turns each into NaN, and the log ratio, the change
    map and the heat map of the two-raster sequence are NaN everywhere, not
    ln 2 and zeros. *)
Lemma flat_scenario_is_nan :
  log_ratio ln_ref (clipped_read 1 (raster before_flat)) (clipped_read 1 (raster after_flat))
    = Returns nans22 /\
  heatmap 2%float 1 1 ln_ref [raster before_flat; raster after_flat]
    = Returns (Some nans22) /\
  all_pixels (fun x => (x =? 0)%float) nans22 = false.
Proof. repeat split; vm_compute; reflexivity. Qed.

(** C2, amended: for before = [[1,1],[1,1]], after = [[2,2],[2,2]],
    speckle window 1, multiplier 2 and opening window 1, the speckle filter
    divides 0 by 0 on each flat raster and returns NaN everywhere; the log
    ratio is uniformly NaN, the threshold is NaN, no pixel strictly exceeds
    it, the change map is all NaN, and accumulating this single pair yields
    a heat map that is all NaN.  [np_log] is any logarithm that maps NaN to
    NaN. *)
Theorem flat_scenario :
  forall np_log : float -> float,
    np_log nan = nan ->
    clipped_read 1 (raster before_flat) = nans22 /\
    clipped_read 1 (raster after_flat) = nans22 /\
    log_ratio np_log nans22 nans22 = Returns nans22 /\
    threshold 2%float nans22 = nan /\
    all_pixels (fun x => negb (threshold 2%float nans22 <? x)%float) nans22 = true /\
    change_map 2%float 1 np_log nans22 nans22 = Returns nans22 /\
    heatmap 2%float 1 1 np_log [raster before_flat; raster after_flat]
      = Returns (Some nans22).
Proof.
  intros np_log Hlog.
  assert (Hb : clipped_read 1 (raster before_flat) = nans22) by (vm_compute; reflexivity).
  assert (Ha : clipped_read 1 (raster after_flat) = nans22) by (vm_compute; reflexivity).
  assert (Hratio : log_ratio np_log nans22 nans22 = Returns nans22).
  { unfold log_ratio.
    change (broadcast2 PrimFloat.div nans22 nans22) with (Returns nans22).
    unfold nans22. simpl. now rewrite Hlog. }
  assert (Hmap : change_map 2%float 1 np_log nans22 nans22 = Returns nans22).
  { unfold change_map. rewrite Hratio. vm_compute. reflexivity. }
  repeat split; trivial.
  rewrite Loop.heatmap_pair_loop. cbn [pair_loop]. unfold pair_step.
  rewrite Hb, Ha, Hmap. reflexivity.
Qed.

Lemma flat_scenario_witness :
  clipped_read 1 (raster before_flat) = nans22 /\
  clipped_read 1 (raster after_flat) = nans22 /\
  log_ratio ln_ref nans22 nans22 = Returns nans22 /\
  threshold 2%float nans22 = nan /\
  all_pixels (fun x => negb (threshold 2%float nans22 <? x)%float) nans22 = true /\
  change_map 2%float 1 ln_ref nans22 nans22 = Returns nans22 /\
  heatmap 2%float 1 1 ln_ref [raster before_flat; raster after_flat]
    = Returns (Some nans22).
Proof. apply flat_scenario. reflexivity. Defined.

(** C3, as stated, fails on the code: the pair [zero_before], [zero_after]
    has the ratio 0/0 at pixel (0, 0); binarization leaves the NaN there and
    the heat map of the two-raster sequence holds it.  The NaN is there for
    every logarithm that maps NaN to NaN, whatever its other values. *)
Lemma nan_pixel_reaches_heatmap :
  log_ratio ln_ref (lee_filter zero_before 1) (lee_filter zero_after 1)
    = Returns [[nan; 0]; [0; 0x1.62e42fefa39efp+0]]%float /\
  heatmap 2%float 1 1 ln_ref [raster zero_before; raster zero_after]
    = Returns (Some [[nan; 0]; [0; 0]]%float) /\
  (forall np_log : float -> float,
      np_log nan = nan ->
      exists m, heatmap 2%float 1 1 np_log [raster zero_before; raster zero_after]
                  = Returns (Some m) /\
                getitem m 0 0 = nan).
Proof.
  split; [vm_compute; reflexivity|]. split; [vm_compute; reflexivity|].
  intros np_log Hlog.
  rewrite Loop.heatmap_pair_loop. cbn [pair_loop]. unfold pair_step.
  assert (Hb : clipped_read 1 (raster zero_before) = zero_before)
    by (vm_compute; reflexivity).
  assert (Ha : clipped_read 1 (raster zero_after) = zero_after)
    by (vm_compute; reflexivity).
  assert (Rb : rect 2 2 zero_before) by (split; [reflexivity|repeat constructor]).
  assert (Ra : rect 2 2 zero_after) by (split; [reflexivity|repeat constructor]).
  rewrite Hb, Ha.
  destruct (Loop.change_map_same 2%float 1 np_log 2 2 zero_before zero_after Rb Ra)
    as [Hmap Rmap]; [lia|].
  rewrite Hmap. cbn [bind accumulate Nat.eqb].
  eexists. split; [reflexivity|].
  change (clean 1 ?d) with d.
  rewrite (Arrays.getitem_binarize 2%float 2 2)
    by (auto using Arrays.rect_ufunc1, Arrays.rect_ufunc2 || lia).
  rewrite (Arrays.getitem_ufunc1 _ 2 2) by (auto using Arrays.rect_ufunc2 || lia).
  change (getitem (ufunc2 PrimFloat.div zero_after zero_before) 0 0) with nan.
  rewrite Hlog. now rewrite IEEE.ltb_nan_l, IEEE.ltb_nan_r.
Qed.

(** C3, amended: a NaN pixel of the log ratio satisfies neither [< thr] nor
    [> thr], so both masked assignments skip it and it is NaN in the
    binarized map; and [cd += dIx] yields NaN wherever the accumulator or the
    added map holds NaN. *)
Theorem nan_pixel_stays_nan :
  forall (THRSET : float) (h w : nat) (i j : nat),
    i < h -> j < w ->
    (forall dIx : ndarray,
        rect h w dIx ->
        np_isnan (getitem dIx i j) = true ->
        getitem (binarize THRSET dIx) i j = nan) /\
    (forall cd dIx : ndarray,
        rect h w cd -> rect h w dIx ->
        np_isnan (getitem cd i j) = true \/ np_isnan (getitem dIx i j) = true ->
        exists r, np_iadd cd dIx = Returns r /\ getitem r i j = nan).
Proof.
  intros THRSET h w i j Hi Hj. assert (Hh : 0 < h) by lia. split.
  - intros dIx Hd Hnan.
    rewrite (Arrays.getitem_binarize THRSET h w) by assumption.
    apply IEEE.isnan_true in Hnan. rewrite Hnan.
    now rewrite IEEE.ltb_nan_l, IEEE.ltb_nan_r.
  - intros cd dIx Hc Hd Hnan.
    exists (ufunc2 PrimFloat.add cd dIx). split.
    + unfold np_iadd. rewrite (Arrays.broadcast2_same _ h w) by assumption.
      simpl. unfold shape_eqb.
      rewrite (Arrays.rect_shape h w (ufunc2 PrimFloat.add cd dIx))
        by auto using Arrays.rect_ufunc2.
      rewrite (Arrays.rect_shape h w cd) by assumption.
      simpl. now rewrite !Nat.eqb_refl.
    + rewrite (Arrays.getitem_ufunc2 _ h w) by assumption.
      destruct Hnan as [Hnan|Hnan]; apply IEEE.isnan_true in Hnan; rewrite Hnan.
      * apply IEEE.add_nan_l.
      * apply IEEE.add_nan_r.
Qed.

Lemma nan_pixel_stays_nan_witness :
  getitem (binarize notebook_THRSET [[nan; 0]; [0; 1.5]]%float) 0 0 = nan /\
  exists r, np_iadd [[nan; 0]; [0; 1]]%float [[1; 1]; [0; 0]]%float = Returns r /\
            getitem r 0 0 = nan.
Proof.
  assert (H00 : 0 < 2) by lia.
  destruct (nan_pixel_stays_nan notebook_THRSET 2 2 0 0 H00 H00) as [Hb Ha].
  split.
  - apply Hb; [split; [reflexivity|repeat constructor]|reflexivity].
  - apply Ha; try (split; [reflexivity|repeat constructor]).
    left. reflexivity.
Defined.

(** C4, as stated, fails on the code: on the flat raster [[1,1],[1,1]] the
    filter with window 1 returns NaN everywhere, not the raster. *)
Lemma lee_filter_one_flat_is_nan :
  all_pixels np_isfinite before_flat = true /\
  lee_filter before_flat 1 = nans22 /\
  all_pixels (fun x => (x =? 1)%float) (lee_filter before_flat 1) = false.
Proof. repeat split; vm_compute; reflexivity. Qed.

(** C4, amended: for a raster of finite samples whose squares do not
    overflow, what the filter with window 1 returns is decided by the
    overall variance [variance(img)] as scipy computes it.  When that variance
    is neither zero nor NaN the result has the shape of the input and equals
    it sample by sample (numpy's [==]); when it is zero the result is NaN
    everywhere.  A constant raster can fall on either side, since rounding
    in the mean can leave it a non-zero variance: [[0.1, 0.1, 0.1]] comes
    back unchanged while np.full((3, 3), 0.1) and [[1, 1], [1, 1]] come
    back all NaN. *)
Theorem lee_filter_one_identity :
  forall (h w : nat) (img : ndarray),
    rect h w img ->
    all_pixels square_finite img = true ->
    (np_isnan (variance img) = false ->
     (variance img =? 0)%float = false ->
     rect h w (lee_filter img 1) /\
     forall i j, i < h -> j < w ->
       (getitem (lee_filter img 1) i j =? getitem img i j)%float = true) /\
    ((variance img =? 0)%float = true ->
     lee_filter img 1 = full h w nan).
Proof.
  intros h w img Hr Hfin.
  assert (Hpix : forall i j, i < h -> j < w ->
            np_isfinite (getitem img i j) = true /\
            np_isfinite (getitem img i j * getitem img i j)%float = true).
  { intros i j Hi Hj.
    pose proof (Arrays.all_pixels_getitem _ h w img i j Hr Hfin Hi Hj) as Hx.
    unfold square_finite in Hx. now apply andb_prop in Hx. }
  split.
  - intros Hnan Hnz. split; [now apply Arrays.rect_lee_filter|].
    intros i j Hi Hj.
    destruct (Arrays.getitem_lee_filter 1 h w img i j Hr Hi Hj) as [_ Hout].
    rewrite Hout, Arrays.uniform_filter_one.
    rewrite (Arrays.getitem_lee_variance_one h w) by assumption.
    destruct (Hpix i j Hi Hj) as [Hx Hxx].
    now apply IEEE.lee_pixel_identity.
  - intros Hz. apply Arrays.full_ext; [now apply Arrays.rect_lee_filter|].
    intros i j Hi Hj.
    destruct (Arrays.getitem_lee_filter 1 h w img i j Hr Hi Hj) as [_ Hout].
    rewrite Hout.
    rewrite (Arrays.getitem_lee_variance_one h w) by assumption.
    destruct (Hpix i j Hi Hj) as [Hx Hxx].
    rewrite (IEEE.sub_self (getitem img i j * getitem img i j)%float)
      by now apply IEEE.isfinite_inv.
    apply IEEE.lee_pixel_zero_over_zero; [|reflexivity].
    apply IEEE.eqb_zero_inv in Hz. destruct Hz as [s E].
    rewrite eqb_spec, add_spec, E, IEEE.Prim2SF_zero. now destruct s.
Qed.

Lemma lee_filter_one_identity_witness :
  (rect 2 2 (lee_filter ramp 1) /\
   forall i j, i < 2 -> j < 2 ->
     (getitem (lee_filter ramp 1) i j =? getitem ramp i j)%float = true) /\
  (rect 1 3 (lee_filter tenth_row 1) /\
   forall i j, i < 1 -> j < 3 ->
     (getitem (lee_filter tenth_row 1) i j =? getitem tenth_row i j)%float = true) /\
  lee_filter tenth_square 1 = full 3 3 nan.
Proof.
  split; [|split].
  - apply (lee_filter_one_identity 2 2 ramp).
    + split; [reflexivity|repeat constructor].
    + reflexivity.
    + reflexivity.
    + reflexivity.
  - apply (lee_filter_one_identity 1 3 tenth_row).
    + split; [reflexivity|repeat constructor].
    + reflexivity.
    + reflexivity.
    + reflexivity.
  - apply (lee_filter_one_identity 3 3 tenth_square).
    + split; [reflexivity|repeat constructor].
    + reflexivity.
    + reflexivity.
Defined.

(** C5, as stated, fails on the code: on the flat raster both variances are
    zero at every pixel, the weight is 0/0 = NaN, not 0, and the output is
    NaN, not the local mean 1. *)
Lemma lee_filter_flat_divides_zero_by_zero :
  lee_variance before_flat 3 = zeros 2 2 /\
  variance before_flat = 0%float /\
  uniform_filter before_flat (3, 3) = full 2 2 1%float /\
  lee_weights before_flat 3 = nans22 /\
  lee_filter before_flat 3 = nans22.
Proof. repeat split; vm_compute; reflexivity. Qed.

(** C5, amended: the weight is the IEEE quotient
    [v_local / (v_local + v_global)] with no guard.  At a pixel where the
    denominator is zero the output is NaN or infinite, never a finite
    number; when the local variance is zero there as well, the weight is
    0/0 = NaN and the output is NaN. *)
Theorem lee_filter_zero_denominator :
  forall (size h w : nat) (img : ndarray) (i j : nat),
    rect h w img -> i < h -> j < w ->
    (getitem (lee_variance img size) i j + variance img =? 0)%float = true ->
    np_isfinite (getitem (lee_filter img size) i j) = false /\
    ((getitem (lee_variance img size) i j =? 0)%float = true ->
     getitem (lee_weights img size) i j = nan /\
     getitem (lee_filter img size) i j = nan).
Proof.
  intros size h w img i j Hr Hi Hj Hden.
  destruct (Arrays.getitem_lee_filter size h w img i j Hr Hi Hj) as [Hw Hout].
  rewrite Hw, Hout. split.
  - now apply IEEE.lee_pixel_zero_denominator.
  - intros Hv. now apply IEEE.lee_pixel_zero_over_zero.
Qed.

Lemma lee_filter_zero_denominator_witness :
  np_isfinite (getitem (lee_filter before_flat 3) 1 0) = false /\
  ((getitem (lee_variance before_flat 3) 1 0 =? 0)%float = true ->
   getitem (lee_weights before_flat 3) 1 0 = nan /\
   getitem (lee_filter before_flat 3) 1 0 = nan).
Proof.
  apply (lee_filter_zero_denominator 3 2 2 before_flat 1 0).
  - split; [reflexivity|repeat constructor].
  - lia.
  - lia.
  - reflexivity.
Defined.

(** C6, as stated, fails on the code: a 1 x 2 raster and a 2 x 2 raster
    differ in height, yet [img2/img1] broadcasts the single row and a full
    2 x 2 change map is returned, in either order and for every logarithm. *)
Lemma differing_heights_broadcast :
  shape one_row = (1, 2) /\ shape ramp = (2, 2) /\
  change_map notebook_THRSET notebook_MORPHWINSIZE ln_ref one_row ramp
    = Returns (zeros 2 2) /\
  change_map notebook_THRSET notebook_MORPHWINSIZE ln_ref ramp one_row
    = Returns (zeros 2 2) /\
  (forall np_log : float -> float,
      exists m, change_map notebook_THRSET notebook_MORPHWINSIZE np_log one_row ramp
                  = Returns m /\
                shape m = (2, 2)).
Proof.
  do 4 (split; [vm_compute; reflexivity|]).
  intros np_log. unfold change_map, log_ratio.
  change (broadcast2 PrimFloat.div ramp one_row)
    with (Returns [[1 / 1; 2 / 2]; [3 / 1; 4 / 2]]%float).
  cbn [bind]. eexists. split; [reflexivity|].
  apply (Arrays.rect_shape 2 2); [|lia].
  apply Arrays.rect_clean, Arrays.rect_binarize, Arrays.rect_ufunc1.
  split; [reflexivity|repeat constructor].
Qed.

(** C6, amended: the only shape check is numpy's broadcasting in
    [img2/img1].  The change map raises ValueError, and returns nothing,
    exactly when along some axis the two extents differ and neither is 1;
    otherwise it returns a complete map of the broadcast shape.  In
    particular two rasters of one shape never raise. *)
Theorem change_map_shape_check :
  forall (THRSET : float) (MORPHWINSIZE : nat) (np_log : float -> float)
         (h1 w1 h2 w2 : nat) (img1 img2 : ndarray),
    rect h1 w1 img1 -> rect h2 w2 img2 -> 0 < h1 -> 0 < h2 ->
    (change_map THRSET MORPHWINSIZE np_log img1 img2 = Raises ValueError <->
     ~ (compatible h1 h2 /\ compatible w1 w2)) /\
    (compatible h1 h2 /\ compatible w1 w2 ->
     exists m, change_map THRSET MORPHWINSIZE np_log img1 img2 = Returns m /\
               rect (broadcast_extent h1 h2) (broadcast_extent w1 w2) m) /\
    (h1 = h2 -> w1 = w2 ->
     exists m, change_map THRSET MORPHWINSIZE np_log img1 img2 = Returns m /\
               rect h1 w1 m).
Proof.
  intros THRSET M np_log h1 w1 h2 w2 img1 img2 H1 H2 Hh1 Hh2.
  destruct (Arrays.broadcast2_spec PrimFloat.div h2 w2 h1 w1 img2 img1 H2 H1 Hh2 Hh1)
    as [Hok Hbad].
  assert (Hcompat : compatible h1 h2 /\ compatible w1 w2 ->
            exists m, change_map THRSET M np_log img1 img2 = Returns m /\
                      rect (broadcast_extent h1 h2) (broadcast_extent w1 w2) m).
  { intros [Hh Hw].
    destruct Hok as (r & Hr & Hrect); [auto using Arrays.compatible_sym|].
    rewrite (Arrays.broadcast_extent_sym h1 h2), (Arrays.broadcast_extent_sym w1 w2)
      in Hrect by assumption.
    unfold change_map, log_ratio. rewrite Hr. simpl.
    eexists. split; [reflexivity|].
    auto using Arrays.rect_clean, Arrays.rect_binarize, Arrays.rect_ufunc1. }
  split; [|split].
  - split.
    + intros Hraise Hc. destruct (Hcompat Hc) as (m & Hm & _). congruence.
    + intros Hn. unfold change_map, log_ratio.
      rewrite Hbad; [reflexivity|].
      intros [Hh Hw]. apply Hn. auto using Arrays.compatible_sym.
  - exact Hcompat.
  - intros <- <-.
    destruct Hcompat as (m & Hm & Hrect); [unfold compatible; auto|].
    exists m. split; [assumption|].
    unfold broadcast_extent in Hrect.
    now destruct (Nat.eqb h1 1), (Nat.eqb w1 1).
Qed.

Lemma change_map_shape_check_witness :
  (exists m, change_map notebook_THRSET notebook_MORPHWINSIZE ln_ref ramp ramp_reversed
               = Returns m /\
             rect 2 2 m) /\
  change_map notebook_THRSET notebook_MORPHWINSIZE ln_ref three_rows ramp
    = Raises ValueError.
Proof.
  assert (R2 : forall a b c d : float, rect 2 2 [[a; b]; [c; d]])
    by (intros; split; [reflexivity|repeat constructor]).
  assert (R3 : rect 3 2 three_rows) by (split; [reflexivity|repeat constructor]).
  split.
  - destruct (change_map_shape_check notebook_THRSET notebook_MORPHWINSIZE ln_ref
                2 2 2 2 ramp ramp_reversed) as (_ & _ & Hsame);
      try apply R2; try lia.
    now apply Hsame.
  - destruct (change_map_shape_check notebook_THRSET notebook_MORPHWINSIZE ln_ref
                3 2 2 2 three_rows ramp) as (Hraise & _);
      try apply R2; try apply R3; try lia.
    apply Hraise. unfold compatible. lia.
Defined.

(** C7, as stated, fails on the code: the cell has no branch for a short
    sequence and yields no explicit absent result.  Run on one raster in a
    fresh kernel it ends without an exception and leaves [cd] unbound, so
    the display cell's read of [cd] raises NameError; run in a kernel where
    [cd] holds an earlier heat map it leaves that map in place, and the
    display cell shows it. *)
Lemma short_sequence_leaves_cd_undefined :
  run_cell notebook_THRSET notebook_MORPHWINSIZE notebook_FILTSIZE ln_ref None [raster ramp]
    = {| cd_bound := None; raised := None |} /\
  read_cd (cd_bound (run_cell notebook_THRSET notebook_MORPHWINSIZE notebook_FILTSIZE
                       ln_ref None [raster ramp])) = Raises NameError /\
  read_cd (cd_bound (run_cell notebook_THRSET notebook_MORPHWINSIZE notebook_FILTSIZE
                       ln_ref (Some speckled) [raster ramp])) = Returns speckled.
Proof. repeat split. Qed.

(** C7, amended: with fewer than two features the pair loop runs no
    iteration: the cell ends without an exception and leaves the kernel as
    it found it.  No heat map is produced, and no explicit absent result
    either: in a fresh kernel [cd] stays unbound and the next read of it
    raises NameError, in a used kernel [cd] still holds what the earlier run
    left.  With two or more features a cell that ends without an exception
    has bound [cd] to a heat map. *)
Theorem short_sequence_no_heatmap :
  forall (THRSET : float) (MORPHWINSIZE FILTSIZE : nat) (np_log : float -> float)
         (features : list feature) (cd0 : option ndarray),
    (length features < 2 ->
     run_cell THRSET MORPHWINSIZE FILTSIZE np_log cd0 features
       = {| cd_bound := cd0; raised := None |} /\
     heatmap THRSET MORPHWINSIZE FILTSIZE np_log features = Returns None /\
     read_cd (cd_bound (run_cell THRSET MORPHWINSIZE FILTSIZE np_log None features))
       = Raises NameError) /\
    (2 <= length features ->
     raised (run_cell THRSET MORPHWINSIZE FILTSIZE np_log cd0 features) = None ->
     exists m,
       cd_bound (run_cell THRSET MORPHWINSIZE FILTSIZE np_log cd0 features) = Some m /\
       read_cd (cd_bound (run_cell THRSET MORPHWINSIZE FILTSIZE np_log cd0 features))
         = Returns m).
Proof.
  intros THRSET M F np_log features cd0. split.
  - intros Hlen.
    destruct features as [|ft1 [|ft2 rest]]; simpl in Hlen; try lia;
      repeat split; reflexivity.
  - intros Hlen Hk.
    destruct (Loop.run_cell_binds THRSET M F np_log cd0 features Hlen Hk) as (m & Hm).
    exists m. split; [exact Hm|]. now rewrite Hm.
Qed.

Lemma short_sequence_no_heatmap_witness :
  (run_cell notebook_THRSET notebook_MORPHWINSIZE notebook_FILTSIZE ln_ref
     (Some speckled) [raster before_flat]
     = {| cd_bound := Some speckled; raised := None |} /\
   heatmap notebook_THRSET notebook_MORPHWINSIZE notebook_FILTSIZE ln_ref
     [raster before_flat] = Returns None /\
   read_cd (cd_bound (run_cell notebook_THRSET notebook_MORPHWINSIZE notebook_FILTSIZE
                        ln_ref None [raster before_flat])) = Raises NameError) /\
  (exists m,
     cd_bound (run_cell notebook_THRSET notebook_MORPHWINSIZE notebook_FILTSIZE ln_ref
                 (Some speckled) three_rasters) = Some m /\
     read_cd (cd_bound (run_cell notebook_THRSET notebook_MORPHWINSIZE notebook_FILTSIZE
                          ln_ref (Some speckled) three_rasters)) = Returns m).
Proof.
  split.
  - apply (short_sequence_no_heatmap notebook_THRSET notebook_MORPHWINSIZE
             notebook_FILTSIZE ln_ref [raster before_flat] (Some speckled)).
    simpl. lia.
  - apply (short_sequence_no_heatmap notebook_THRSET notebook_MORPHWINSIZE
             notebook_FILTSIZE ln_ref three_rasters (Some speckled)).
    + simpl. lia.
    + vm_compute. reflexivity.
Defined.

(** C8: for a sequence of at least two rasters of one shape, each
    consecutive pair yields a change map when filtered, compared and cleaned
    on its own, there are N - 1 of them, and the loop returns their
    elementwise float sum taken from the left.  The same maps added in any
    other order of reduction (any permutation, any bracketing) give, pixel
    by pixel: a result within the summation tolerance of the heat map when
    both are numbers, namely at most [2 * ((1 + 2^-50)^(N-2) - 1)] times the
    sum of the magnitudes of the samples; NaN in both when a map holds NaN
    there; and exactly the heat map, the count of the maps that hold 1.0
    there, when every sample there is 0.0 or 1.0 and there are at most 4096
    maps.  Values are compared in units of 2^-1074 ([scaled]).  Two maps add
    to the same heat map in either order. *)
Theorem heatmap_is_sum_of_pair_maps :
  (forall (THRSET : float) (MORPHWINSIZE FILTSIZE : nat) (np_log : float -> float)
          (h w : nat) (features : list feature),
      2 <= length features -> 0 < h ->
      Forall (fun ft => rect h w (band ft)) features ->
      exists cms : list ndarray,
        Forall2 (fun p m => pair_map THRSET MORPHWINSIZE FILTSIZE np_log p = Returns m)
                (pairs features) cms /\
        length cms = length features - 1 /\
        heatmap THRSET MORPHWINSIZE FILTSIZE np_log features
          = Returns (sum_maps PrimFloat.add cms)) /\
  (forall (h w : nat) (cms : list ndarray) (hm : ndarray) (t : reduction ndarray)
          (i j : nat),
      Forall (rect h w) cms -> i < h -> j < w ->
      sum_maps PrimFloat.add cms = Some hm ->
      Permutation (leaves t) cms ->
      let other := reduce (ufunc2 PrimFloat.add) t in
      let samples := map (fun m => getitem m i j) cms in
      let k := Z.of_nat (length cms - 1) in
      (np_isfinite (getitem hm i j) = true ->
       np_isfinite (getitem other i j) = true ->
       ((2 ^ 50) ^ k * Z.abs (scaled (getitem hm i j) - scaled (getitem other i j))
        <= ((2 ^ 50 + 1) ^ k - (2 ^ 50) ^ k) * (2 * sum_magnitudes samples))%Z) /\
      (Exists (fun x => np_isnan x = true) samples ->
       getitem hm i j = nan /\ getitem other i j = nan) /\
      (length cms <= most_maps ->
       Forall (fun x => x = 0%float \/ x = 1%float) samples ->
       getitem hm i j = of_count (count_ones samples) /\
       getitem other i j = getitem hm i j)) /\
  (forall m1 m2 : ndarray,
      sum_maps PrimFloat.add [m1; m2] = sum_maps PrimFloat.add [m2; m1]).
Proof.
  split; [|split].
  - intros THRSET M F np_log h w features Hlen Hh Hfts.
    destruct features as [|ft1 [|ft2 rest]]; simpl in Hlen; try lia.
    inversion Hfts as [|? ? Hft1 Hrest]; subst.
    inversion Hrest as [|? ? Hft2 _]; subst.
    destruct (Loop.pair_map_same THRSET M F np_log h w ft1 ft2)
      as (m & Hm & Rm); try assumption.
    destruct (Loop.pair_loop_adds THRSET M F np_log h w Hh (ft2 :: rest) 1 m)
      as (cms & Hcms & Hloop); [lia|assumption|assumption|].
    exists (m :: cms). split; [|split].
    + now constructor.
    + apply Forall2_length in Hcms. rewrite Loop.pairs_length in Hcms.
      simpl in *. lia.
    + rewrite Loop.heatmap_pair_loop.
      change (pair_loop THRSET M F np_log 0 (ft1 :: ft2 :: rest) None)
        with (cd' <- pair_step THRSET M F np_log 0 None ft1 ft2 ;;
              pair_loop THRSET M F np_log 1 (ft2 :: rest) cd').
      unfold pair_step. unfold pair_map in Hm. simpl in Hm. rewrite Hm.
      simpl. exact Hloop.
  - intros h w cms hm t i j Hrect Hi Hj Hsum Hperm other samples k.
    destruct cms as [|m rest]; [discriminate|].
    destruct (Order.sum_maps_left_comb m rest) as [Hcomb Hleaves].
    rewrite Hsum in Hcomb. inversion Hcomb as [Ehm]. clear Hcomb.
    set (loop := left_comb (Leaf m) rest) in *.
    assert (Hrect' : Forall (rect h w) (leaves loop)) by now rewrite Hleaves.
    assert (Hperm' : Permutation (leaves t) (leaves loop)) by now rewrite Hleaves.
    assert (Hrect_t : Forall (rect h w) (leaves t)).
    { apply Forall_forall. intros x Hx. rewrite Forall_forall in Hrect.
      apply Hrect. now apply (Permutation_in _ Hperm). }
    assert (Hsamples : samples = map (fun m => getitem m i j) (leaves loop))
      by (unfold samples; now rewrite Hleaves).
    assert (Hsamples_t : Permutation (map (fun m => getitem m i j) (leaves t)) samples)
      by (unfold samples; now apply Permutation_map).
    split; [|split].
    + intros Hfin Hfin'.
      pose proof (Order.reduce_pixel_close h w i j Hi Hj loop t Hrect' Hperm'
                    Hfin Hfin') as H.
      unfold within in H. rewrite Hleaves in H. exact H.
    + intros Hnan. split.
      * apply (Order.reduce_pixel_nan h w i j Hi Hj loop Hrect').
        rewrite Hsamples in Hnan. now apply Exists_map in Hnan.
      * apply (Order.reduce_pixel_nan h w i j Hi Hj t Hrect_t).
        assert (Hnan_t : Exists (fun x => np_isnan x = true)
                           (map (fun m => getitem m i j) (leaves t))).
        { apply Exists_exists in Hnan. destruct Hnan as (x & Hx & Hn).
          apply Exists_exists. exists x. split; [|exact Hn].
          now apply (Permutation_in _ (Permutation_sym Hsamples_t)). }
        now apply Exists_map in Hnan_t.
    + intros Hlen Hbin.
      assert (Hloop : getitem (reduce (ufunc2 PrimFloat.add) loop) i j =
                      of_count (count_ones samples)).
      { rewrite Hsamples.
        apply (Order.reduce_pixel_count h w i j Hi Hj loop Hrect').
        - now rewrite Hleaves.
        - rewrite Hsamples in Hbin. now apply Forall_map in Hbin. }
      split; [exact Hloop|].
      fold other. rewrite Hloop. unfold other.
      rewrite <- (Counts.count_ones_perm _ _ Hsamples_t).
      apply (Order.reduce_pixel_count h w i j Hi Hj t Hrect_t).
      * now rewrite (Permutation_length Hperm).
      * assert (Hbin_t : Forall (fun x => x = 0%float \/ x = 1%float)
                           (map (fun m => getitem m i j) (leaves t))).
        { apply Forall_forall. intros x Hx.
          rewrite Forall_forall in Hbin. apply Hbin.
          now apply (Permutation_in _ Hsamples_t). }
        now apply Forall_map in Hbin_t.
  - intros m1 m2. simpl. f_equal. apply Loop.ufunc2_comm, IEEE.add_comm.
Qed.

Lemma heatmap_is_sum_of_pair_maps_witness :
  (exists cms : list ndarray,
      Forall2 (fun p m => pair_map notebook_THRSET notebook_MORPHWINSIZE
                            notebook_FILTSIZE ln_ref p = Returns m)
              (pairs three_rasters) cms /\
      length cms = length three_rasters - 1 /\
      heatmap notebook_THRSET notebook_MORPHWINSIZE notebook_FILTSIZE ln_ref three_rasters
        = Returns (sum_maps PrimFloat.add cms)) /\
  (sum_maps PrimFloat.add fraction_maps = Some [[0x1.3333333333334p-1]]%float /\
   reduce (ufunc2 PrimFloat.add) fraction_right_first = [[0x1.3333333333333p-1]]%float /\
   ((2 ^ 50) ^ 2 *
      Z.abs (scaled 0x1.3333333333334p-1 -
             scaled (getitem (reduce (ufunc2 PrimFloat.add) fraction_right_first) 0 0))
    <= ((2 ^ 50 + 1) ^ 2 - (2 ^ 50) ^ 2) *
       (2 * sum_magnitudes (map (fun m => getitem m 0 0) fraction_maps)))%Z) /\
  (getitem [[2; 1]; [1; 3]]%float 1 1 =
     of_count (count_ones (map (fun m => getitem m 1 1) binary_maps)) /\
   getitem (reduce (ufunc2 PrimFloat.add) binary_last_first) 1 1 =
     getitem [[2; 1]; [1; 3]]%float 1 1).
Proof.
  destruct heatmap_is_sum_of_pair_maps as (Hfold & Horder & _).
  split; [|split].
  - apply (Hfold _ _ _ _ 2 2).
    + simpl. lia.
    + lia.
    + repeat constructor.
  - split; [reflexivity|]. split; [reflexivity|].
    destruct (Horder 1 1 fraction_maps [[0x1.3333333333334p-1]]%float
                fraction_right_first 0 0) as (Hclose & _ & _).
    + repeat constructor.
    + lia.
    + lia.
    + reflexivity.
    + apply Permutation_refl.
    + apply Hclose; reflexivity.
  - destruct (Horder 2 2 binary_maps [[2; 1]; [1; 3]]%float binary_last_first 1 1)
      as (_ & _ & Hexact).
    + repeat constructor.
    + lia.
    + lia.
    + reflexivity.
    + unfold binary_last_first, binary_maps. simpl leaves.
      apply Permutation_cons_append.
    + apply Hexact.
      * unfold most_maps. simpl. lia.
      * repeat constructor; (now left) || (now right).
Defined.

(** C9: when the two rasters entering the change detection are the same
    raster of finite, strictly positive samples, every ratio is exactly 1,
    the log ratio is all zeros, the threshold is 0, no pixel is strictly
    above it, and the binarized and the opened map are all zeros.  [np_log]
    is any logarithm with [log 1 = 0]; the multiplier is any finite number;
    the raster has at least one sample and fewer than 2^63. *)
Theorem zero_change_baseline :
  forall (THRSET : float) (MORPHWINSIZE : nat) (np_log : float -> float)
         (h w : nat) (img : ndarray),
    np_log 1%float = 0%float ->
    np_isfinite THRSET = true ->
    rect h w img -> 0 < h -> 0 < w -> (Z.of_nat (h * w) < 2 ^ 63)%Z ->
    all_pixels positive_sample img = true ->
    log_ratio np_log img img = Returns (zeros h w) /\
    threshold THRSET (zeros h w) = 0%float /\
    all_pixels (fun x => negb (threshold THRSET (zeros h w) <? x)%float) (zeros h w) = true /\
    binarize THRSET (zeros h w) = zeros h w /\
    clean MORPHWINSIZE (zeros h w) = zeros h w /\
    change_map THRSET MORPHWINSIZE np_log img img = Returns (zeros h w).
Proof.
  intros THRSET M np_log h w img Hlog Hthr Hr Hh Hw Hsize Hpos.
  assert (Hn : 0 < h * w) by nia.
  assert (Hratio : log_ratio np_log img img = Returns (zeros h w)).
  { unfold log_ratio. rewrite (Arrays.broadcast2_same _ h w) by assumption.
    simpl. unfold zeros. apply f_equal.
    apply Arrays.full_ext;
      [auto using Arrays.rect_ufunc1, Arrays.rect_ufunc2|].
    intros i j Hi Hj.
    rewrite (Arrays.getitem_ufunc1 _ h w) by auto using Arrays.rect_ufunc2.
    rewrite (Arrays.getitem_ufunc2 _ h w) by assumption.
    pose proof (Arrays.all_pixels_getitem _ h w img i j Hr Hpos Hi Hj) as Hx.
    apply IEEE.positive_sample_inv in Hx. destruct Hx as (m & e & E).
    now rewrite (IEEE.div_self _ _ _ _ E). }
  assert (Hzero : threshold THRSET (zeros h w) = 0%float)
    by now apply Arrays.threshold_zeros.
  assert (Hbin : binarize THRSET (zeros h w) = zeros h w)
    by now apply Arrays.binarize_zeros.
  assert (Hclean : clean M (zeros h w) = zeros h w)
    by apply Arrays.grey_opening_full.
  repeat split; trivial.
  - rewrite Hzero. now apply Arrays.all_pixels_full.
  - unfold change_map. rewrite Hratio. simpl. now rewrite Hbin, Hclean.
Qed.

Lemma zero_change_baseline_witness :
  log_ratio ln_ref ramp ramp = Returns (zeros 2 2) /\
  threshold notebook_THRSET (zeros 2 2) = 0%float /\
  all_pixels (fun x => negb (threshold notebook_THRSET (zeros 2 2) <? x)%float)
    (zeros 2 2) = true /\
  binarize notebook_THRSET (zeros 2 2) = zeros 2 2 /\
  clean notebook_MORPHWINSIZE (zeros 2 2) = zeros 2 2 /\
  change_map notebook_THRSET notebook_MORPHWINSIZE ln_ref ramp ramp
    = Returns (zeros 2 2).
Proof.
  apply zero_change_baseline.
  - reflexivity.
  - reflexivity.
  - split; [reflexivity|repeat constructor].
  - lia.
  - lia.
  - simpl. lia.
  - reflexivity.
Defined.

(** C10, as stated, fails on the code: the thresholded map can hold NaN
    (a NaN of the log ratio passes both masked assignments), and the
    running minimum and maximum of the opening do not order NaN.  On
    [nan_holed] with the notebook's window of 3 the pixel (2, 3) is 0.0
    before the opening and 1.0 after it, and the NaN pixel (0, 2) comes
    back as 1.0. *)
Lemma clean_raises_pixel_beside_nan :
  getitem nan_holed 2 3 = 0%float /\
  getitem (clean notebook_MORPHWINSIZE nan_holed) 2 3 = 1%float /\
  (getitem (clean notebook_MORPHWINSIZE nan_holed) 2 3 <=? getitem nan_holed 2 3)%float
    = false /\
  np_isnan (getitem nan_holed 0 2) = true /\
  getitem (clean notebook_MORPHWINSIZE nan_holed) 0 2 = 1%float.
Proof. repeat split; vm_compute; reflexivity. Qed.

(** C10, amended: on a map that holds no NaN the opening is
    anti-extensive: for every window size each sample of the cleaned map is
    at most the sample of the input at the same place; so a pixel that is
    0.0 in the thresholded map is never 1.0 in the cleaned map.  On a map
    that holds NaN it is not. *)
Theorem clean_is_anti_extensive :
  forall (MORPHWINSIZE h w : nat) (dIx : ndarray) (i j : nat),
    rect h w dIx ->
    all_pixels (fun x => negb (np_isnan x)) dIx = true ->
    i < h -> j < w ->
    (getitem (clean MORPHWINSIZE dIx) i j <=? getitem dIx i j)%float = true /\
    (getitem dIx i j = 0%float -> getitem (clean MORPHWINSIZE dIx) i j <> 1%float).
Proof.
  intros M h w dIx i j Hr Hall Hi Hj.
  assert (Hn : nonnan h w dIx).
  { intros i' j' Hi' Hj'.
    pose proof (Arrays.all_pixels_getitem _ h w dIx i' j' Hr Hall Hi' Hj') as H.
    now apply negb_true_iff in H. }
  assert (Hle : (getitem (clean M dIx) i j <=? getitem dIx i j)%float = true)
    by now apply (Opening.grey_opening_le M h w).
  split; [exact Hle|].
  intros Hz Hone. rewrite Hz, Hone in Hle. discriminate.
Qed.

Lemma clean_is_anti_extensive_witness :
  (getitem (clean notebook_MORPHWINSIZE speckled) 0 0 <=? getitem speckled 0 0)%float = true /\
  getitem (clean notebook_MORPHWINSIZE speckled) 0 1 <> 1%float.
Proof.
  assert (R : rect 4 4 speckled) by (split; [reflexivity|repeat constructor]).
  assert (N : all_pixels (fun x => negb (np_isnan x)) speckled = true) by reflexivity.
  split.
  - apply (clean_is_anti_extensive notebook_MORPHWINSIZE 4 4 speckled 0 0 R N); lia.
  - apply (clean_is_anti_extensive notebook_MORPHWINSIZE 4 4 speckled 0 1 R N); try lia.
    reflexivity.
Defined.

(** * Further properties of the cells *)

(** X1: when the threshold is not negative, a pixel of the log ratio that is
    strictly below or strictly above it is binarized as the one-pass
    formula says: 1.0 above the threshold, 0.0 below. *)
Theorem binarize_nonnegative_threshold :
  forall (THRSET : float) (h w : nat) (dIx : ndarray) (i j : nat),
    rect h w dIx -> i < h -> j < w ->
    (0 <=? threshold THRSET dIx)%float = true ->
    (getitem dIx i j <? threshold THRSET dIx)%float = true \/
    (threshold THRSET dIx <? getitem dIx i j)%float = true ->
    getitem (binarize THRSET dIx) i j = getitem (binarize_snapshot THRSET dIx) i j.
Proof.
  intros THRSET h w dIx i j Hr Hi Hj Hthr Hx.
  rewrite (Arrays.getitem_binarize THRSET h w) by assumption.
  unfold binarize_snapshot. rewrite (Arrays.getitem_ufunc1 _ h w) by assumption.
  destruct Hx as [Hlt|Hgt].
  - rewrite Hlt, (IEEE.ltb_asym _ _ Hlt).
    now rewrite (IEEE.leb_ltb_false _ _ Hthr).
  - rewrite (IEEE.ltb_asym _ _ Hgt). now rewrite Hgt.
Qed.

Lemma binarize_nonnegative_threshold_witness :
  getitem (binarize notebook_THRSET [[0; 0]; [0; 8]]%float) 1 1 =
  getitem (binarize_snapshot notebook_THRSET [[0; 0]; [0; 8]]%float) 1 1.
Proof.
  apply (binarize_nonnegative_threshold notebook_THRSET 2 2).
  - split; [reflexivity|repeat constructor].
  - lia.
  - lia.
  - reflexivity.
  - left. reflexivity.
Defined.

(** X2: the speckle filter returns a raster of the shape of its input, for
    every window size. *)
Theorem lee_filter_keeps_shape :
  forall (size h w : nat) (img : ndarray),
    rect h w img -> rect h w (lee_filter img size).
Proof. intros size h w img Hr. now apply Arrays.rect_lee_filter. Qed.

Lemma lee_filter_keeps_shape_witness : rect 2 2 (lee_filter ramp 3).
Proof.
  apply lee_filter_keeps_shape. split; [reflexivity|repeat constructor].
Defined.

(** X3: the pair loop ends with a result or with numpy's ValueError; it never
    reads [cd] before binding it and never indexes past the list. *)
Theorem heatmap_returns_or_value_error :
  forall (THRSET : float) (MORPHWINSIZE FILTSIZE : nat) (np_log : float -> float)
         (features : list feature),
    (exists r, heatmap THRSET MORPHWINSIZE FILTSIZE np_log features = Returns r) \/
    heatmap THRSET MORPHWINSIZE FILTSIZE np_log features = Raises ValueError.
Proof.
  intros. rewrite Loop.heatmap_pair_loop. apply Loop.pair_loop_outcome. now left.
Qed.

(** X4: one NaN sample makes the whole filtered raster NaN, for every window
    size: the overall variance is NaN, and with it every weight. *)
Theorem lee_filter_nan_sample :
  forall (size h w : nat) (img : ndarray) (i0 j0 : nat),
    rect h w img -> i0 < h -> j0 < w ->
    np_isnan (getitem img i0 j0) = true ->
    lee_filter img size = full h w nan.
Proof.
  intros size h w img i0 j0 Hr Hi Hj Hn.
  now apply (Arrays.lee_filter_nan size h w img i0 j0).
Qed.

Lemma lee_filter_nan_sample_witness : lee_filter one_nan 3 = full 2 2 nan.
Proof.
  apply (lee_filter_nan_sample 3 2 2 one_nan 0 1).
  - split; [reflexivity|repeat constructor].
  - lia.
  - lia.
  - reflexivity.
Defined.

(** X5: the nodata masking compares with [==], so it never replaces a NaN
    sample, whatever nodata value the dataset declares (NaN included); the
    band then comes back from [clipped_read] as NaN everywhere. *)
Theorem clipped_read_nan_sample :
  forall (FILTSIZE h w : nat) (ft : feature) (i0 j0 : nat),
    rect h w (band ft) -> i0 < h -> j0 < w ->
    np_isnan (getitem (band ft) i0 j0) = true ->
    np_isnan (getitem (mask_nodata (nodata ft) (band ft)) i0 j0) = true /\
    clipped_read FILTSIZE ft = full h w nan.
Proof.
  intros FILTSIZE h w ft i0 j0 Hr Hi Hj Hn.
  assert (Hm : np_isnan (getitem (mask_nodata (nodata ft) (band ft)) i0 j0) = true)
    by now apply (Arrays.mask_nodata_keeps_nan _ h w).
  split; [exact Hm|]. unfold clipped_read.
  apply (Arrays.lee_filter_nan FILTSIZE h w _ i0 j0);
    auto using Arrays.rect_mask_nodata.
Qed.

Lemma clipped_read_nan_sample_witness :
  np_isnan (getitem (mask_nodata (nodata nan_marked) (band nan_marked)) 0 1) = true /\
  clipped_read notebook_FILTSIZE nan_marked = full 2 2 nan.
Proof.
  apply (clipped_read_nan_sample notebook_FILTSIZE 2 2 nan_marked 0 1).
  - split; [reflexivity|repeat constructor].
  - lia.
  - lia.
  - reflexivity.
Defined.

(** X6: a clipped band that holds only the dataset's nodata value is masked
    to zeros and comes back from [clipped_read] as NaN everywhere: local and
    overall variance are zero, and the weight is 0/0. *)
Theorem clipped_read_all_nodata :
  forall (FILTSIZE h w : nat) (ft : feature) (v : float),
    0 < h * w -> (Z.of_nat (h * w) < 2 ^ 63)%Z -> (Z.of_nat FILTSIZE < 2 ^ 63)%Z ->
    band ft = full h w v -> nodata ft = Some v -> np_isnan v = false ->
    clipped_read FILTSIZE ft = full h w nan.
Proof.
  intros FILTSIZE h w ft v Hpos Hlt Hs Hb Hnd Hv.
  unfold clipped_read. rewrite Hb, Hnd. unfold mask_nodata.
  rewrite Arrays.ufunc1_full, (IEEE.eqb_self v Hv).
  now apply Arrays.lee_filter_zeros.
Qed.

Lemma clipped_read_all_nodata_witness :
  clipped_read notebook_FILTSIZE all_nodata = full 2 2 nan.
Proof.
  apply (clipped_read_all_nodata notebook_FILTSIZE 2 2 all_nodata (-9999)%float).
  - simpl. lia.
  - reflexivity.
  - reflexivity.
  - reflexivity.
  - reflexivity.
  - reflexivity.
Defined.

(** X7: one acquisition that [clipped_read] returns as NaN everywhere (a
    band of nodata only, or with a NaN sample) makes the heat map of the
    whole series NaN everywhere. *)
Theorem blank_acquisition_blanks_heatmap :
  forall (THRSET : float) (MORPHWINSIZE FILTSIZE : nat) (np_log : float -> float)
         (h w : nat) (features : list feature),
    np_log nan = nan -> 0 < h -> 2 <= length features ->
    Forall (fun ft => rect h w (band ft)) features ->
    Exists (fun ft => clipped_read FILTSIZE ft = full h w nan) features ->
    heatmap THRSET MORPHWINSIZE FILTSIZE np_log features = Returns (Some (full h w nan)).
Proof.
  intros THRSET M F np_log h w features Hlog Hh Hlen Hfts Hex.
  rewrite Loop.heatmap_pair_loop.
  apply (Loop.pair_loop_blank THRSET M F np_log h w Hh Hlog); auto.
Qed.

Lemma blank_acquisition_blanks_heatmap_witness :
  heatmap notebook_THRSET notebook_MORPHWINSIZE notebook_FILTSIZE ln_ref
    [raster ramp; all_nodata; raster ramp_reversed] = Returns (Some (full 2 2 nan)).
Proof.
  apply blank_acquisition_blanks_heatmap.
  - reflexivity.
  - lia.
  - simpl. lia.
  - repeat constructor.
  - apply Exists_cons_tl, Exists_cons_hd. reflexivity.
Defined.

(** X8: what the two masked assignments make of a pixel.  Above the
    threshold it becomes 1.0; below it, it becomes 0.0 when the threshold is
    not negative and 1.0 when it is; a pixel neither below nor above (equal
    to the threshold, or NaN, or any pixel under a NaN threshold) is left as
    it is. *)
Theorem binarize_pixel_cases :
  forall (THRSET : float) (h w : nat) (dIx : ndarray) (i j : nat),
    rect h w dIx -> i < h -> j < w ->
    ((threshold THRSET dIx <? getitem dIx i j)%float = true ->
     getitem (binarize THRSET dIx) i j = 1%float) /\
    ((getitem dIx i j <? threshold THRSET dIx)%float = true ->
     getitem (binarize THRSET dIx) i j =
       if (threshold THRSET dIx <? 0)%float then 1%float else 0%float) /\
    ((getitem dIx i j <? threshold THRSET dIx)%float = false ->
     (threshold THRSET dIx <? getitem dIx i j)%float = false ->
     getitem (binarize THRSET dIx) i j = getitem dIx i j).
Proof.
  intros THRSET h w dIx i j Hr Hi Hj.
  rewrite (Arrays.getitem_binarize THRSET h w) by assumption.
  repeat split.
  - intros Hgt. now rewrite (IEEE.ltb_asym _ _ Hgt), Hgt.
  - intros Hlt. now rewrite Hlt.
  - intros H1 H2. now rewrite H1, H2.
Qed.

Lemma binarize_pixel_cases_witness :
  getitem (binarize notebook_THRSET spike) 1 1 = 1%float /\
  getitem (binarize notebook_THRSET darker) 1 1 =
    (if (threshold notebook_THRSET darker <? 0)%float then 1%float else 0%float) /\
  getitem (binarize notebook_THRSET uniform_half) 0 0 = getitem uniform_half 0 0.
Proof.
  split; [|split].
  - apply (binarize_pixel_cases notebook_THRSET 3 3 spike 1 1);
      [split; [reflexivity|repeat constructor]|lia|lia|reflexivity].
  - apply (binarize_pixel_cases notebook_THRSET 2 2 darker 1 1);
      [split; [reflexivity|repeat constructor]|lia|lia|reflexivity].
  - apply (binarize_pixel_cases notebook_THRSET 2 2 uniform_half 0 0);
      [split; [reflexivity|repeat constructor]|lia|lia|reflexivity|reflexivity].
Defined.

(** X9: a heat map the loop returns has the shape of the first pair's change
    map: [cd += dIx] may broadcast a later map into [cd] but never changes
    the shape of [cd]. *)
Theorem heatmap_has_shape_of_first_map :
  forall (THRSET : float) (MORPHWINSIZE FILTSIZE : nat) (np_log : float -> float)
         (features : list feature) (m : ndarray),
    heatmap THRSET MORPHWINSIZE FILTSIZE np_log features = Returns (Some m) ->
    exists (ft1 ft2 : feature) (rest : list feature) (m0 : ndarray),
      features = ft1 :: ft2 :: rest /\
      pair_map THRSET MORPHWINSIZE FILTSIZE np_log (ft1, ft2) = Returns m0 /\
      shape m = shape m0.
Proof.
  intros THRSET M F np_log features m H.
  rewrite Loop.heatmap_pair_loop in H.
  destruct features as [|ft1 [|ft2 rest]]; try discriminate.
  change (pair_loop THRSET M F np_log 0 (ft1 :: ft2 :: rest) None)
    with (cd' <- pair_step THRSET M F np_log 0 None ft1 ft2 ;;
          pair_loop THRSET M F np_log 1 (ft2 :: rest) cd') in H.
  unfold pair_step in H.
  destruct (change_map THRSET M np_log (clipped_read F ft1) (clipped_read F ft2))
    as [m0|e] eqn:E; [|discriminate].
  cbn [bind accumulate Nat.eqb] in H.
  destruct (Loop.pair_loop_shape THRSET M F np_log (ft2 :: rest) 1 m0 (Some m)
              ltac:(lia) H) as (m' & Hm' & Hs).
  inversion Hm'; subst m'.
  exists ft1, ft2, rest, m0. repeat split; assumption.
Qed.

Lemma heatmap_has_shape_of_first_map_witness :
  exists (ft1 ft2 : feature) (rest : list feature) (m0 : ndarray),
    mixed_rasters = ft1 :: ft2 :: rest /\
    pair_map notebook_THRSET notebook_MORPHWINSIZE notebook_FILTSIZE ln_ref (ft1, ft2)
      = Returns m0 /\
    shape (zeros 3 2) = shape m0.
Proof.
  apply (heatmap_has_shape_of_first_map notebook_THRSET notebook_MORPHWINSIZE
           notebook_FILTSIZE ln_ref mixed_rasters (zeros 3 2)).
  vm_compute. reflexivity.
Defined.

(** X10: every sample of the cleaned map is a sample of the map it was
    given: the opening invents no value, so a map of 0.0 and 1.0 stays a map
    of 0.0 and 1.0. *)
Theorem clean_picks_samples :
  forall (MORPHWINSIZE h w : nat) (dIx : ndarray) (i j : nat),
    rect h w dIx -> i < h -> j < w ->
    exists i' j', i' < h /\ j' < w /\
      getitem (clean MORPHWINSIZE dIx) i j = getitem dIx i' j'.
Proof.
  intros M h w dIx i j Hr Hi Hj. unfold clean.
  now apply Opening.grey_opening_pick.
Qed.

Lemma clean_picks_samples_witness :
  exists i' j', i' < 4 /\ j' < 4 /\
    getitem (clean notebook_MORPHWINSIZE speckled) 0 0 = getitem speckled i' j'.
Proof.
  apply (clean_picks_samples notebook_MORPHWINSIZE 4 4 speckled 0 0).
  - split; [reflexivity|repeat constructor].
  - lia.
  - lia.
Defined.

(** X11: a consecutive pair whose rasters do not broadcast ends the cell
    with numpy's ValueError, wherever the pair stands in the series and
    whatever [cd] held before.  The exception is raised at the log ratio,
    before that iteration assigns [cd]: when the iterations before the pair
    ran normally, [cd] is left holding exactly what they built (the sum of
    the maps of the pairs before it; for a first pair, what [cd] held when
    the cell started), and no later pair is added. *)
Theorem mismatched_pair_aborts_heatmap :
  forall (THRSET : float) (MORPHWINSIZE FILTSIZE : nat) (np_log : float -> float)
         (cd0 : option ndarray) (pre : list feature) (ft1 ft2 : feature)
         (post : list feature) (h1 w1 h2 w2 : nat),
    rect h1 w1 (band ft1) -> rect h2 w2 (band ft2) -> 0 < h1 -> 0 < h2 ->
    ~ (compatible h1 h2 /\ compatible w1 w2) ->
    raised (run_cell THRSET MORPHWINSIZE FILTSIZE np_log cd0 (pre ++ ft1 :: ft2 :: post))
      = Some ValueError /\
    (raised (run_cell THRSET MORPHWINSIZE FILTSIZE np_log cd0 (pre ++ [ft1])) = None ->
     run_cell THRSET MORPHWINSIZE FILTSIZE np_log cd0 (pre ++ ft1 :: ft2 :: post) =
       {| cd_bound :=
            cd_bound (run_cell THRSET MORPHWINSIZE FILTSIZE np_log cd0 (pre ++ [ft1]));
          raised := Some ValueError |}).
Proof.
  intros THRSET M F np_log cd0 pre ft1 ft2 post h1 w1 h2 w2 R1 R2 Hh1 Hh2 Hinc.
  destruct (Loop.run_cell_mismatch THRSET M F np_log cd0 (pre ++ ft1 :: ft2 :: post)
              ft1 ft2 h1 w1 h2 w2) as [Hpm Hraised];
    try assumption; [apply Loop.pairs_app_in|].
  split; [exact Hraised|].
  intros Hk. now apply Loop.run_cell_stops.
Qed.

Lemma mismatched_pair_aborts_heatmap_witness :
  raised (run_cell notebook_THRSET notebook_MORPHWINSIZE notebook_FILTSIZE ln_ref
            None mismatched_rasters) = Some ValueError /\
  run_cell notebook_THRSET notebook_MORPHWINSIZE notebook_FILTSIZE ln_ref
    None mismatched_rasters =
    {| cd_bound :=
         cd_bound (run_cell notebook_THRSET notebook_MORPHWINSIZE notebook_FILTSIZE ln_ref
                     None [raster ramp; raster ramp_reversed]);
       raised := Some ValueError |}.
Proof.
  destruct (mismatched_pair_aborts_heatmap notebook_THRSET notebook_MORPHWINSIZE
              notebook_FILTSIZE ln_ref None [raster ramp]
              (raster ramp_reversed) (raster three_rows) [] 2 2 3 2) as [Hraised Hcd].
  - split; [reflexivity|repeat constructor].
  - split; [reflexivity|repeat constructor].
  - lia.
  - lia.
  - unfold compatible. lia.
  - split; [exact Hraised|]. apply Hcd. vm_compute. reflexivity.
Defined.

(** X12: one infinite sample in the log ratio (a zero in one raster of the
    pair only) makes [np.nanstd], and so the threshold, NaN; both masked
    assignments then select nothing and the map is left as it was, not
    binarized. *)
Theorem infinite_sample_disables_threshold :
  forall (THRSET : float) (h w : nat) (dIx : ndarray) (i0 j0 : nat),
    rect h w dIx -> i0 < h -> j0 < w -> (Z.of_nat (h * w) < 2 ^ 63)%Z ->
    getitem dIx i0 j0 = infinity \/ getitem dIx i0 j0 = neg_infinity ->
    threshold THRSET dIx = nan /\ binarize THRSET dIx = dIx.
Proof.
  intros THRSET h w dIx i0 j0 Hr Hi Hj Hlt Hinf.
  assert (Hstd : nanstd dIx = nan).
  { pose proof (Arrays.In_ravel h w dIx i0 j0 Hr Hi Hj) as Hin.
    assert (Hlen : (Z.of_nat (length (ravel dIx)) < 2 ^ 63)%Z)
      by now rewrite (Arrays.length_ravel h w).
    destruct Hinf as [E|E].
    - apply (Arrays.nanstd_infinite false dIx _ Hin); [now rewrite E|assumption].
    - apply (Arrays.nanstd_infinite true dIx _ Hin); [now rewrite E|assumption]. }
  assert (Hthr : threshold THRSET dIx = nan).
  { unfold threshold. now rewrite Hstd, IEEE.mul_nan_r, IEEE.add_nan_r. }
  split; [exact Hthr|]. now apply (Arrays.binarize_nan_threshold THRSET h w).
Qed.

Lemma infinite_sample_disables_threshold_witness :
  threshold notebook_THRSET with_infinity = nan /\
  binarize notebook_THRSET with_infinity = with_infinity.
Proof.
  apply (infinite_sample_disables_threshold notebook_THRSET 2 2 with_infinity 1 0).
  - split; [reflexivity|repeat constructor].
  - lia.
  - lia.
  - reflexivity.
  - right. reflexivity.
Defined.

(** X13: cleaning leaves a uniform map as it is, for every window size and
    every value (all 0.0, all 1.0, all NaN). *)
Theorem clean_uniform_map :
  forall (MORPHWINSIZE h w : nat) (v : float),
    clean MORPHWINSIZE (full h w v) = full h w v.
Proof. intros M h w v. unfold clean. apply Arrays.grey_opening_full. Qed.

(** X14: running the loop on a series with one more acquisition at its end is
    running it on the series and then doing one more iteration, on the last
    acquisition and the new one: the maps of the earlier pairs are the
    same. *)
Theorem heatmap_extends_by_one_pair :
  forall (THRSET : float) (MORPHWINSIZE FILTSIZE : nat) (np_log : float -> float)
         (features : list feature) (ft : feature),
    features <> [] ->
    heatmap THRSET MORPHWINSIZE FILTSIZE np_log (features ++ [ft]) =
    (cd <- heatmap THRSET MORPHWINSIZE FILTSIZE np_log features ;;
     pair_step THRSET MORPHWINSIZE FILTSIZE np_log (length features - 1) cd
       (last features ft) ft).
Proof.
  intros THRSET M F np_log features ft Hne.
  destruct (exists_last Hne) as (pre & lst & ->).
  rewrite last_last. unfold heatmap.
  rewrite !length_app. cbn [length].
  replace (length pre + 1 + 1 - 1) with (S (length pre)) by lia.
  replace (length pre + 1 - 1) with (length pre) by lia.
  rewrite seq_S, fold_left_app. cbn [fold_left Nat.add].
  rewrite (Loop.fold_left_ext_in _
             (fun acc i => cd <- acc ;; loop_body THRSET M F np_log (pre ++ [lst]) cd i)).
  - destruct (fold_left _ (seq 0 (length pre)) (Returns None)) as [cd|e];
      [|reflexivity].
    cbn [bind]. unfold loop_body.
    rewrite nth_error_app1 by (rewrite length_app; simpl; lia).
    rewrite nth_error_app2 by lia. rewrite Nat.sub_diag. cbn [nth_error].
    rewrite nth_error_app2 by (rewrite length_app; simpl; lia).
    rewrite length_app. cbn [length].
    replace (length pre + 1 - (length pre + 1)) with 0 by lia. reflexivity.
  - intros acc i Hi. apply in_seq in Hi. destruct acc as [cd|e]; [|reflexivity].
    cbn [bind]. unfold loop_body.
    rewrite (nth_error_app1 (pre ++ [lst])) by (rewrite length_app; simpl; lia).
    rewrite (nth_error_app1 (pre ++ [lst])) by (rewrite length_app; simpl; lia).
    reflexivity.
Qed.

Lemma heatmap_extends_by_one_pair_witness :
  heatmap notebook_THRSET notebook_MORPHWINSIZE notebook_FILTSIZE ln_ref
    ([raster ramp; raster ramp_reversed] ++ [raster ramp]) =
  (cd <- heatmap notebook_THRSET notebook_MORPHWINSIZE notebook_FILTSIZE ln_ref
           [raster ramp; raster ramp_reversed] ;;
   pair_step notebook_THRSET notebook_MORPHWINSIZE notebook_FILTSIZE ln_ref
     (length [raster ramp; raster ramp_reversed] - 1) cd
     (last [raster ramp; raster ramp_reversed] (raster ramp)) (raster ramp)).
Proof.
  apply heatmap_extends_by_one_pair. discriminate.
Defined.

(** X15: running the loop cell again in the same kernel, with two or more
    features.  The first iteration does not read [cd]: when the first pair
    yields a map the iteration rebinds [cd], and the kernel ends as a fresh
    kernel would, whatever [cd] held; when the first pair raises, the
    exception comes before the assignment and [cd] still holds the heat map
    of the earlier run, where a fresh kernel would leave it unbound. *)
Theorem rerun_forgets_old_heatmap :
  forall (THRSET : float) (MORPHWINSIZE FILTSIZE : nat) (np_log : float -> float)
         (cd0 : option ndarray) (ft1 ft2 : feature) (rest : list feature),
    (forall m, pair_map THRSET MORPHWINSIZE FILTSIZE np_log (ft1, ft2) = Returns m ->
       run_cell THRSET MORPHWINSIZE FILTSIZE np_log cd0 (ft1 :: ft2 :: rest) =
       run_cell THRSET MORPHWINSIZE FILTSIZE np_log None (ft1 :: ft2 :: rest)) /\
    (forall e, pair_map THRSET MORPHWINSIZE FILTSIZE np_log (ft1, ft2) = Raises e ->
       run_cell THRSET MORPHWINSIZE FILTSIZE np_log cd0 (ft1 :: ft2 :: rest) =
         {| cd_bound := cd0; raised := Some e |} /\
       run_cell THRSET MORPHWINSIZE FILTSIZE np_log None (ft1 :: ft2 :: rest) =
         {| cd_bound := None; raised := Some e |}).
Proof.
  intros THRSET M F np_log cd0 ft1 ft2 rest. split.
  - intros m Hm. rewrite !Loop.run_cell_first, Hm. reflexivity.
  - intros e He. rewrite !Loop.run_cell_first, He. split; reflexivity.
Qed.

Lemma rerun_forgets_old_heatmap_witness :
  run_cell notebook_THRSET notebook_MORPHWINSIZE notebook_FILTSIZE ln_ref
    (Some speckled) three_rasters =
  run_cell notebook_THRSET notebook_MORPHWINSIZE notebook_FILTSIZE ln_ref
    None three_rasters /\
  run_cell notebook_THRSET notebook_MORPHWINSIZE notebook_FILTSIZE ln_ref
    (Some speckled) [raster three_rows; raster ramp] =
    {| cd_bound := Some speckled; raised := Some ValueError |}.
Proof.
  split.
  - destruct (rerun_forgets_old_heatmap notebook_THRSET notebook_MORPHWINSIZE
                notebook_FILTSIZE ln_ref (Some speckled)
                (raster ramp) (raster ramp_reversed) [raster ramp]) as [Hok _].
    apply (Hok (zeros 2 2)). vm_compute. reflexivity.
  - destruct (rerun_forgets_old_heatmap notebook_THRSET notebook_MORPHWINSIZE
                notebook_FILTSIZE ln_ref (Some speckled)
                (raster three_rows) (raster ramp) []) as [_ Hbad].
    apply (Hbad ValueError). vm_compute. reflexivity.
Defined.

(** X16: a pixel that is zero in the later raster of a pair and positive in
    the earlier one has the log ratio -inf; the threshold is then NaN and the
    pair's change map is the opened raw log ratio, not a map of 0.0 and
    1.0. *)
Theorem zero_in_later_raster_skips_binarization :
  forall (THRSET : float) (MORPHWINSIZE : nat) (np_log : float -> float)
         (h w : nat) (img1 img2 : ndarray) (i0 j0 : nat),
    np_log 0%float = neg_infinity ->
    rect h w img1 -> rect h w img2 -> i0 < h -> j0 < w ->
    (Z.of_nat (h * w) < 2 ^ 63)%Z ->
    getitem img2 i0 j0 = 0%float -> positive_sample (getitem img1 i0 j0) = true ->
    change_map THRSET MORPHWINSIZE np_log img1 img2 =
      Returns (clean MORPHWINSIZE (ufunc1 np_log (ufunc2 PrimFloat.div img2 img1))).
Proof.
  intros THRSET M np_log h w img1 img2 i0 j0 Hlog R1 R2 Hi Hj Hlt H2 H1.
  destruct (Loop.change_map_same THRSET M np_log h w img1 img2 R1 R2 ltac:(lia))
    as [E _].
  rewrite E. do 2 apply f_equal.
  apply (Arrays.binarize_infinite true THRSET h w _ i0 j0);
    auto using Arrays.rect_ufunc1, Arrays.rect_ufunc2.
  rewrite (Arrays.getitem_ufunc1 _ h w), (Arrays.getitem_ufunc2 _ h w) by auto using Arrays.rect_ufunc2.
  rewrite H2. destruct (IEEE.positive_sample_inv _ H1) as (m & e & Em).
  rewrite (IEEE.zero_div_positive (getitem img1 i0 j0))
    by (now apply (PositiveFinite _ m e)).
  now rewrite Hlog.
Qed.

Lemma zero_in_later_raster_skips_binarization_witness :
  change_map notebook_THRSET notebook_MORPHWINSIZE ln_ref ramp [[1; 2]; [0; 4]]%float =
    Returns (clean notebook_MORPHWINSIZE
               (ufunc1 ln_ref (ufunc2 PrimFloat.div [[1; 2]; [0; 4]]%float ramp))).
Proof.
  apply (zero_in_later_raster_skips_binarization notebook_THRSET notebook_MORPHWINSIZE
           ln_ref 2 2 ramp [[1; 2]; [0; 4]]%float 1 0).
  - reflexivity.
  - split; [reflexivity|repeat constructor].
  - split; [reflexivity|repeat constructor].
  - lia.
  - lia.
  - reflexivity.
  - reflexivity.
  - reflexivity.
Defined.

(** X17: after the first iteration [cd += dIx] succeeds exactly when the new
    map has the extent of [cd] or 1 along each axis, and the sum has the
    shape of [cd]; any other map raises numpy's ValueError. *)
Theorem accumulate_keeps_shape_of_cd :
  forall (i : nat) (cd dIx : ndarray) (hc wc hd wd : nat),
    0 < i -> rect hc wc cd -> rect hd wd dIx -> 0 < hc -> 0 < hd ->
    ((hd = hc \/ hd = 1) /\ (wd = wc \/ wd = 1) ->
     exists r, accumulate i (Some cd) dIx = Returns (Some r) /\ rect hc wc r) /\
    (~ ((hd = hc \/ hd = 1) /\ (wd = wc \/ wd = 1)) ->
     accumulate i (Some cd) dIx = Raises ValueError).
Proof.
  intros i cd dIx hc wc hd wd Hi Rc Rd Hc Hd.
  unfold accumulate. destruct (Nat.eqb_spec i 0) as [->|_]; [lia|].
  destruct (Arrays.np_iadd_spec cd dIx hc wc hd wd Rc Rd Hc Hd) as [Hok Hbad]. split.
  - intros H. destruct (Hok H) as (r & Er & Rr). rewrite Er. cbn [bind]. eauto.
  - intros H. now rewrite (Hbad H).
Qed.

Lemma accumulate_keeps_shape_of_cd_witness :
  (exists r, accumulate 1 (Some three_rows) one_row = Returns (Some r) /\ rect 3 2 r) /\
  accumulate 1 (Some one_row) three_rows = Raises ValueError.
Proof.
  split.
  - apply (accumulate_keeps_shape_of_cd 1 three_rows one_row 3 2 1 2);
      try lia; try (split; [reflexivity|repeat constructor]).
  - apply (accumulate_keeps_shape_of_cd 1 one_row three_rows 1 2 3 2);
      try lia; try (split; [reflexivity|repeat constructor]).
Defined.

(** X18: a series whose acquisitions all come back from [clipped_read] as the
    same raster, finite and strictly positive, has a heat map of zeros:
    every pair's log ratio is exactly zero and the sum of the maps stays
    zero. *)
Theorem static_series_zero_heatmap :
  forall (THRSET : float) (MORPHWINSIZE FILTSIZE : nat) (np_log : float -> float)
         (h w : nat) (img : ndarray) (features : list feature),
    np_log 1%float = 0%float -> np_isfinite THRSET = true ->
    rect h w img -> 0 < h -> 0 < w -> (Z.of_nat (h * w) < 2 ^ 63)%Z ->
    all_pixels positive_sample img = true ->
    2 <= length features ->
    Forall (fun ft => clipped_read FILTSIZE ft = img) features ->
    heatmap THRSET MORPHWINSIZE FILTSIZE np_log features = Returns (Some (zeros h w)).
Proof.
  intros THRSET M F np_log h w img features Hlog Hthr Hr Hh Hw Hsize Hpos Hlen Hfts.
  rewrite Loop.heatmap_pair_loop.
  apply (Loop.pair_loop_static THRSET M F np_log h w img); auto.
Qed.

Lemma static_series_zero_heatmap_witness :
  heatmap notebook_THRSET notebook_MORPHWINSIZE notebook_FILTSIZE ln_ref
    [raster ramp; raster ramp; raster ramp] = Returns (Some (zeros 2 2)).
Proof.
  apply (static_series_zero_heatmap notebook_THRSET notebook_MORPHWINSIZE
           notebook_FILTSIZE ln_ref 2 2 (clipped_read notebook_FILTSIZE (raster ramp))).
  - reflexivity.
  - reflexivity.
  - split; [reflexivity|repeat constructor].
  - lia.
  - lia.
  - reflexivity.
  - reflexivity.
  - simpl. lia.
  - repeat constructor.
Defined.
